(** * Receipt field extraction of [backend/ocr_service/app.py]

    A shallow embedding of the OCR-result fusion and of the title, date and
    amount extractors ([extract_receipt_data], [extract_title_enhanced],
    [extract_date_enhanced], [extract_amount_enhanced]) and of the
    validation that [process_receipt] applies to their record, together
    with the part of Python's [re] and [str] that these functions call.
    Further down come the upload check [allowed_file], the variants and the
    request handler ([process_receipt_image], [process_receipt], over an
    arbitrary OCR engine and image library), and the line grouping
    [ReceiptOCR.group_text_blocks] of [backend/ocr_service/receipt_ocr.py].

    Modelling choices.
    - A Python [str] is a list of Unicode code points ([Text.text]).
      White space is the full set recognised by [str.isspace], [str.strip]
      and the [\s] class.  Decimal digits are those of every script, as
      [\d], [int] and [float] accept them, and [str.isdigit] has its own
      wider class (both from the tables of Unicode 14.0); the sets [[0-9]]
      of the source stay ASCII.  Letters and case mapping are those of the
      ASCII range, every other code point being a caseless symbol.
    - Regular expressions are parsed from the very pattern strings of the
      source and run by a backtracking matcher with Python's priorities
      (leftmost start, greedy repetition, ordered alternation).
    - Detection confidences are only ever compared, so they are rationals;
      candidate scores and amounts are IEEE binary64 numbers, because the
      source adds and subtracts them.
    - [int(..)] and [float(..)] return [None] where Python raises
      [ValueError]; every [try]/[except] of the source is the [None] branch
      of the corresponding match. *)

From Stdlib Require Import Ascii String.
From Stdlib Require Import List NArith ZArith QArith Bool Lia Sorted Permutation.
From Stdlib Require Import Floats.PrimFloat Floats.SpecFloat Floats.FloatOps.
Import ListNotations.

Set Implicit Arguments.
Set Warnings "-inexact-float,-abstract-large-number".
Local Open Scope nat_scope.

(* ===================================================================== *)
(** ** Strings *)
(* ===================================================================== *)

Module Text.

Local Open Scope N_scope.

Definition char := N.
Definition text := list char.

(** UTF-8 decoding: a Rocq string literal is a byte string. *)
Fixpoint decode (bs : list N) : text :=
  match bs with
  | [] => []
  | b :: r =>
    if (b <? 128)%N then b :: decode r
    else if (b <? 224)%N then
      match r with
      | b1 :: r1 => ((b mod 32) * 64 + b1 mod 64)%N :: decode r1
      | _ => []
      end
    else if (b <? 240)%N then
      match r with
      | b1 :: b2 :: r2 =>
        ((b mod 16) * 4096 + (b1 mod 64) * 64 + b2 mod 64)%N :: decode r2
      | _ => []
      end
    else
      match r with
      | b1 :: b2 :: b3 :: r3 =>
        ((b mod 8) * 262144 + (b1 mod 64) * 4096 + (b2 mod 64) * 64
         + b3 mod 64)%N :: decode r3
      | _ => []
      end
  end.

Definition str (s : string) : text :=
  decode (map N_of_ascii (list_ascii_of_string s)).

Definition ch (a : ascii) : char := N_of_ascii a.

Definition in_range (lo hi c : char) : bool := ((lo <=? c) && (c <=? hi))%N.

(** [str.isspace] on one code point, which is also [\s] and what [strip]
    and [split] remove. *)
Definition is_space (c : char) : bool :=
  in_range 9 13 c || in_range 28 32 c || (c =? 133)%N || (c =? 160)%N
  || (c =? 5760)%N || in_range 8192 8202 c || (c =? 8232)%N
  || (c =? 8233)%N || (c =? 8239)%N || (c =? 8287)%N || (c =? 12288)%N.

(** The decimal digits, which [\d], [str.isdecimal], [int] and [float]
    accept: the ASCII digits and the digits of the other scripts (category
    Nd of Unicode 14.0, the tables of CPython 3.11).  They come in blocks of
    ten, zero to nine in order; [decimal_zeros] lists the zeros of the
    blocks beyond ASCII. *)
Definition is_ascii_digit (c : char) : bool := in_range 48 57 c.

Definition decimal_zeros : list char :=
  [ 1632; 1776; 1984; 2406; 2534; 2662; 2790; 2918; 3046; 3174; 3302; 3430;
    3558; 3664; 3792; 3872; 4160; 4240; 6112; 6160; 6470; 6608; 6784; 6800;
    6992; 7088; 7232; 7248; 42528; 43216; 43264; 43472; 43504; 43600;
    44016; 65296; 66720; 68912; 69734; 69872; 69942; 70096; 70384; 70736;
    70864; 71248; 71360; 71472; 71904; 72016; 72784; 73040; 73120; 92768;
    92864; 93008; 120782; 120792; 120802; 120812; 120822; 123200; 123632;
    125264; 130032 ].

Definition in_block (c zero : char) : bool := in_range zero (zero + 9) c.

Definition is_digit (c : char) : bool :=
  is_ascii_digit c || ((1632 <=? c) && existsb (in_block c) decimal_zeros).

(** The value of a decimal digit. *)
Definition digit_value (c : char) : N :=
  if is_ascii_digit c then c - 48
  else match find (in_block c) decimal_zeros with
       | Some zero => c - zero
       | None => 0
       end.

(** [str.isdigit] on one code point: the decimal digits and the other
    characters of numeric type "digit" (superscripts, circled digits and
    the like), which [int] and [\d] do not accept. *)
Definition other_digits : list (char * char) :=
  [ (178, 179); (185, 185); (4969, 4977); (6618, 6618); (8304, 8304);
    (8308, 8313); (8320, 8329); (9312, 9320); (9332, 9340); (9352, 9360);
    (9450, 9450); (9461, 9469); (9471, 9471); (10102, 10110);
    (10112, 10120); (10122, 10130); (68160, 68163); (69216, 69224);
    (69714, 69722); (127232, 127242) ].

Definition is_digit_like (c : char) : bool :=
  is_digit c
  || ((178 <=? c) && existsb (fun r => in_range (fst r) (snd r) c) other_digits).

Definition is_upper (c : char) : bool := in_range 65 90 c.
Definition is_lower (c : char) : bool := in_range 97 122 c.
(** [\w] with the letters of the ASCII range; no pattern of the source
    uses this class. *)
Definition is_word (c : char) : bool :=
  is_digit c || is_upper c || is_lower c || (c =? 95)%N.

Definition lower_char (c : char) : char := if is_upper c then (c + 32)%N else c.
Definition upper_char (c : char) : char := if is_lower c then (c - 32)%N else c.

(** [s.lower()] *)
Definition lower (s : text) : text := map lower_char s.

Fixpoint lstrip (s : text) : text :=
  match s with
  | c :: s' => if is_space c then lstrip s' else s
  | [] => []
  end.

(** [s.strip()] *)
Definition strip (s : text) : text := rev (lstrip (rev (lstrip s))).

Fixpoint text_eqb (a b : text) : bool :=
  match a, b with
  | [], [] => true
  | x :: a', y :: b' => (x =? y)%N && text_eqb a' b'
  | _, _ => false
  end.

Fixpoint starts_with (p s : text) : bool :=
  match p, s with
  | [], _ => true
  | x :: p', y :: s' => (x =? y)%N && starts_with p' s'
  | _ :: _, [] => false
  end.

(** [p in s] *)
Fixpoint contains (p s : text) : bool :=
  starts_with p s ||
  match s with
  | [] => false
  | _ :: s' => contains p s'
  end.

(** [len(s.split())]: the number of maximal runs of non-space characters.
    [inw] tells whether the previous character belonged to a word. *)
Fixpoint count_words (inw : bool) (s : text) : nat :=
  match s with
  | [] => 0%nat
  | c :: s' =>
    if is_space c then count_words false s'
    else ((if inw then 0 else 1) + count_words true s')%nat
  end.

(** [s.isdecimal()]: a non-empty run of decimal digits, which is what
    [int(s)] accepts of the captures it is given. *)
Definition isdecimal (s : text) : bool :=
  match s with
  | [] => false
  | _ => forallb is_digit s
  end.

(** [s.isdigit()] *)
Definition isdigit (s : text) : bool :=
  match s with
  | [] => false
  | _ => forallb is_digit_like s
  end.

(** [s.zfill(w)]; a leading sign stays in front of the padding. *)
Definition zfill (w : nat) (s : text) : text :=
  let pad := repeat (ch "0") (w - length s)%nat in
  match s with
  | c :: s' => if (c =? ch "+")%N || (c =? ch "-")%N then c :: pad ++ s' else pad ++ s
  | [] => pad
  end.

End Text.
Import Text.

(* ===================================================================== *)
(** ** Regular expressions (the part of [re] the extractors use) *)
(* ===================================================================== *)

Module Re.

(** An item of a bracketed set; [\d], [\s] and [\w] outside brackets are
    one-item sets. *)
Inductive citem : Type :=
| CChar (c : char)
| CRange (lo hi : char)
| CDigit
| CSpace
| CWord.

Inductive regex : Type :=
| REmpty
| RChar (c : char)
| RAny
| RSet (neg : bool) (items : list citem)
| RBol
| REol
| RSeq (r1 r2 : regex)
| RAlt (r1 r2 : regex)
| RRep (lo : nat) (hi : option nat) (r : regex)
| RGroup (i : nat) (r : regex)
| RNegLook (r : regex).

(** Captures, most recent binding first. *)
Definition caps := list (nat * text).

Fixpoint get (i : nat) (c : caps) : option text :=
  match c with
  | [] => None
  | (j, s) :: c' => if Nat.eqb i j then Some s else get i c'
  end.

(** *** Matching one character *)

Definition char_match (icase : bool) (p x : char) : bool :=
  if icase then (lower_char x =? lower_char p)%N else (x =? p)%N.

Definition item_match (icase : bool) (it : citem) (x : char) : bool :=
  match it with
  | CChar p => char_match icase p x
  | CRange lo hi =>
    in_range lo hi x
    || (icase && (in_range lo hi (lower_char x) || in_range lo hi (upper_char x)))
  | CDigit => is_digit x
  | CSpace => is_space x
  | CWord => is_word x
  end.

Definition set_match (icase neg : bool) (items : list citem) (x : char) : bool :=
  xorb neg (existsb (fun it => item_match icase it x) items).

(** *** The backtracking matcher

    [m n0 icase r k s c] matches [r] at the front of [s] and hands what is
    left, with the captures, to the continuation [k]; when [k] fails the next
    alternative is tried.  [n0] is the length of the whole subject, so that
    [length s = n0] exactly at its start. *)

Definition result := (text * caps)%type.
Definition cont := text -> caps -> option result.

Fixpoint rep (step : cont -> cont) (k : cont) (fuel lo : nat) : cont :=
  fun s c =>
  match fuel with
  | O => if Nat.eqb lo 0 then k s c else None
  | S f =>
    match step (rep step k f (pred lo)) s c with
    | Some x => Some x
    | None => if Nat.eqb lo 0 then k s c else None
    end
  end.

Definition one (p : char -> bool) (k : cont) : cont :=
  fun s c =>
  match s with
  | x :: s' => if p x then k s' c else None
  | [] => None
  end.

Fixpoint m (n0 : nat) (icase : bool) (r : regex) (k : cont) {struct r} : cont :=
  match r with
  | REmpty => k
  | RChar p => one (char_match icase p) k
  | RAny => one (fun x => negb (x =? 10)%N) k
  | RSet neg items => one (set_match icase neg items) k
  | RBol => fun s c => if Nat.eqb (length s) n0 then k s c else None
  | REol => fun s c =>
    match s with
    | [] => k s c
    | [x] => if (x =? 10)%N then k s c else None
    | _ => None
    end
  | RSeq r1 r2 => m n0 icase r1 (m n0 icase r2 k)
  | RAlt r1 r2 => fun s c =>
    match m n0 icase r1 k s c with
    | Some x => Some x
    | None => m n0 icase r2 k s c
    end
  | RRep lo hi r' => fun s c =>
    rep (m n0 icase r') k
        (match hi with Some h => h | None => lo + length s end) lo s c
  | RGroup i r' => fun s c =>
    m n0 icase r'
      (fun s' c' => k s' ((i, firstn (length s - length s') s) :: c')) s c
  | RNegLook r' => fun s c =>
    match m n0 icase r' (fun s' c' => Some (s', c')) s c with
    | Some _ => None
    | None => k s c
    end
  end.

Definition k0 : cont := fun s c => Some (s, c).

(** A match object: where the match starts, the matched text and the
    captures. *)
Record rmatch : Type := mkmatch {
  m_start : nat;
  m_text : text;
  m_caps : caps
}.

Definition m_end (mo : rmatch) : nat := m_start mo + length (m_text mo).

(** [mo.group(i)] for [i >= 1]; [None] is Python's [None]. *)
Definition group (i : nat) (mo : rmatch) : option text := get i (m_caps mo).

(** [re.match]-like attempt at the current position [pos] of a subject of
    length [n0]. *)
Definition match_at (n0 : nat) (icase : bool) (r : regex) (pos : nat) (s : text)
  : option rmatch :=
  match m n0 icase r k0 s [] with
  | Some (s', c) => Some (mkmatch pos (firstn (length s - length s') s) c)
  | None => None
  end.

(** Leftmost match at or after the current position. *)
Fixpoint search_at (n0 : nat) (icase : bool) (r : regex) (pos : nat) (s : text)
  : option rmatch :=
  match match_at n0 icase r pos s with
  | Some mo => Some mo
  | None =>
    match s with
    | [] => None
    | _ :: s' => search_at n0 icase r (S pos) s'
    end
  end.

(** [re.search(r, s)] and [re.match(r, s)] *)
Definition search (icase : bool) (r : regex) (s : text) : option rmatch :=
  search_at (length s) icase r 0 s.

Definition rematch (icase : bool) (r : regex) (s : text) : option rmatch :=
  match_at (length s) icase r 0 s.

(** [re.finditer(r, s)]: successive non-overlapping matches, left to right.
    After an empty match the scan moves on by one character (no pattern the
    extractors iterate with can match the empty string). *)
Fixpoint finditer_at (fuel n0 : nat) (icase : bool) (r : regex) (pos : nat)
  (s : text) : list rmatch :=
  match fuel with
  | O => []
  | S f =>
    match search_at n0 icase r pos s with
    | None => []
    | Some mo =>
      let step := m_end mo - pos + (match m_text mo with [] => 1 | _ => 0 end) in
      mo :: (if Nat.ltb (length s) step then []
             else finditer_at f n0 icase r (pos + step) (skipn step s))
    end
  end.

Definition finditer (icase : bool) (r : regex) (s : text) : list rmatch :=
  finditer_at (S (length s)) (length s) icase r 0 s.

(** [re.sub(r, '', s)]: the subject with every match removed. *)
Fixpoint remove_at (fuel n0 : nat) (icase : bool) (r : regex) (s : text) : text :=
  match fuel with
  | O => s
  | S f =>
    match match_at n0 icase r 0 s with
    | Some mo =>
      match m_text mo, s with
      | [], x :: s' => x :: remove_at f n0 icase r s'
      | [], [] => []
      | _ :: _, _ => remove_at f n0 icase r (skipn (length (m_text mo)) s)
      end
    | None =>
      match s with
      | x :: s' => x :: remove_at f n0 icase r s'
      | [] => []
      end
    end
  end.

Definition sub_empty (icase : bool) (r : regex) (s : text) : text :=
  remove_at (S (length s)) (length s) icase r s.

(** The number of capturing groups, and [mo.groups()]. *)
Fixpoint ngroups (r : regex) : nat :=
  match r with
  | RSeq r1 r2 | RAlt r1 r2 => ngroups r1 + ngroups r2
  | RRep _ _ r' | RNegLook r' => ngroups r'
  | RGroup _ r' => S (ngroups r')
  | _ => 0
  end.

Definition groups (r : regex) (mo : rmatch) : list (option text) :=
  map (fun i => group i mo) (seq 1 (ngroups r)).

(** *** Parsing a pattern string

    The grammar covers what the patterns of the source use: literals,
    [.], [^], [$], escapes, bracketed sets with ranges and classes, groups
    [( )], [(?: )], negative look-ahead [(?! )], alternation and the greedy
    quantifiers [*], [+], [?], [{n}], [{n,}], [{n,m}]. *)

Definition isc (c : char) (a : ascii) : bool := (c =? ch a)%N.

Fixpoint read_nat (s : text) (acc : option nat) : option nat * text :=
  match s with
  | c :: s' =>
    if is_ascii_digit c
    then read_nat s' (Some (10 * match acc with Some a => a | None => 0 end
                            + N.to_nat (c - 48)))
    else (acc, s)
  | [] => (acc, [])
  end.

Definition parse_quant (a : regex) (s : text) : option (regex * text) :=
  match s with
  | c :: s1 =>
    if isc c "*" then Some (RRep 0 None a, s1)
    else if isc c "+" then Some (RRep 1 None a, s1)
    else if isc c "?" then Some (RRep 0 (Some 1) a, s1)
    else if isc c "{" then
      match read_nat s1 None with
      | (Some lo, c2 :: s2) =>
        if isc c2 "}" then Some (RRep lo (Some lo) a, s2)
        else if isc c2 "," then
          match read_nat s2 None with
          | (hi, c3 :: s3) => if isc c3 "}" then Some (RRep lo hi a, s3) else None
          | _ => None
          end
        else None
      | _ => None
      end
    else Some (a, s)
  | [] => Some (a, [])
  end.

Definition class_item (e : char) : citem :=
  if isc e "d" then CDigit
  else if isc e "s" then CSpace
  else if isc e "w" then CWord
  else CChar e.

Fixpoint parse_items (s : text) : option (list citem * text) :=
  match s with
  | [] => None
  | c :: s1 =>
    if isc c "]" then Some ([], s1)
    else if isc c "\" then
      match s1 with
      | e :: s2 =>
        match parse_items s2 with
        | Some (its, rest) => Some (class_item e :: its, rest)
        | None => None
        end
      | [] => None
      end
    else
      match s1 with
      | d :: e :: s3 =>
        if isc d "-" && negb (isc e "]") then
          match parse_items s3 with
          | Some (its, rest) => Some (CRange c e :: its, rest)
          | None => None
          end
        else
          match parse_items s1 with
          | Some (its, rest) => Some (CChar c :: its, rest)
          | None => None
          end
      | _ =>
        match parse_items s1 with
        | Some (its, rest) => Some (CChar c :: its, rest)
        | None => None
        end
      end
  end.

Definition parse_set (s : text) : option (regex * text) :=
  match s with
  | c :: s1 =>
    if isc c "^" then
      match parse_items s1 with
      | Some (its, rest) => Some (RSet true its, rest)
      | None => None
      end
    else
      match parse_items s with
      | Some (its, rest) => Some (RSet false its, rest)
      | None => None
      end
  | [] => None
  end.

Definition close (p : option (regex * text * nat)) (wrap : regex -> regex)
  : option (regex * text * nat) :=
  match p with
  | Some (r, c :: rest, g) => if isc c ")" then Some (wrap r, rest, g) else None
  | _ => None
  end.

(** [g] is the number of capturing groups opened so far: groups are
    numbered by their opening parenthesis. *)
Fixpoint parse_alt (fuel : nat) (s : text) (g : nat) : option (regex * text * nat) :=
  match fuel with
  | O => None
  | S f =>
    match parse_seq f s g with
    | Some (r1, c :: s1, g1) =>
      if isc c "|" then
        match parse_alt f s1 g1 with
        | Some (r2, s2, g2) => Some (RAlt r1 r2, s2, g2)
        | None => None
        end
      else Some (r1, c :: s1, g1)
    | other => other
    end
  end
with parse_seq (fuel : nat) (s : text) (g : nat) : option (regex * text * nat) :=
  match fuel with
  | O => None
  | S f =>
    match s with
    | [] => Some (REmpty, [], g)
    | c :: _ =>
      if isc c "|" || isc c ")" then Some (REmpty, s, g)
      else
        match parse_atom f s g with
        | Some (a, s1, g1) =>
          match parse_quant a s1 with
          | Some (q, s2) =>
            match parse_seq f s2 g1 with
            | Some (r, s3, g3) => Some (RSeq q r, s3, g3)
            | None => None
            end
          | None => None
          end
        | None => None
        end
    end
  end
with parse_atom (fuel : nat) (s : text) (g : nat) : option (regex * text * nat) :=
  match fuel with
  | O => None
  | S f =>
    match s with
    | [] => None
    | c :: s1 =>
      if isc c "(" then
        match s1 with
        | q :: x :: s3 =>
          if isc q "?" && isc x ":" then close (parse_alt f s3 g) (fun r => r)
          else if isc q "?" && isc x "!" then close (parse_alt f s3 g) RNegLook
          else if isc q "?" then None
          else close (parse_alt f s1 (S g)) (RGroup (S g))
        | _ => close (parse_alt f s1 (S g)) (RGroup (S g))
        end
      else if isc c "[" then
        match parse_set s1 with
        | Some (r, rest) => Some (r, rest, g)
        | None => None
        end
      else if isc c "\" then
        match s1 with
        | e :: s2 =>
          Some (match class_item e with
                | CChar x => RChar x
                | it => RSet false [it]
                end, s2, g)
        | [] => None
        end
      else if isc c "." then Some (RAny, s1, g)
      else if isc c "^" then Some (RBol, s1, g)
      else if isc c "$" then Some (REol, s1, g)
      else if isc c "*" || isc c "+" || isc c "?" then None
      else Some (RChar c, s1, g)
    end
  end.

(** A regex that matches nothing, for a pattern that does not parse. *)
Definition RFail : regex := RSet false [].

(** [re.compile(p)] *)
Definition compile (p : string) : regex :=
  let s := str p in
  match parse_alt (3 * S (length s)) s 0 with
  | Some (r, [], _) => r
  | _ => RFail
  end.

End Re.
Import Re.

(* ===================================================================== *)
(** ** Numbers *)
(* ===================================================================== *)

Module Num.

Fixpoint digits_val (s : text) (acc : Z) : Z :=
  match s with
  | [] => acc
  | c :: s' => digits_val s' (10 * acc + Z.of_N (digit_value c))%Z
  end.

(** [int(s)] on what the extractors pass: a run of decimal digits.
    [None] is [ValueError]. *)
Definition int_of_text (s : text) : option Z :=
  if isdecimal s then Some (digits_val s 0) else None.

(** The binary64 number nearest to [p / q] (ties to even), for [p >= 0] and
    [q > 0].  The quotient is computed to at least 54 bits with the rest of
    the division kept as a sticky bit, then rounded once. *)
Definition float_of_ratio (p q : Z) : float :=
  if (p =? 0)%Z then 0%float
  else
    let e := (Z.log2 p - Z.log2 q - 55)%Z in
    let num := if (e <? 0)%Z then (p * 2 ^ (- e))%Z else p in
    let den := if (e <? 0)%Z then q else (q * 2 ^ e)%Z in
    let sticky := if (num mod den =? 0)%Z then 0%Z else 1%Z in
    SF2Prim (binary_normalize prec emax (2 * (num / den) + sticky) (e - 1) false).

Fixpoint span_digits (s : text) : text * text :=
  match s with
  | c :: s' =>
    if is_digit c then let (a, b) := span_digits s' in (c :: a, b) else ([], s)
  | [] => ([], [])
  end.

(** [float(s)] on what the extractors pass: an unsigned decimal literal,
    digits with at most one point and at least one digit.  [None] is
    [ValueError]. *)
Definition parse_float (s : text) : option float :=
  let (ip, rest) := span_digits s in
  match rest with
  | [] =>
    match ip with
    | [] => None
    | _ => Some (float_of_ratio (digits_val ip 0) 1)
    end
  | c :: fp =>
    if (c =? ch ".")%N && forallb is_digit fp
       && negb (Nat.eqb (length ip + length fp) 0)
    then Some (float_of_ratio (digits_val (ip ++ fp) 0) (10 ^ Z.of_nat (length fp)))
    else None
  end.

(** [x.is_integer()] *)
Definition is_integer (x : float) : bool :=
  match Prim2SF x with
  | S754_zero _ => true
  | S754_finite _ mant e =>
    (0 <=? e)%Z || (Z.land (Zpos mant) (2 ^ (- e) - 1) =? 0)%Z
  | _ => false
  end.

End Num.
Import Num.

(* ===================================================================== *)
(** ** Loops and sorting *)
(* ===================================================================== *)

(** [for x in l: ... return v]: the value of the first iteration that
    returns. *)
Fixpoint first_some {A B : Type} (f : A -> option B) (l : list A) : option B :=
  match l with
  | [] => None
  | x :: l' =>
    match f x with
    | Some b => Some b
    | None => first_some f l'
    end
  end.

(** [l.sort(key=..., reverse=True)]: stable, by descending key.  [lt x y]
    compares the keys; an element goes in front of the first one whose key
    is not greater than its own, so equal keys keep their order. *)
Section Sort.
Context {A : Type} (lt : A -> A -> bool).

Fixpoint insert_desc (x : A) (l : list A) : list A :=
  match l with
  | [] => [x]
  | y :: l' => if lt x y then y :: insert_desc x l' else x :: l
  end.

Fixpoint sort_desc (l : list A) : list A :=
  match l with
  | [] => []
  | x :: l' => insert_desc x (sort_desc l')
  end.
End Sort.

(* ===================================================================== *)
(** ** Fusion of the detections: [extract_receipt_data] *)
(* ===================================================================== *)

(** An entry of [ocr_results]; its bounding box is never read. *)
Record detection : Type := mkdet {
  d_text : text;
  d_confidence : Q;
  d_variant : text
}.

(** An entry of [normalized_results].  The source also stores
    [normalize_text(text)] in it, which no extractor reads. *)
Record line : Type := mkline {
  l_text : text;
  l_confidence : Q;
  l_variant : text
}.

Definition normalize_result (d : detection) : option line :=
  let t := strip (d_text d) in
  match t with
  | [] => None
  | _ => if Nat.ltb (length t) 2 then None
         else Some (mkline t (d_confidence d) (d_variant d))
  end.

Fixpoint normalize_results (ds : list detection) : list line :=
  match ds with
  | [] => []
  | d :: ds' =>
    match normalize_result d with
    | Some l => l :: normalize_results ds'
    | None => normalize_results ds'
    end
  end.

Definition conf_lt (a b : line) : bool :=
  negb (Qle_bool (l_confidence b) (l_confidence a)).

Definition seen (t : text) (s : list text) : bool := existsb (text_eqb t) s.

Fixpoint deduplicate (seen_texts : list text) (l : list line) : list line :=
  match l with
  | [] => []
  | r :: l' =>
    if seen (l_text r) seen_texts then deduplicate seen_texts l'
    else r :: deduplicate (l_text r :: seen_texts) l'
  end.

Definition deduplicated_results (ds : list detection) : list line :=
  deduplicate [] (sort_desc conf_lt (normalize_results ds)).

(* ===================================================================== *)
(** ** Title: [extract_title_enhanced] *)
(* ===================================================================== *)

Definition title_patterns : list regex := Eval vm_compute in
  [ compile "(?:title|merchant|store|vendor|name)[:.\s-]+(.+)";
    compile "^((?!date|amount|total|invoice|receipt).{3,30})$";
    compile "^([A-Z][a-z]+(?: [A-Z][a-z]+){1,3})$" ].

Definition title_prefix_re : regex := Eval vm_compute in
  compile "^(title|merchant|store|name)\s*[:.-]?\s*".

(** The body of the inner loop of the first pass.  [Some None] is
    [continue], [Some (Some t)] is [return t], and [None] is the
    [AttributeError] of [match.group(1).strip()] on an unset group. *)
Definition title_try (t : text) (p : regex) : option (option text) :=
  match search true p t with
  | None => Some None
  | Some mo =>
    match group 1 mo with
    | None => None
    | Some g =>
      let extracted_title := strip g in
      let cleaned_title := sub_empty true title_prefix_re extracted_title in
      if Nat.eqb (count_words false cleaned_title) 1
         && Nat.ltb (length cleaned_title) 4
      then Some None
      else Some (Some cleaned_title)
    end
  end.

(** A loop whose body may continue, return or raise. *)
Fixpoint first_raising {A B : Type} (f : A -> option (option B)) (l : list A)
  : option (option B) :=
  match l with
  | [] => Some None
  | x :: l' =>
    match f x with
    | None => None
    | Some (Some b) => Some (Some b)
    | Some None => first_raising f l'
    end
  end.

Definition title_first_pass (rs : list line) : option (option text) :=
  first_raising
    (fun res => first_raising (title_try (strip (l_text res))) title_patterns)
    rs.

Definition structural_re : regex := Eval vm_compute in
  compile "(?:date|amount|total|invoice|receipt|bill|tax|payment|customer)".
Definition proper_name_re : regex := Eval vm_compute in
  compile "^[A-Z][a-z]+(?:\s+[A-Z][a-z]+){0,3}$".
Definition business_re : regex := Eval vm_compute in
  compile "(?:LLC|Inc|Corp|Shop|Store|Restaurant|Cafe|Hotel)".
Definition date_like_re : regex := Eval vm_compute in
  compile "\d{1,2}[/.-]\d{1,2}".
Definition amount_like_re : regex := Eval vm_compute in
  compile "[$€£¥₹]\s*\d+".

Definition is_some {A : Type} (o : option A) : bool :=
  match o with Some _ => true | None => false end.

Record name_candidate : Type := mkname {
  n_text : text;
  n_score : float;
  n_kind : text
}.

Definition name_lt (a b : name_candidate) : bool :=
  PrimFloat.ltb (n_score a) (n_score b).

(** One iteration of the second pass over [merchant_name_candidates]. *)
Definition name_step (cands : list name_candidate) (res : line)
  : list name_candidate :=
  let t := strip (l_text res) in
  if Nat.ltb (length t) 3 then cands
  else if is_some (search true structural_re t) then cands
  else if is_some (rematch false proper_name_re t)
  then cands ++ [mkname t 0.8 (str "proper name")]
  else if is_some (search true business_re t)
  then cands ++ [mkname t 0.7 (str "business name")]
  else
    match cands with
    | [] =>
      if negb (is_some (search false date_like_re t))
         && negb (is_some (search false amount_like_re t))
      then cands ++ [mkname t 0.5 (str "first line")]
      else cands
    | _ => cands
    end.

Definition merchant_name_candidates (rs : list line) : list name_candidate :=
  fold_left name_step rs [].

Definition first_meaningful (res : line) : option text :=
  let t := strip (l_text res) in
  if Nat.leb 3 (length t) && negb (isdigit t) then Some t else None.

Definition untitled : text := str "Untitled Receipt".

(** [None] is an exception leaving the function. *)
Definition extract_title_enhanced (rs : list line) : option text :=
  match title_first_pass rs with
  | None => None
  | Some (Some t) => Some t
  | Some None =>
    match sort_desc name_lt (merchant_name_candidates rs) with
    | best_candidate :: _ => Some (n_text best_candidate)
    | [] =>
      match first_some first_meaningful rs with
      | Some t => Some t
      | None => Some untitled
      end
    end
  end.

(* ===================================================================== *)
(** ** Date: [extract_date_enhanced] *)
(* ===================================================================== *)

Definition date_dmy_re : regex := Eval vm_compute in
  compile "(\d{1,2})[/.-](\d{1,2})[/.-](20\d{2})".

Definition date_patterns : list regex := Eval vm_compute in
  [ compile "(\d{1,2})[/.-](\d{1,2})[/.-](20\d{2})";
    compile "(\d{2})[/.-](\d{1,2})[/.-](\d{4})";
    compile "(\d{1})[/.-](\d{1,2})[/.-](\d{4})";
    compile "(?:date|dt)[:.\s-]+(\d{1,2})[/.-](\d{1,2})[/.-](\d{2,4})";
    compile "(?:date|dt)[:.\s-]+(\d{1,2}[\s]*(?:jan|feb|mar|apr|may|jun|jul|aug|sep|oct|nov|dec)[a-z]*[\s,]*\d{2,4})";
    compile "(\d{1,2})[/.-](\d{1,2})[/.-](\d{2})";
    compile "(\d{4})[/.-](\d{1,2})[/.-](\d{1,2})";
    compile "(\d{1,2})[\s]*(?:jan|feb|mar|apr|may|jun|jul|aug|sep|oct|nov|dec)[a-z]*[\s,]*(\d{2,4})";
    compile "(?:jan|feb|mar|apr|may|jun|jul|aug|sep|oct|nov|dec)[a-z]*[\s]*(\d{1,2})[\s,]*(\d{2,4})" ].

Definition month_map : list (text * text) := Eval vm_compute in
  [ (str "jan", str "01"); (str "feb", str "02"); (str "mar", str "03");
    (str "apr", str "04"); (str "may", str "05"); (str "jun", str "06");
    (str "jul", str "07"); (str "aug", str "08"); (str "sep", str "09");
    (str "oct", str "10"); (str "nov", str "11"); (str "dec", str "12") ].

Definition two_digits_re : regex := Eval vm_compute in compile "\d{1,2}".

Definition slash : text := [ch "/"].

(** [f"{month.zfill(2)}/{day.zfill(2)}/{year}"] *)
Definition format_date (month day year : text) : text :=
  zfill 2 month ++ slash ++ zfill 2 day ++ slash ++ year.

(** [re.findall(r, s)] for a pattern with several groups: one tuple of
    groups per match, an unset group being the empty string. *)
Definition findall (icase : bool) (r : regex) (s : text) : list (list text) :=
  map (fun mo => map (fun g => match g with Some x => x | None => [] end)
                     (groups r mo))
      (finditer icase r s).

(** First loop: lines that say "date". *)
Definition date_labelled (res : line) : option text :=
  let t := strip (l_text res) in
  if contains (str "date") (lower t) then
    match findall false date_dmy_re t with
    | [day; month; year] :: _ =>
      match int_of_text day with
      | Some d =>
        if (12 <? d)%Z && (d <=? 31)%Z then Some (format_date month day year)
        else None
      | None => None
      end
    | _ => None
    end
  else None.

(** Second loop: the pattern anywhere, with or without a label. *)
Definition date_direct (res : line) : option text :=
  let t := strip (l_text res) in
  match search false date_dmy_re t with
  | Some mo =>
    match groups date_dmy_re mo with
    | [Some day; Some month; Some year] =>
      match int_of_text day with
      | Some d =>
        if (12 <? d)%Z && (d <=? 31)%Z then
          match int_of_text month with
          | Some mth =>
            if (mth <=? 12)%Z then Some (format_date month day year)
            else Some (format_date day month year)
          | None => None
          end
        else Some (format_date day month year)
      | None => None
      end
    | _ => None
    end
  | None => None
  end.

(** Third loop ("force check"). *)
Definition date_forced (res : line) : option text :=
  let t := strip (l_text res) in
  match search false date_dmy_re t with
  | Some mo =>
    match groups date_dmy_re mo with
    | [Some d; Some mth; Some y] => Some (format_date mth d y)
    | _ => None
    end
  | None => None
  end.

(** "Ensure 4-digit year". *)
Definition expand_year (year : text) : option text :=
  if Nat.eqb (length year) 2 then
    match int_of_text year with
    | Some y => Some ((if (y <? 50)%Z then str "20" else str "19") ++ year)
    | None => None
    end
  else Some year.

(** Fourth loop, one pattern on one line; [None] is "go on with the next
    pattern", by [continue] or by the handler of the [try]. *)
Definition date_by_pattern (t : text) (p : regex) : option text :=
  match search true p t with
  | None => None
  | Some mo =>
    match groups p mo with
    | [Some part1; Some part2; Some part3] =>
      match int_of_text part1 with
      | None => None
      | Some p1 =>
        let european :=
          if (12 <? p1)%Z && (p1 <=? 31)%Z then
            match int_of_text part2 with
            | Some p2 => Some (p2 <=? 12)%Z
            | None => None
            end
          else Some false in
        match european with
        | None => None
        | Some eu =>
          let '(month, day) := if eu then (part2, part1) else (part1, part2) in
          match expand_year part3 with
          | Some year => Some (format_date month day year)
          | None => None
          end
        end
      end
    | [Some g0; Some g1] =>
      match find (fun kv : text * text => contains (fst kv) (lower t)) month_map with
      | Some (_, month) =>
        let day := if is_some (rematch false two_digits_re g0) then g0 else g1 in
        let year := if Nat.leb 2 (length g1) then g1 else g0 in
        match expand_year year with
        | Some year' => Some (month ++ slash ++ zfill 2 day ++ slash ++ year')
        | None => None
        end
      | None => None
      end
    | _ => None
    end
  end.

Definition date_patterned (res : line) : option text :=
  first_some (date_by_pattern (strip (l_text res))) date_patterns.

(** Last loop: every match of every line, the first one used. *)
Definition direct_matches (rs : list line) : list (list text) :=
  flat_map (fun res => findall false date_dmy_re (strip (l_text res))) rs.

Definition extract_date_enhanced (rs : list line) : text :=
  match first_some date_labelled rs with
  | Some d => d
  | None =>
  match first_some date_direct rs with
  | Some d => d
  | None =>
  match first_some date_forced rs with
  | Some d => d
  | None =>
  match first_some date_patterned rs with
  | Some d => d
  | None =>
    match direct_matches rs with
    | [day; month; year] :: _ => format_date month day year
    | _ => []
    end
  end end end end.

(* ===================================================================== *)
(** ** Amount and currency: [extract_amount_enhanced] *)
(* ===================================================================== *)

Inductive currency : Type := USD | EUR | GBP | JPY | INR | UNKNOWN.

Definition currency_map : list (text * currency) := Eval vm_compute in
  [ (str "$", USD); (str "€", EUR); (str "£", GBP); (str "¥", JPY);
    (str "₹", INR); (str "rs", INR); (str "rupees", INR) ].

Fixpoint lookup {V : Type} (k : text) (l : list (text * V)) : option V :=
  match l with
  | [] => None
  | (k', v) :: l' => if text_eqb k k' then Some v else lookup k l'
  end.

(** The table of [(pattern, score)] pairs, in the order of the source. *)
Definition currency_patterns : list (regex * float) := Eval vm_compute in
  [ (compile "(?:amount|total|sum|price|cost|fee)[:\s.-]*([₹$€£¥])\s*(\d+(?:[.,]\d{1,2})?)", 0.9%float);
    (compile "(?:amount|total|sum|price|cost|fee)[:\s.-]*(\d+(?:[.,]\d{1,2})?)\s*([₹$€£¥])", 0.9%float);
    (compile "(?:amount|total|sum|price|cost|fee)[:\s.-]*([Rr][Ss]\.?|[Rr]upees?\.?)\s*(\d+(?:[.,]\d{1,2})?)", 0.9%float);
    (compile "(?:amount|total|sum|price|cost|fee)[:\s.-]*[Ss]\s*(\d+(?:[.,]\d{1,2})?)", 0.95%float);
    (compile "[Ss]\s*(\d+(?:[.,]\d{1,2})?)", 0.8%float);
    (compile "amount[^0-9]*(\d+)", 0.9%float);
    (compile "total[^0-9]*(\d+)", 0.9%float);
    (compile "sum[^0-9]*(\d+)", 0.9%float);
    (compile "(?:amount|total|sum|price|cost|fee)[:\s.-]*(\d+(?:[.,]\d{1,2})?)", 0.8%float);
    (compile "([₹$€£¥])\s*(\d+(?:[.,]\d{1,2})?)", 0.7%float);
    (compile "(\d+(?:[.,]\d{1,2})?)\s*([₹$€£¥])", 0.7%float);
    (compile "([Rr][Ss]\.?|[Rr]upees?\.?)\s*(\d+(?:[.,]\d{1,2})?)", 0.7%float);
    (compile "(\d+)(?:[.,](\d{2}))?", 0.5%float) ].

Definition amount_s_re : regex := Eval vm_compute in compile "amount\s*:?\s*s\s*\d+".
Definition amount_s_group_re : regex := Eval vm_compute in compile "amount\s*:?\s*s\s*(\d+)".
Definition amount_s_prefix_re : regex := Eval vm_compute in compile "amount\s*:?\s*s".
Definition leading_s_re : regex := Eval vm_compute in compile "^s\s*\d+".
Definition one_digit_re : regex := Eval vm_compute in compile "\d".
Definition not_numeric_re : regex := Eval vm_compute in compile "[^0-9.]".
Definition small_keyword_re : regex := Eval vm_compute in compile "amount|total|sum|price".
Definition rupee_word_re : regex := Eval vm_compute in compile "[Rr][Ss]\.?|[Rr]upees?".
Definition plain_number_re : regex := Eval vm_compute in compile "^\d+$".

(** An entry of [amount_candidates]. *)
Record candidate : Type := mkcand {
  c_amount : float;
  c_currency : currency;
  c_text : text;
  c_confidence : float
}.

(** First loop: "Amount: S92", the dollar sign read as the letter S.
    [None] is an exception leaving the function: [float(None)] is a
    [TypeError], which the handler for [ValueError] lets through. *)
Definition confusion_step (res : line) : option (list candidate) :=
  let t := strip (l_text res) in
  if is_some (search false amount_s_re (lower t)) then
    match search false amount_s_group_re (lower t) with
    | Some amount_match =>
      match group 1 amount_match with
      | None => None
      | Some amount_str =>
        match parse_float amount_str with
        | Some amount => Some [mkcand amount USD t 0.95]
        | None => Some []
        end
      end
    | None => Some []
    end
  else Some [].

Fixpoint confusion_candidates (rs : list line) : option (list candidate) :=
  match rs with
  | [] => Some []
  | res :: rs' =>
    match confusion_step res, confusion_candidates rs' with
    | Some a, Some b => Some (a ++ b)
    | _, _ => None
    end
  end.

(** [amount_str.replace(',', '.')] *)
Definition comma_to_point (s : text) : text :=
  map (fun c => if (c =? ch ",")%N then ch "." else c) s.

(** "Skip likely dates and small values": [true] when the parsed value is
    kept. *)
Definition likely_year (amount : float) : bool :=
  PrimFloat.leb 1900 amount && PrimFloat.leb amount 2100 && is_integer amount.

Definition small_value (amount : float) (t : text) : bool :=
  PrimFloat.ltb amount 1 && negb (is_some (search false small_keyword_re (lower t))).

Definition passes_filter (amount : float) (t : text) : bool :=
  negb (likely_year amount) && negb (small_value amount t).

(** "Determine currency" *)
Definition resolve_currency (t : text) (currency_indicator : option text) : currency :=
  if is_some (search false amount_s_prefix_re (lower t))
     || is_some (search false leading_s_re (lower t))
  then USD
  else
    match currency_indicator with
    | Some ci =>
      match lookup (lower ci) currency_map with
      | Some code => code
      | None => if is_some (rematch false rupee_word_re ci) then INR else UNKNOWN
      end
    | None => UNKNOWN
    end.

(** "Boost score if amount appears with specific labels" *)
Definition boost (score : float) (t : text) : float :=
  let c1 := if contains (str "total") (lower t) then (score + 0.1)%float else score in
  let c2 := if contains (str "amount") (lower t) then (c1 + 0.1)%float else c1 in
  if contains (str "price") (lower t) then (c2 + 0.1)%float else c2.

Definition same_amount (a b : float) : bool :=
  PrimFloat.ltb (PrimFloat.abs (a - b)%float) 0.01.

(** "Check for duplicate amounts": the first candidate with the same amount
    takes the score and the text of a better match and ends the scan; when
    there is none the new candidate goes to the end of the list. *)
Fixpoint merge (cands : list candidate) (amount : float) (code : currency)
  (t : text) (confidence : float) : list candidate :=
  match cands with
  | [] => [mkcand amount code t confidence]
  | c :: rest =>
    if same_amount (c_amount c) amount then
      (if PrimFloat.ltb (c_confidence c) confidence
       then mkcand (c_amount c) (c_currency c) t confidence
       else c) :: rest
    else c :: merge rest amount code t confidence
  end.

Definition nonempty (o : option text) : option text :=
  match o with
  | Some (_ :: _) => o
  | _ => None
  end.

(** Which group is the amount and which the currency.  [None] is the
    [TypeError] of [re.match] on an unset group, which the handler turns
    into [continue]. *)
Definition split_groups (gs : list (option text))
  : option (option text * option text) :=
  match gs with
  | g0 :: g1 :: _ =>
    match g0 with
    | None => None
    | Some s0 =>
      if is_some (rematch false one_digit_re s0)
      then Some (g0, nonempty g1)
      else Some (g1, nonempty g0)
    end
  | [g0] => Some (g0, None)
  | [] => None
  end.

(** The body of the innermost loop of the second pass: what one match of
    one pattern on one line does to [amount_candidates]. *)
Definition amount_step (t : text) (p : regex) (score : float)
  (cands : list candidate) (mo : rmatch) : list candidate :=
  match split_groups (groups p mo) with
  | Some (Some (c0 :: amount_str), currency_indicator) =>
    let cleaned := sub_empty false not_numeric_re (comma_to_point (c0 :: amount_str)) in
    match parse_float cleaned with
    | Some amount =>
      if passes_filter amount t
      then merge cands amount (resolve_currency t currency_indicator) t (boost score t)
      else cands
    | None => cands
    end
  | _ => cands
  end.

Definition amount_line (cands : list candidate) (res : line) : list candidate :=
  let t := strip (l_text res) in
  fold_left
    (fun acc (ps : regex * float) =>
       fold_left (amount_step t (fst ps) (snd ps)) (finditer true (fst ps) t) acc)
    currency_patterns cands.

Definition cand_lt (a b : candidate) : bool :=
  PrimFloat.ltb (c_confidence a) (c_confidence b).

Definition labelled (label : text) (c : candidate) : bool :=
  contains label (lower (c_text c)) && PrimFloat.leb 0.7 (c_confidence c).

(** "Pick the best one based on confidence and context" *)
Definition select (sorted : list candidate) : option candidate :=
  match find (labelled (str "total")) sorted with
  | Some c => Some c
  | None =>
    match find (labelled (str "amount")) sorted with
    | Some c => Some c
    | None => hd_error sorted
    end
  end.

(** "Check for any numbers as last resort" *)
Definition plain_number (res : line) : option float :=
  let t := strip (lower (l_text res)) in
  if is_some (search false plain_number_re t) then
    match parse_float t with
    | Some amount =>
      if PrimFloat.ltb 0 amount && PrimFloat.ltb amount 10000 then Some amount
      else None
    | None => None
    end
  else None.

(** All candidates after both passes; [None] is an escaping exception. *)
Definition amount_candidates (rs : list line) : option (list candidate) :=
  match confusion_candidates rs with
  | Some cands => Some (fold_left amount_line rs cands)
  | None => None
  end.

(** The candidate the selection settles on, when there is one. *)
Definition selected_candidate (rs : list line) : option candidate :=
  match amount_candidates rs with
  | Some cands => select (sort_desc cand_lt cands)
  | None => None
  end.

Record amount_data : Type := mkamount {
  a_value : float;
  a_currency : currency
}.

Definition extract_amount_enhanced (rs : list line) : option amount_data :=
  match amount_candidates rs with
  | None => None
  | Some cands =>
    match select (sort_desc cand_lt cands) with
    | Some c => Some (mkamount (c_amount c) (c_currency c))
    | None =>
      match first_some plain_number rs with
      | Some amount => Some (mkamount amount UNKNOWN)
      | None => Some (mkamount 0 UNKNOWN)
      end
    end
  end.

(* ===================================================================== *)
(** ** The record returned by [extract_receipt_data] *)
(* ===================================================================== *)

Record receipt : Type := mkreceipt {
  title : text;
  date : text;
  amount : float;
  currency_code : currency;
  raw_text : list text
}.

(** [None] is an exception leaving the pipeline. *)
Definition extract_receipt_data (ocr_results : list detection) : option receipt :=
  let rs := deduplicated_results ocr_results in
  match extract_title_enhanced rs, extract_amount_enhanced rs with
  | Some t, Some a =>
    Some (mkreceipt t (extract_date_enhanced rs) (a_value a) (a_currency a)
                    (map l_text rs))
  | _, _ => None
  end.

(** "Validate critical data", the step of [process_receipt] between
    [extract_receipt_data] and the response: an empty title becomes the
    placeholder, and an empty date is looked for once more in the raw
    detections. *)
Definition last_resort_date (res : detection) : option text :=
  match findall false date_dmy_re (strip (d_text res)) with
  | [day; month; year] :: _ => Some (format_date month day year)
  | _ => None
  end.

Definition validate_critical_data (ocr_results : list detection) (data : receipt)
  : receipt :=
  mkreceipt
    (match title data with
     | [] => untitled
     | _ => title data
     end)
    (match date data with
     | [] =>
       match first_some last_resort_date ocr_results with
       | Some d => d
       | None => []
       end
     | _ => date data
     end)
    (amount data) (currency_code data) (raw_text data).

(* ===================================================================== *)
(** ** What a match is: a declarative reading of the patterns *)
(* ===================================================================== *)

Module Sem.

(** [iter step n s c c']: [s] is [n] consecutive pieces, each related by
    [step], threading the captures from [c] to [c']. *)
Inductive iter (step : text -> caps -> caps -> Prop)
  : nat -> text -> caps -> caps -> Prop :=
| iter_O : forall c, iter step 0 [] c c
| iter_S : forall n s1 s2 c cm c',
    step s1 c cm -> iter step n s2 cm c' -> iter step (S n) (s1 ++ s2) c c'.

(** [sem icase r s c c']: [r] can match exactly [s], turning the captures
    [c] into [c'].  The zero-width assertions [^], [$] and [(?! )] are read
    as the empty match: [sem] says which texts a match may consume, not
    where it may stand. *)
Fixpoint sem (icase : bool) (r : regex) (s : text) (c c' : caps) : Prop :=
  match r with
  | REmpty | RBol | REol | RNegLook _ => s = [] /\ c' = c
  | RChar p => exists x, s = [x] /\ char_match icase p x = true /\ c' = c
  | RAny => exists x, s = [x] /\ negb (x =? 10)%N = true /\ c' = c
  | RSet neg items =>
    exists x, s = [x] /\ set_match icase neg items x = true /\ c' = c
  | RSeq r1 r2 =>
    exists s1 s2 cm, s = s1 ++ s2 /\ sem icase r1 s1 c cm /\ sem icase r2 s2 cm c'
  | RAlt r1 r2 => sem icase r1 s c c' \/ sem icase r2 s c c'
  | RRep lo hi r' =>
    exists n, lo <= n /\ match hi with Some h => n <= h | None => True end
              /\ iter (sem icase r') n s c c'
  | RGroup i r' => exists cm, sem icase r' s c cm /\ c' = (i, s) :: cm
  end.

(** The least number of characters a match consumes. *)
Fixpoint minlen (r : regex) : nat :=
  match r with
  | REmpty | RBol | REol | RNegLook _ => 0
  | RChar _ | RAny | RSet _ _ => 1
  | RSeq r1 r2 => minlen r1 + minlen r2
  | RAlt r1 r2 => Nat.min (minlen r1) (minlen r2)
  | RRep lo _ r' => lo * minlen r'
  | RGroup _ r' => minlen r'
  end.

(** Patterns for which the matcher is complete: no zero-width assertion,
    and no unbounded repetition of something that can be empty. *)
Fixpoint simple (r : regex) : bool :=
  match r with
  | REmpty | RChar _ | RAny | RSet _ _ => true
  | RBol | REol | RNegLook _ => false
  | RSeq r1 r2 | RAlt r1 r2 => simple r1 && simple r2
  | RRep _ (Some _) r' => simple r'
  | RRep _ None r' => simple r' && Nat.ltb 0 (minlen r')
  | RGroup _ r' => simple r'
  end.

(** Every match consumes at least one decimal digit. *)
Fixpoint needs_digit (r : regex) : bool :=
  match r with
  | RSet false [CDigit] => true
  | RSeq r1 r2 => needs_digit r1 || needs_digit r2
  | RAlt r1 r2 => needs_digit r1 && needs_digit r2
  | RRep lo _ r' => Nat.ltb 0 lo && needs_digit r'
  | RGroup _ r' => needs_digit r'
  | _ => false
  end.

(** Every match consumes decimal digits only. *)
Fixpoint only_digits (r : regex) : bool :=
  match r with
  | REmpty | RBol | REol | RNegLook _ => true
  | RChar p => is_digit p
  | RSet false [CDigit] => true
  | RSeq r1 r2 | RAlt r1 r2 => only_digits r1 && only_digits r2
  | RRep _ _ r' | RGroup _ r' => only_digits r'
  | _ => false
  end.

(** Group [i] is set by every match. *)
Fixpoint binds (i : nat) (r : regex) : bool :=
  match r with
  | RSeq r1 r2 => binds i r1 || binds i r2
  | RAlt r1 r2 => binds i r1 && binds i r2
  | RRep lo _ r' => Nat.ltb 0 lo && binds i r'
  | RGroup j r' => Nat.eqb i j || binds i r'
  | _ => false
  end.

(** Every group captures a non-empty run of digits. *)
Fixpoint digit_groups (r : regex) : bool :=
  match r with
  | RSeq r1 r2 | RAlt r1 r2 => digit_groups r1 && digit_groups r2
  | RRep _ _ r' => digit_groups r'
  | RGroup _ r' => only_digits r' && Nat.ltb 0 (minlen r') && digit_groups r'
  | _ => true
  end.

(** The pattern that matches the literal text [p]. *)
Fixpoint lit (p : text) : regex :=
  match p with
  | [] => REmpty
  | x :: p' => RSeq (RChar x) (lit p')
  end.

(** Every capture is a non-empty run of digits. *)
Definition digit_caps (c : caps) : Prop :=
  forall i t, get i c = Some t -> isdecimal t = true.

End Sem.
Import Sem.

(* ===================================================================== *)
(** ** The statements of the specification, for comparison *)
(* ===================================================================== *)

(** The value of a run of digits, [int(s)] when it is defined. *)
Definition num (s : text) : Z := digits_val s 0.

(** The numeric triple [(a, b, year)] that the date pattern
    [D[/.-]M[/.-]YYYY] yields on a line: the groups of its leftmost match. *)
Definition date_triple (res : line) : option (text * text * text) :=
  match search false date_dmy_re (strip (l_text res)) with
  | Some mo =>
    match groups date_dmy_re mo with
    | [Some a; Some b; Some y] => Some (a, b, y)
    | _ => None
    end
  | None => None
  end.

(** The line carries the label "date". *)
Definition has_date_label (res : line) : bool :=
  contains (str "date") (lower (strip (l_text res))).

(** The rule of the specification (section 4.4): "if a > 12 and a <= 31,
    treat a as day and b as month; otherwise default to a = month,
    b = day", the same with or without a label. *)
Definition spec_date_rule (a b year : text) : text :=
  if (12 <? num a)%Z && (num a <=? 31)%Z then format_date b a year
  else format_date a b year.

(** The six monetary keywords of the specification (section 4.5, step 3). *)
Definition monetary_keywords : list text := Eval vm_compute in
  [str "amount"; str "total"; str "sum"; str "price"; str "cost"; str "fee"].

(** The four keywords the source looks for. *)
Definition small_keywords : list text := Eval vm_compute in
  [str "amount"; str "total"; str "sum"; str "price"].

Definition has_keyword (kws : list text) (t : text) : bool :=
  existsb (fun k => contains k (lower t)) kws.

(** The filter of the specification (section 4.5, step 3): both rejections
    are lifted by a monetary keyword on the line. *)
Definition spec_passes_filter (amount : float) (t : text) : bool :=
  negb (likely_year amount && negb (has_keyword monetary_keywords t))
  && negb (PrimFloat.ltb amount 1 && negb (has_keyword monetary_keywords t)).

(** The label-anchored pattern, first of [title_patterns], and the title a
    label-anchored match of a line gives. *)
Definition label_re : regex := Eval vm_compute in
  compile "(?:title|merchant|store|vendor|name)[:.\s-]+(.+)".

Definition has_label_match (res : line) : bool :=
  is_some (search true label_re (strip (l_text res))).

Definition label_anchored (res : line) : option text :=
  match title_try (strip (l_text res)) label_re with
  | Some (Some t) => Some t
  | _ => None
  end.

(** The pattern of the specification for the misread dollar sign
    (section 4.5, step 1), matched without regard to case. *)
Definition claim_amount_s_re : regex := Eval vm_compute in
  compile "amount[:]?\s*s\s*\d+".

(** What such a match means: the lower-cased text holds "amount", an
    optional colon, white space, "s", white space and at least one digit, in
    this order. *)
Definition matches_amount_s (t : text) : Prop :=
  exists pre colon ws1 ws2 ds post,
    lower t = pre ++ str "amount" ++ colon ++ ws1 ++ str "s" ++ ws2 ++ ds ++ post
    /\ (colon = [] \/ colon = str ":")
    /\ forallb is_space ws1 = true /\ forallb is_space ws2 = true
    /\ isdecimal ds = true.

(** The text has no decimal digit. *)
Definition no_digit (t : text) : bool := negb (existsb is_digit t).

(** The record of defaults. *)
Definition default_receipt : receipt := mkreceipt untitled [] 0 UNKNOWN [].

(** The first number of a date reads as a day: it is above 12 and at most 31. *)
Definition day_first (a : text) : bool := (12 <? num a)%Z && (num a <=? 31)%Z.

(** A literal prefix followed by the rest of a pattern. *)
Definition lit_then (p : text) (rest : regex) : regex :=
  fold_right (fun x r => RSeq (RChar x) r) rest p.

(** What follows "amount" in [amount\s*:?\s*s\s*\d+], with the digits
    wrapped by [wrap]: a group or nothing. *)
Definition after_amount (wrap : regex -> regex) : regex :=
  RSeq (RRep 0 None (RSet false [CSpace]))
    (RSeq (RRep 0 (Some 1) (RChar (ch ":")))
       (RSeq (RRep 0 None (RSet false [CSpace]))
          (RSeq (RChar (ch "s"))
             (RSeq (RRep 0 None (RSet false [CSpace]))
                (RSeq (wrap (RRep 1 None (RSet false [CDigit]))) REmpty))))).

(** [by_conf a b]: [a] may stand in front of [b] in the ranking. *)
Definition by_conf (a b : line) : Prop := (l_confidence b <= l_confidence a)%Q.

(** The lines whose confidence equals [q]. *)
Definition at_conf (q : Q) (r : line) : bool := Qeq_bool (l_confidence r) q.

(** A line without a decimal digit. *)
Definition digitless (res : line) : Prop := existsb is_digit (l_text res) = false.

(** [holds a cur cands]: some candidate has the amount [a] and the currency [cur]. *)
Definition holds (a : float) (cur : currency) (cands : list candidate) : Prop :=
  exists c, In c cands /\ c_amount c = a /\ c_currency c = cur.

(* ===================================================================== *)
(** ** The upload check: [allowed_file] *)
(* ===================================================================== *)

(** The set [ALLOWED_EXTENSIONS]; only membership is asked of it. *)
Definition ALLOWED_EXTENSIONS : list text := Eval vm_compute in
  [ str "png"; str "jpg"; str "jpeg"; str "gif"; str "bmp"; str "tiff" ].

(** [s.rsplit(sep, 1)] for a one-character separator: the text before and
    the text after the last [sep], or [None] when [s] has no [sep] (Python
    then returns the one-element list [[s]]). *)
Fixpoint rsplit1 (sep : char) (s : text) : option (text * text) :=
  match s with
  | [] => None
  | x :: s' =>
    match rsplit1 sep s' with
    | Some (before, after) => Some (x :: before, after)
    | None => if (x =? sep)%N then Some ([], s') else None
    end
  end.

(** ['.' in filename and filename.rsplit('.', 1)[1].lower() in
    ALLOWED_EXTENSIONS]; the index 1 exists whenever the first test
    holds. *)
Definition allowed_file (filename : text) : bool :=
  contains (str ".") filename
  && match rsplit1 (ch ".") filename with
     | Some (_, extension) => seen (lower extension) ALLOWED_EXTENSIONS
     | None => false
     end.

(* ===================================================================== *)
(** ** The variants: [process_receipt_image] *)
(* ===================================================================== *)

(** One entry of what [reader.readtext] returns, without its bounding box:
    the text and its confidence. *)
Definition reading : Type := (text * Q)%type.

(** [confidence_threshold = 0.2]: the double nearest to 0.2, as the
    rational number it is. *)
Definition confidence_threshold : Q := 3602879701896397 # 18014398509481984.

(** [confidence > confidence_threshold] *)
Definition above_threshold (r : reading) : bool :=
  negb (Qle_bool (snd r) confidence_threshold).

(** [{"variant": name, "box": box, "text": text, "confidence": confidence}] *)
Definition tag (name : text) (r : reading) : detection :=
  mkdet (fst r) (snd r) name.

(** [s.split(sep)] for a one-character separator. *)
Fixpoint split (sep : char) (s : text) : list text :=
  match s with
  | [] => [[]]
  | x :: s' =>
    if (x =? sep)%N then [] :: split sep s'
    else
      match split sep s' with
      | piece :: pieces => (x :: piece) :: pieces
      | [] => [[x]]
      end
  end.

(** The head of [process_receipt]: a data URL loses its header,
    [if ',' in image_data: image_data = image_data.split(',')[1]]. *)
Definition image_payload (image_data : text) : text :=
  if contains (str ",") image_data then nth 1 (split (ch ",") image_data) []
  else image_data.

(** Why a request is refused: the three messages of the status 400, and the
    text of an exception that reached the outer handler (status 500). *)
Inductive failure_reason : Type :=
| No_image_data_provided
| Invalid_image_data
| No_text_detected
| Unhandled_exception.

(** The JSON answer without its processing time: the validated record with
    ['success': True], or a status and a reason. *)
Inductive response : Type :=
| success (data : receipt)
| failure (status : nat) (error : failure_reason).

Section Service.

(** The image library and the OCR engine are not part of the program: an
    image is any value, the transformations of OpenCV are any functions,
    and [readtext] returns readings or raises ([None]). *)
Variable image : Type.
Variable readtext : image -> option (list reading).
Variables binary adaptive enhanced_binary denoised_binary : image -> image.
Variable preprocess_image : image -> image.

(** [base64.b64decode], [Image.open] and the conversion to an OpenCV array;
    [None] when one of them raises. *)
Variable load_image : text -> option image.

(** The list [results] of named variants. *)
Definition variants (img : image) : list (text * image) :=
  [ (str "binary", binary img);
    (str "adaptive", adaptive img);
    (str "enhanced", enhanced_binary img);
    (str "denoised", denoised_binary img) ].

(** The body of the loop over the variants: the readings above the
    threshold, named after the variant; an exception of the reader is
    logged and leaves nothing. *)
Definition read_variant (v : text * image) : list detection :=
  match readtext (snd v) with
  | Some variant_results => map (tag (fst v)) (filter above_threshold variant_results)
  | None => []
  end.

Definition process_receipt_image (img : image) : list detection :=
  flat_map read_variant (variants img).

(** [process_receipt], from the value of the key ['image'] of the request
    ([None] when the request has no such key) to the answer. *)
Definition process_receipt (image_field : option text) : response :=
  match image_field with
  | None => failure 400 No_image_data_provided
  | Some image_data =>
    match load_image (image_payload image_data) with
    | None => failure 400 Invalid_image_data
    | Some opencv_image =>
      let processed_image := preprocess_image opencv_image in
      let found :=
        match process_receipt_image opencv_image with
        | [] =>
          match readtext processed_image with
          | None => inr (failure 500 Unhandled_exception)
          | Some [] => inr (failure 400 No_text_detected)
          | Some results => inl (map (tag (str "standard")) results)
          end
        | ocr_results => inl ocr_results
        end in
      match found with
      | inr answer => answer
      | inl ocr_results =>
        match extract_receipt_data ocr_results with
        | None => failure 500 Unhandled_exception
        | Some data => success (validate_critical_data ocr_results data)
        end
      end
    end
  end.

End Service.

(* ===================================================================== *)
(** ** Lines of a receipt: [ReceiptOCR.group_text_blocks] *)
(* ===================================================================== *)

(** A text block with its position, as [extract_text_with_position] builds
    it: the corners are integers. *)
Record block : Type := mkblock {
  b_text : text;
  b_confidence : Q;
  b_x1 : Z;
  b_y1 : Z;
  b_x2 : Z;
  b_y2 : Z
}.

(** [l.sort(key=key)]: stable, by ascending key. *)
Definition sort_by (key : block -> Z) (l : list block) : list block :=
  sort_desc (fun a b => (key b <? key a)%Z) l.

Definition y_threshold : Z := 10.

(** One iteration of the loop over the sorted blocks; the state is [lines]
    and [current_line]. *)
Definition group_step (st : list (list block) * list block) (blk : block)
  : list (list block) * list block :=
  let '(lines, current_line) := st in
  match current_line with
  | [] => (lines, [blk])
  | _ =>
    let last_block := last current_line blk in
    let y_diff := Z.abs (b_y1 blk - b_y1 last_block) in
    if (y_diff <=? y_threshold)%Z then (lines, current_line ++ [blk])
    else (lines ++ [current_line], [blk])
  end.

(** The lines that [group_text_blocks] returns.  Its first sort is in
    place: the list of the caller is left sorted by [y1] as well. *)
Definition group_text_blocks (text_blocks : list block) : list (list block) :=
  match text_blocks with
  | [] => []
  | _ =>
    let '(lines, current_line) :=
      fold_left group_step (sort_by b_y1 text_blocks) ([], []) in
    let lines :=
      match current_line with
      | [] => lines
      | _ => lines ++ [current_line]
      end in
    map (sort_by b_x1) lines
  end.

(* ===================================================================== *)
(** ** The shape of a date, and the length of what a group captures *)
(* ===================================================================== *)

(** "MM/DD/YYYY": two digits, a slash, two digits, a slash, four digits. *)
Definition canonical_date (d : text) : bool :=
  match d with
  | [m1; m2; s1; d1; d2; s2; y1; y2; y3; y4] =>
    forallb is_digit [m1; m2; d1; d2; y1; y2; y3; y4]
    && (s1 =? ch "/")%N && (s2 =? ch "/")%N
  | _ => false
  end.

(** Three runs of digits between two slashes, the first two of at least
    two digits. *)
Definition slashed_digits (d : text) : bool :=
  match split (ch "/") d with
  | [month; day; year] =>
    isdecimal month && isdecimal day && isdecimal year
    && Nat.leb 2 (length month) && Nat.leb 2 (length day)
  | _ => false
  end.

(** The greatest number of characters a match consumes, when the pattern
    bounds it. *)
Fixpoint maxlen (r : regex) : option nat :=
  match r with
  | REmpty | RBol | REol | RNegLook _ => Some 0
  | RChar _ | RAny | RSet _ _ => Some 1
  | RSeq r1 r2 =>
    match maxlen r1, maxlen r2 with
    | Some a, Some b => Some (a + b)
    | _, _ => None
    end
  | RAlt r1 r2 =>
    match maxlen r1, maxlen r2 with
    | Some a, Some b => Some (Nat.max a b)
    | _, _ => None
    end
  | RRep _ (Some h) r' =>
    match maxlen r' with
    | Some a => Some (h * a)
    | None => None
    end
  | RRep _ None _ => None
  | RGroup _ r' => maxlen r'
  end.

(** Group [i] captures between [lo] and [hi] characters. *)
Fixpoint group_len (i lo hi : nat) (r : regex) : bool :=
  match r with
  | RSeq r1 r2 | RAlt r1 r2 => group_len i lo hi r1 && group_len i lo hi r2
  | RRep _ _ r' => group_len i lo hi r'
  | RGroup j r' =>
    (if Nat.eqb i j
     then Nat.leb lo (minlen r')
          && match maxlen r' with Some a => Nat.leb a hi | None => false end
     else true)
    && group_len i lo hi r'
  | _ => true
  end.

(** Every binding of group [i] has between [lo] and [hi] characters. *)
Definition len_caps (i lo hi : nat) (c : caps) : Prop :=
  forall t, get i c = Some t -> lo <= length t <= hi.

(** The text is empty or begins with a character that is not white space. *)
Definition head_ok (s : text) : Prop :=
  match s with
  | [] => True
  | c :: _ => is_space c = false
  end.

(* ===================================================================== *)
(** ** The choice among the merchant candidates, said directly *)
(* ===================================================================== *)

Definition with_score (s : float) (c : name_candidate) : bool :=
  PrimFloat.eqb (n_score c) s.

(** The first proper name if there is one, else the first business name,
    else the first line. *)
Definition preferred (cands : list name_candidate) : option name_candidate :=
  match find (with_score 0.8) cands with
  | Some c => Some c
  | None =>
    match find (with_score 0.7) cands with
    | Some c => Some c
    | None => find (with_score 0.5) cands
    end
  end.

(** [fused D ds]: [D] lists, by descending confidence and once each, the
    trimmed texts of at least two characters of [ds], each with its
    greatest confidence. *)
Definition fused (D : list line) (ds : list detection) : Prop :=
  NoDup (map l_text D)
  /\ StronglySorted by_conf D
  /\ (forall r, In r D ->
        2 <= length (l_text r)
        /\ (exists d, In d ds /\ strip (d_text d) = l_text r
                      /\ d_confidence d = l_confidence r)
        /\ (forall d, In d ds -> strip (d_text d) = l_text r ->
                      (d_confidence d <= l_confidence r)%Q))
  /\ (forall d, In d ds -> 2 <= length (strip (d_text d)) ->
        exists r, In r D /\ l_text r = strip (d_text d)).

(** No two detections of different trimmed texts have the same
    confidence. *)
Definition own_confidence (ds : list detection) : Prop :=
  forall d1 d2, In d1 ds -> In d2 ds ->
    (d_confidence d1 == d_confidence d2)%Q -> strip (d_text d1) = strip (d_text d2).

(** The detection has another trimmed text than [t]. *)
Definition other_text (t : text) (d : detection) : bool :=
  negb (text_eqb (strip (d_text d)) t).

(** [a] does not come after [b] by the key. *)
Definition key_le (key : block -> Z) (a b : block) : Prop := (key a <= key b)%Z.

(** Every block of the first line lies more than the threshold above every
    block of the second. *)
Definition above (la lb : list block) : Prop :=
  forall a b, In a la -> In b lb -> (b_y1 a + y_threshold < b_y1 b)%Z.

(** The lines that the loop has closed, and the one it is filling. *)
Definition closed (st : list (list block) * list block) : list (list block) :=
  match snd st with
  | [] => fst st
  | _ => fst st ++ [snd st]
  end.

Definition stacked (st : list (list block) * list block) : Prop :=
  StronglySorted above (closed st) /\ (snd st = [] -> fst st = []).

(** The marks of a currency: the keys of [currency_map], and "rupee". *)
Definition currency_marks : list text := Eval vm_compute in
  map fst currency_map ++ [str "rupee"].

(** The line shows a currency: the dollar sign read as "s", after "amount"
    or at the start of the line, or one of the marks, in any case. *)
Definition currency_evidence (t : text) : bool :=
  is_some (search false amount_s_re (lower t))
  || is_some (search false amount_s_prefix_re (lower t))
  || is_some (search false leading_s_re (lower t))
  || existsb (fun k => contains k (lower t)) currency_marks.

(** Every candidate with a currency goes back to a line that shows one. *)
Definition backed (rs : list line) (cands : list candidate) : Prop :=
  forall c, In c cands -> c_currency c <> UNKNOWN ->
    exists res, In res rs /\ currency_evidence (strip (l_text res)) = true.

(** A ranked line, read again as a detection. *)
Definition as_detection (r : line) : detection :=
  mkdet (l_text r) (l_confidence r) (l_variant r).

(** The line reads "amount", then "s" and digits: the first loop of the
    amount extractor takes it. *)
Definition dollar_read_as_s (res : line) : bool :=
  is_some (search false amount_s_re (lower (strip (l_text res)))).

(** Every candidate that the filter would reject came in by the first
    loop, or, for a value below 1, from a line with a keyword. *)
Definition filtered (rs : list line) (cands : list candidate) : Prop :=
  forall c, In c cands ->
    (likely_year (c_amount c) = true ->
     exists res, In res rs /\ dollar_read_as_s res = true)
    /\ (PrimFloat.ltb (c_amount c) 1 = true ->
        exists res, In res rs
          /\ (dollar_read_as_s res = true
              \/ has_keyword small_keywords (strip (l_text res)) = true)).

(** What the second pattern of the first pass refuses at the start of a
    line, "(?!date|amount|total|invoice|receipt)". *)
Definition excluded_re : regex := Eval vm_compute in
  compile "date|amount|total|invoice|receipt".

(** The guard of the first pass against a leftover label: one word of
    fewer than four characters. *)
Definition leftover_label (cleaned_title : text) : bool :=
  Nat.eqb (count_words false cleaned_title) 1 && Nat.ltb (length cleaned_title) 4.

(* ===================================================================== *)
(** ** The date rule as the source applies it, for comparison *)
(* ===================================================================== *)

(** The three groups of the leftmost match of [p], for a pattern with three
    groups. *)
Definition pattern_triple (t : text) (p : regex) : option (text * text * text) :=
  match search true p t with
  | Some mo =>
    match groups p mo with
    | [Some a; Some b; Some c] => Some (a, b, c)
    | _ => None
    end
  | None => None
  end.

(** The numeric triple of a line, in the order in which the source looks
    for it: the pattern D/M/20YY of the first loops, then the first pattern
    of the table that yields three groups. *)
Definition numeric_triple (res : line) : option (text * text * text) :=
  match date_triple res with
  | Some abc => Some abc
  | None => first_some (pattern_triple (strip (l_text res))) date_patterns
  end.

(** The line yields no date: it holds no date D/M/20YY and the pattern
    table returns nothing on it. *)
Definition dateless (res : line) : bool :=
  negb (is_some (date_triple res)) && negb (is_some (date_patterned res)).

(** "Ensure 4-digit year", on a run of digits. *)
Definition full_year (year : text) : text :=
  if Nat.eqb (length year) 2
  then (if (num year <? 50)%Z then str "20" else str "19") ++ year
  else year.

(** The rule as the source applies it.  [unguarded] tells whether the test
    [b <= 12] is left out, which only the loop over the lines that say
    "date" does, and only for the pattern D/M/20YY. *)
Definition date_rule (unguarded : bool) (a b year : text) : text :=
  if day_first a && (unguarded || (num b <=? 12)%Z)
  then format_date b a (full_year year)
  else format_date a b (full_year year).

Unset Implicit Arguments.

(* ===================================================================== *)
(** ** Decimal digits *)
(* ===================================================================== *)

Lemma ascii_is_digit c : is_ascii_digit c = true -> is_digit c = true.
Proof. intros H. unfold is_digit. now rewrite H. Qed.

(** A decimal digit is an ASCII digit or lies beyond the Latin scripts. *)
Lemma is_digit_cases c : is_digit c = true -> (48 <= c <= 57)%N \/ (1632 <= c)%N.
Proof.
  unfold is_digit, is_ascii_digit, in_range. intros H.
  apply orb_true_iff in H. destruct H as [H|H]; apply andb_true_iff in H;
    destruct H as [H1 H2].
  - apply N.leb_le in H1, H2. left. lia.
  - apply N.leb_le in H1. now right.
Qed.

Lemma digit_not_upper c : is_upper c = true -> is_digit c = false.
Proof.
  unfold is_upper, in_range. intros U. apply andb_true_iff in U.
  destruct U as [U1 U2]. apply N.leb_le in U1, U2.
  destruct (is_digit c) eqn:D; [|reflexivity].
  apply is_digit_cases in D. lia.
Qed.

Ltac bool_facts :=
  repeat match goal with
         | H : _ || _ = true |- _ => apply orb_true_iff in H; destruct H as [H|H]
         | H : _ && _ = true |- _ => apply andb_true_iff in H; destruct H
         | H : (_ <=? _)%N = true |- _ => apply N.leb_le in H
         | H : (_ =? _)%N = true |- _ => apply N.eqb_eq in H
         end.

(** The white space of [str.isspace], listed. *)
Lemma is_space_cases c :
  is_space c = true ->
  (9 <= c <= 32)%N \/ c = 133%N \/ c = 160%N \/ c = 5760%N
  \/ (8192 <= c <= 8287)%N \/ c = 12288%N.
Proof. unfold is_space, in_range. intros H. bool_facts; lia. Qed.

(** No decimal digit is white space: the blocks of digits keep clear of the
    white space beyond ASCII. *)
Lemma digit_not_space c : is_digit c = true -> is_space c = false.
Proof.
  intros D. destruct (is_space c) eqn:S; [|reflexivity]. exfalso.
  apply is_space_cases in S.
  pose proof (is_digit_cases _ D) as C.
  destruct C as [C|C]; [lia|].
  assert (B : existsb (in_block c) decimal_zeros = true).
  { unfold is_digit, is_ascii_digit, in_range in D. bool_facts; [lia|assumption]. }
  apply existsb_exists in B. destruct B as (z & I & B).
  unfold in_block, in_range in B. bool_facts.
  assert (F : forallb (fun z => (negb (in_range z (z + 9) 5760))
                                && ((z + 9 <? 8192) || (8287 <? z))
                                && negb (in_range z (z + 9) 12288))%N
                      decimal_zeros = true) by (vm_compute; reflexivity).
  rewrite forallb_forall in F. specialize (F z I).
  apply andb_true_iff in F. destruct F as [F F3].
  apply andb_true_iff in F. destruct F as [F1 F2].
  unfold in_range in F1, F3.
  apply negb_true_iff, andb_false_iff in F1.
  apply negb_true_iff, andb_false_iff in F3.
  apply orb_true_iff in F2.
  repeat match goal with
         | H : _ \/ _ |- _ => destruct H
         | H : (_ <=? _)%N = false |- _ => apply N.leb_gt in H
         | H : (_ <? _)%N = true |- _ => apply N.ltb_lt in H
         end; lia.
Qed.

(** The value of a decimal digit is below ten. *)
Lemma digit_value_lt c : is_digit c = true -> (digit_value c < 10)%N.
Proof.
  intros D. unfold digit_value.
  destruct (is_ascii_digit c) eqn:A.
  - unfold is_ascii_digit, in_range in A. apply andb_true_iff in A.
    destruct A as [A1 A2]. apply N.leb_le in A1, A2. lia.
  - destruct (find (in_block c) decimal_zeros) as [z|] eqn:F; [|lia].
    apply find_some in F. destruct F as [_ B].
    unfold in_block, in_range in B. apply andb_true_iff in B.
    destruct B as [B1 B2]. apply N.leb_le in B1, B2. lia.
Qed.

(* ===================================================================== *)
(** ** The matcher against the declarative reading *)
(* ===================================================================== *)

Module ReFacts.

Lemma firstn_consumed (s1 s2 : text) :
  firstn (length (s1 ++ s2) - length s2) (s1 ++ s2) = s1.
Proof.
  rewrite length_app, Nat.add_sub.
  rewrite firstn_app, Nat.sub_diag, firstn_all. simpl. apply app_nil_r.
Qed.

Lemma one_sound p k s c x :
  one p k s c = Some x -> exists y s', s = y :: s' /\ p y = true /\ k s' c = Some x.
Proof.
  destruct s as [|y s']; simpl; [discriminate|].
  destruct (p y) eqn:E; [|discriminate]. intros H. now exists y, s'.
Qed.

Section Rep.
Variable step : cont -> cont.
Variable R : text -> caps -> caps -> Prop.

Hypothesis step_sound : forall k s c x,
  step k s c = Some x ->
  exists s1 s2 cm, s = s1 ++ s2 /\ R s1 c cm /\ k s2 cm = Some x.

Lemma rep_sound fuel : forall lo k s c x,
  rep step k fuel lo s c = Some x ->
  exists n s1 s2 c',
    s = s1 ++ s2 /\ iter R n s1 c c' /\ lo <= n /\ n <= fuel /\ k s2 c' = Some x.
Proof.
  induction fuel as [|f IH]; intros lo k s c x H; simpl in H.
  - destruct (Nat.eqb_spec lo 0); [|discriminate].
    exists 0, [], s, c. repeat split; try lia; [constructor|assumption].
  - destruct (step (rep step k f (pred lo)) s c) as [y|] eqn:E.
    + inversion H; subst y; clear H.
      apply step_sound in E. destruct E as (s1 & s2 & cm & -> & HR & E).
      apply IH in E. destruct E as (n & s21 & s22 & c' & -> & Hit & Hlo & Hn & Hk).
      exists (S n), (s1 ++ s21), s22, c'. rewrite app_assoc.
      repeat split; try lia; [econstructor; eassumption|assumption].
    + destruct (Nat.eqb_spec lo 0); [|discriminate].
      exists 0, [], s, c. repeat split; try lia; [constructor|assumption].
Qed.

Hypothesis step_complete : forall k s1 s2 c cm,
  R s1 c cm -> k s2 cm <> None -> step k (s1 ++ s2) c <> None.

Lemma rep_complete n s1 c c' :
  iter R n s1 c c' ->
  forall fuel lo k s2,
    lo <= n -> n <= fuel -> k s2 c' <> None ->
    rep step k fuel lo (s1 ++ s2) c <> None.
Proof.
  induction 1 as [c|n s1 s1' c cm c' HR Hit IH]; intros fuel lo k s2 Hlo Hn Hk.
  - assert (lo = 0) by lia. subst lo. destruct fuel; simpl; [assumption|].
    destruct (step _ s2 c); [discriminate|assumption].
  - destruct fuel as [|f]; [lia|]. simpl.
    destruct (step (rep step k f (pred lo)) ((s1 ++ s1') ++ s2) c) eqn:E; [discriminate|].
    exfalso. revert E. rewrite <- app_assoc. apply step_complete with (cm := cm); [assumption|].
    apply IH; [lia|lia|assumption].
Qed.
End Rep.

Lemma m_sound n0 ic r : forall k s c x,
  m n0 ic r k s c = Some x ->
  exists s1 s2 c', s = s1 ++ s2 /\ sem ic r s1 c c' /\ k s2 c' = Some x.
Proof.
  induction r as [| p | | neg items | | | r1 IH1 r2 IH2 | r1 IH1 r2 IH2
                 | lo hi r IH | i r IH | r IH]; intros k s c x H; simpl in H.
  - exists [], s, c. now repeat split.
  - apply one_sound in H. destruct H as (y & s' & -> & Hp & Hk).
    exists [y], s', c. repeat split; [|assumption]. now exists y.
  - apply one_sound in H. destruct H as (y & s' & -> & Hp & Hk).
    exists [y], s', c. repeat split; [|assumption]. now exists y.
  - apply one_sound in H. destruct H as (y & s' & -> & Hp & Hk).
    exists [y], s', c. repeat split; [|assumption]. now exists y.
  - destruct (Nat.eqb (length s) n0); [|discriminate].
    exists [], s, c. now repeat split.
  - exists [], s, c. repeat split.
    destruct s as [|y [|z s']]; try assumption; try discriminate.
    destruct (y =? 10)%N; [assumption|discriminate].
  - apply IH1 in H. destruct H as (s1 & s2 & cm & -> & H1 & H).
    apply IH2 in H. destruct H as (s21 & s22 & c' & -> & H2 & H).
    exists (s1 ++ s21), s22, c'. rewrite app_assoc. repeat split; [|assumption].
    now exists s1, s21, cm.
  - destruct (m n0 ic r1 k s c) as [y|] eqn:E.
    + inversion H; subst y. apply IH1 in E. destruct E as (s1 & s2 & c' & -> & H1 & E).
      exists s1, s2, c'. repeat split; [now left|assumption].
    + apply IH2 in H. destruct H as (s1 & s2 & c' & -> & H1 & H).
      exists s1, s2, c'. repeat split; [now right|assumption].
  - apply (rep_sound _ (sem ic r) IH) in H.
    destruct H as (n & s1 & s2 & c' & -> & Hit & Hlo & Hn & Hk).
    exists s1, s2, c'. repeat split; [|assumption].
    exists n. repeat split; [assumption| |assumption].
    destruct hi; [assumption|exact I].
  - apply IH in H. destruct H as (s1 & s2 & cm & -> & H1 & H).
    rewrite firstn_consumed in H.
    exists s1, s2, ((i, s1) :: cm). repeat split; [|assumption]. now exists cm.
  - destruct (m n0 ic r _ s c); [discriminate|].
    exists [], s, c. now repeat split.
Qed.

Lemma iter_minlen ic r n s c c' :
  (forall s c c', sem ic r s c c' -> minlen r <= length s) ->
  iter (sem ic r) n s c c' -> n * minlen r <= length s.
Proof.
  intros Hr. induction 1 as [|n s1 s2 c cm c' H1 Hit IH]; simpl; [lia|].
  rewrite length_app. apply Hr in H1. lia.
Qed.

Lemma minlen_sem ic r : forall s c c', sem ic r s c c' -> minlen r <= length s.
Proof.
  induction r as [| p | | neg items | | | r1 IH1 r2 IH2 | r1 IH1 r2 IH2
                 | lo hi r IH | i r IH | r IH]; intros s c c' H; simpl in *.
  - lia.
  - destruct H as (x & -> & _). simpl. lia.
  - destruct H as (x & -> & _). simpl. lia.
  - destruct H as (x & -> & _). simpl. lia.
  - lia.
  - lia.
  - destruct H as (s1 & s2 & cm & -> & H1 & H2). rewrite length_app.
    apply IH1 in H1. apply IH2 in H2. lia.
  - destruct H as [H|H]; [apply IH1 in H|apply IH2 in H]; lia.
  - destruct H as (n & Hlo & _ & Hit). apply iter_minlen in Hit; [|exact IH].
    nia.
  - destruct H as (cm & H & _). now apply IH in H.
  - lia.
Qed.

Lemma m_complete n0 ic r : simple r = true ->
  forall k s1 s2 c c',
    sem ic r s1 c c' -> k s2 c' <> None -> m n0 ic r k (s1 ++ s2) c <> None.
Proof.
  induction r as [| p | | neg items | | | r1 IH1 r2 IH2 | r1 IH1 r2 IH2
                 | lo hi r IH | i r IH | r IH]; intros Hs k s1 s2 c c' H Hk;
    simpl in Hs; try discriminate; simpl in H; simpl.
  - destruct H as [-> ->]. assumption.
  - destruct H as (x & -> & Hp & ->). simpl. now rewrite Hp.
  - destruct H as (x & -> & Hp & ->). simpl. now rewrite Hp.
  - destruct H as (x & -> & Hp & ->). simpl. now rewrite Hp.
  - apply andb_true_iff in Hs. destruct Hs as [Hs1 Hs2].
    destruct H as (s11 & s12 & cm & -> & H1 & H2). rewrite <- app_assoc.
    apply IH1 with (c' := cm); [assumption|assumption|].
    now apply IH2 with (c' := c').
  - apply andb_true_iff in Hs. destruct Hs as [Hs1 Hs2].
    destruct (m n0 ic r1 k (s1 ++ s2) c) eqn:E; [discriminate|].
    destruct H as [H|H].
    + exfalso. revert E. now apply IH1 with (c' := c').
    + now apply IH2 with (c' := c').
  - destruct H as (n & Hlo & Hhi & Hit).
    assert (Hsr : simple r = true).
    { destruct hi; [assumption|]. now apply andb_true_iff in Hs. }
    refine (rep_complete _ (sem ic r) _ _ _ _ _ Hit _ _ _ _ Hlo _ Hk).
    + intros. now apply IH with (c' := cm).
    + destruct hi as [h|]; [assumption|].
      apply andb_true_iff in Hs. destruct Hs as [_ Hm]. apply Nat.ltb_lt in Hm.
      apply iter_minlen in Hit; [|apply minlen_sem]. rewrite length_app. nia.
  - destruct H as (cm & H & ->).
    apply IH with (c' := cm); [assumption|assumption|].
    now rewrite firstn_consumed.
Qed.

(** *** Searching *)

Lemma match_at_sound n0 ic r pos s mo :
  match_at n0 ic r pos s = Some mo ->
  exists post, s = m_text mo ++ post /\ sem ic r (m_text mo) [] (m_caps mo)
               /\ m_start mo = pos.
Proof.
  unfold match_at. destruct (m n0 ic r k0 s []) as [[s' c]|] eqn:E; [|discriminate].
  intros H. inversion H; subst mo; clear H. simpl.
  apply m_sound in E. destruct E as (s1 & s2 & c' & -> & Hs & Hk).
  unfold k0 in Hk. inversion Hk; subst. rewrite firstn_consumed. now exists s'.
Qed.

Lemma search_at_sound n0 ic r : forall s pos mo,
  search_at n0 ic r pos s = Some mo ->
  exists pre post, s = pre ++ m_text mo ++ post
                   /\ sem ic r (m_text mo) [] (m_caps mo).
Proof.
  induction s as [|x s IH]; intros pos mo H; simpl in H.
  - destruct (match_at n0 ic r pos []) eqn:E; [|discriminate].
    inversion H; subst. apply match_at_sound in E. destruct E as (post & E & Hs & _).
    exists [], post. now split.
  - destruct (match_at n0 ic r pos (x :: s)) eqn:E.
    + inversion H; subst. apply match_at_sound in E. destruct E as (post & E & Hs & _).
      exists [], post. now split.
    + apply IH in H. destruct H as (pre & post & -> & Hs).
      exists (x :: pre), post. now split.
Qed.

Lemma search_sound ic r s mo :
  search ic r s = Some mo ->
  exists pre post, s = pre ++ m_text mo ++ post
                   /\ sem ic r (m_text mo) [] (m_caps mo).
Proof. apply search_at_sound. Qed.

Lemma rematch_sound ic r s mo :
  rematch ic r s = Some mo ->
  exists post, s = m_text mo ++ post /\ sem ic r (m_text mo) [] (m_caps mo).
Proof.
  intros H. apply match_at_sound in H. destruct H as (post & H1 & H2 & _).
  now exists post.
Qed.

Lemma match_at_complete n0 ic r pos mid post c' :
  simple r = true -> sem ic r mid [] c' ->
  match_at n0 ic r pos (mid ++ post) <> None.
Proof.
  intros Hs H. unfold match_at.
  destruct (m n0 ic r k0 (mid ++ post) []) as [[s' c]|] eqn:E; [discriminate|].
  exfalso. revert E. apply m_complete with (c' := c'); [assumption|assumption|].
  discriminate.
Qed.

Lemma search_at_complete n0 ic r mid post c' :
  simple r = true -> sem ic r mid [] c' ->
  forall pre pos, search_at n0 ic r pos (pre ++ mid ++ post) <> None.
Proof.
  intros Hs H. induction pre as [|x pre IH]; intros pos.
  - simpl app. destruct (mid ++ post) eqn:E; simpl;
      pose proof (@match_at_complete n0 ic r pos mid post c' Hs H) as M;
      rewrite E in M; destruct (match_at n0 ic r pos _); congruence.
  - simpl. destruct (match_at n0 ic r pos _); [discriminate|apply IH].
Qed.

Lemma search_complete ic r pre mid post c' :
  simple r = true -> sem ic r mid [] c' ->
  search ic r (pre ++ mid ++ post) <> None.
Proof. intros. unfold search. now apply search_at_complete with (c' := c'). Qed.

Lemma finditer_head ic r s :
  finditer ic r s =
  match search ic r s with
  | None => []
  | Some mo => mo :: tl (finditer ic r s)
  end.
Proof.
  unfold finditer, search. simpl. now destruct (search_at _ ic r 0 s).
Qed.

(** *** The iterating functions never run out of fuel *)

Lemma search_at_start n0 ic r : forall s pos mo,
  search_at n0 ic r pos s = Some mo ->
  pos <= m_start mo /\ m_end mo <= pos + length s.
Proof.
  assert (M : forall s pos mo, match_at n0 ic r pos s = Some mo ->
                               pos <= m_start mo /\ m_end mo <= pos + length s).
  { intros s pos mo H. apply match_at_sound in H. destruct H as (post & E & _ & Hst).
    unfold m_end. rewrite Hst, E, length_app. lia. }
  induction s as [|x s IH]; intros pos mo H; simpl in H.
  - destruct (match_at n0 ic r pos []) eqn:E; [|discriminate].
    inversion H; subst. now apply M.
  - destruct (match_at n0 ic r pos (x :: s)) eqn:E.
    + inversion H; subst. now apply M.
    + apply IH in H. simpl. lia.
Qed.

Lemma finditer_fuel n0 ic r : forall f1 f2 s pos,
  length s < f1 -> length s < f2 ->
  finditer_at f1 n0 ic r pos s = finditer_at f2 n0 ic r pos s.
Proof.
  induction f1 as [|f1 IH]; intros f2 s pos H1 H2; [lia|].
  destruct f2 as [|f2]; [lia|]. simpl.
  destruct (search_at n0 ic r pos s) as [mo|] eqn:E; [|reflexivity].
  apply search_at_start in E. f_equal.
  set (step := m_end mo - pos + match m_text mo with [] => 1 | _ :: _ => 0 end).
  assert (Hs : 1 <= step).
  { unfold step, m_end in *. destruct (m_text mo); simpl in *; lia. }
  destruct (Nat.ltb_spec (length s) step); [reflexivity|].
  apply IH; rewrite length_skipn; lia.
Qed.

Lemma remove_fuel n0 ic r : forall f1 f2 s,
  length s < f1 -> length s < f2 ->
  remove_at f1 n0 ic r s = remove_at f2 n0 ic r s.
Proof.
  induction f1 as [|f1 IH]; intros f2 s H1 H2; [lia|].
  destruct f2 as [|f2]; [lia|]. simpl.
  destruct (match_at n0 ic r 0 s) as [mo|] eqn:E.
  - apply match_at_sound in E. destruct E as (post & E & _).
    destruct (m_text mo) as [|y t] eqn:T.
    + destruct s as [|x s]; [reflexivity|]. f_equal. apply IH; simpl in *; lia.
    + apply IH; rewrite length_skipn; rewrite E in H1, H2 |- *;
        rewrite length_app in *; simpl in *; lia.
  - destruct s as [|x s]; [reflexivity|]. f_equal. apply IH; simpl in *; lia.
Qed.

(** *** What the captures hold *)

Lemma iter_ind_caps (R : text -> caps -> caps -> Prop) (P : caps -> caps -> Prop) :
  (forall c, P c c) ->
  (forall c cm c', P c cm -> P cm c' -> P c c') ->
  (forall s c c', R s c c' -> P c c') ->
  forall n s c c', iter R n s c c' -> P c c'.
Proof.
  intros Hrefl Htrans HR. induction 1; [apply Hrefl|].
  eapply Htrans; [eapply HR; eassumption|assumption].
Qed.

Lemma caps_extend ic r : forall s c c', sem ic r s c c' -> exists d, c' = d ++ c.
Proof.
  induction r as [| p | | neg items | | | r1 IH1 r2 IH2 | r1 IH1 r2 IH2
                 | lo hi r IH | i r IH | r IH]; intros s c c' H; simpl in H.
  - destruct H as [_ ->]. now exists [].
  - destruct H as (x & _ & _ & ->). now exists [].
  - destruct H as (x & _ & _ & ->). now exists [].
  - destruct H as (x & _ & _ & ->). now exists [].
  - destruct H as [_ ->]. now exists [].
  - destruct H as [_ ->]. now exists [].
  - destruct H as (s1 & s2 & cm & _ & H1 & H2).
    apply IH1 in H1. apply IH2 in H2. destruct H1 as [d1 ->], H2 as [d2 ->].
    exists (d2 ++ d1). now rewrite app_assoc.
  - destruct H as [H|H]; [now apply IH1 in H|now apply IH2 in H].
  - destruct H as (n & _ & _ & Hit).
    refine (iter_ind_caps (sem ic r) (fun c c' => exists d, c' = d ++ c) _ _ _ _ _ _ _ Hit).
    + intros. now exists [].
    + intros c0 cm c1 [d1 ->] [d2 ->]. exists (d2 ++ d1). now rewrite app_assoc.
    + intros s0 c0 c1 H0. now apply IH in H0.
  - destruct H as (cm & H & ->). apply IH in H. destruct H as [d ->].
    now exists ((i, s) :: d).
  - destruct H as [_ ->]. now exists [].
Qed.

Lemma get_app_some i d c : get i c <> None -> get i (d ++ c) <> None.
Proof.
  intros H. induction d as [|[j t] d IH]; simpl; [assumption|].
  destruct (Nat.eqb i j); [discriminate|assumption].
Qed.

Lemma kept ic r s c c' i :
  sem ic r s c c' -> get i c <> None -> get i c' <> None.
Proof.
  intros H Hc. apply caps_extend in H. destruct H as [d ->]. now apply get_app_some.
Qed.

Lemma binds_sem ic i r : binds i r = true ->
  forall s c c', sem ic r s c c' -> get i c' <> None.
Proof.
  induction r as [| p | | neg items | | | r1 IH1 r2 IH2 | r1 IH1 r2 IH2
                 | lo hi r IH | j r IH | r IH]; intros Hb s c c' H;
    simpl in Hb; try discriminate; simpl in H.
  - destruct H as (s1 & s2 & cm & _ & H1 & H2).
    apply orb_true_iff in Hb. destruct Hb as [Hb|Hb].
    + eapply kept; [exact H2|]. eapply IH1; eassumption.
    + eapply IH2; eassumption.
  - apply andb_true_iff in Hb. destruct Hb as [Hb1 Hb2].
    destruct H as [H|H]; [eapply IH1|eapply IH2]; eassumption.
  - apply andb_true_iff in Hb. destruct Hb as [Hlo Hb]. apply Nat.ltb_lt in Hlo.
    destruct H as (n & Hn & _ & Hit).
    destruct Hit as [|n s1 s2 c cm c' H1 Hit]; [lia|].
    assert (Hcm : get i cm <> None) by (eapply IH; eassumption).
    clear H1. revert Hcm.
    refine (iter_ind_caps (sem ic r)
              (fun c c' => get i c <> None -> get i c' <> None) _ _ _ _ _ _ _ Hit); auto.
    intros s0 c0 c1 H0. eapply kept; eassumption.
  - destruct H as (cm & H & ->). simpl.
    destruct (Nat.eqb i j) eqn:E; [discriminate|].
    simpl in Hb. eapply IH; eassumption.
Qed.

(** *** Digits *)

Lemma set_digit ic x : set_match ic false [CDigit] x = true -> is_digit x = true.
Proof. unfold set_match. simpl. now rewrite orb_false_r. Qed.

Lemma existsb_app_l (f : char -> bool) a b :
  existsb f a = true -> existsb f (a ++ b) = true.
Proof. intros H. rewrite existsb_app, H. reflexivity. Qed.

Lemma existsb_app_r (f : char -> bool) a b :
  existsb f b = true -> existsb f (a ++ b) = true.
Proof. intros H. rewrite existsb_app, H. apply orb_true_r. Qed.

Lemma needs_digit_sem ic r : needs_digit r = true ->
  forall s c c', sem ic r s c c' -> existsb is_digit s = true.
Proof.
  induction r as [| p | | neg items | | | r1 IH1 r2 IH2 | r1 IH1 r2 IH2
                 | lo hi r IH | j r IH | r IH]; intros Hb s c c' H;
    simpl in Hb; try discriminate; simpl in H.
  - destruct neg; [discriminate|]. destruct items as [|[] [|? ?]]; try discriminate.
    destruct H as (x & -> & Hx & _). apply set_digit in Hx. simpl. now rewrite Hx.
  - destruct H as (s1 & s2 & cm & -> & H1 & H2).
    apply orb_true_iff in Hb. destruct Hb as [Hb|Hb].
    + apply existsb_app_l. eapply IH1; eassumption.
    + apply existsb_app_r. eapply IH2; eassumption.
  - apply andb_true_iff in Hb. destruct Hb as [Hb1 Hb2].
    destruct H as [H|H]; [eapply IH1|eapply IH2]; eassumption.
  - apply andb_true_iff in Hb. destruct Hb as [Hlo Hb]. apply Nat.ltb_lt in Hlo.
    destruct H as (n & Hn & _ & Hit).
    destruct Hit as [|n s1 s2 c cm c' H1 Hit]; [lia|].
    apply existsb_app_l. eapply IH; eassumption.
  - destruct H as (cm & H & _). eapply IH; eassumption.
Qed.

Lemma lower_digit x : is_digit (lower_char x) = true -> is_digit x = true.
Proof.
  unfold lower_char. destruct (is_upper x) eqn:E; [|trivial].
  intros H. apply is_digit_cases in H.
  unfold is_upper, in_range in E. apply andb_true_iff in E. destruct E as [E1 E2].
  apply N.leb_le in E1, E2. lia.
Qed.

Lemma char_match_digit ic p x :
  is_digit p = true -> char_match ic p x = true -> is_digit x = true.
Proof.
  intros Hp. unfold char_match. destruct ic; intros H; apply N.eqb_eq in H.
  - apply lower_digit. rewrite H. unfold lower_char.
    destruct (is_upper p) eqn:E; [|assumption].
    apply digit_not_upper in E. congruence.
  - now subst.
Qed.

Lemma only_digits_sem ic r : only_digits r = true ->
  forall s c c', sem ic r s c c' -> forallb is_digit s = true.
Proof.
  induction r as [| p | | neg items | | | r1 IH1 r2 IH2 | r1 IH1 r2 IH2
                 | lo hi r IH | j r IH | r IH]; intros Hb s c c' H;
    simpl in Hb; try discriminate; simpl in H.
  - now destruct H as [-> _].
  - destruct H as (x & -> & Hx & _). simpl.
    now rewrite (char_match_digit ic p x Hb Hx).
  - destruct neg; [discriminate|]. destruct items as [|[] [|? ?]]; try discriminate.
    destruct H as (x & -> & Hx & _). apply set_digit in Hx. simpl. now rewrite Hx.
  - now destruct H as [-> _].
  - now destruct H as [-> _].
  - apply andb_true_iff in Hb. destruct Hb as [Hb1 Hb2].
    destruct H as (s1 & s2 & cm & -> & H1 & H2). rewrite forallb_app.
    rewrite (IH1 Hb1 _ _ _ H1), (IH2 Hb2 _ _ _ H2). reflexivity.
  - apply andb_true_iff in Hb. destruct Hb as [Hb1 Hb2].
    destruct H as [H|H]; [eapply IH1|eapply IH2]; eassumption.
  - destruct H as (n & _ & _ & Hit).
    induction Hit as [|n s1 s2 c cm c' H1 Hit IHit]; [reflexivity|].
    rewrite forallb_app, (IH Hb _ _ _ H1), IHit. reflexivity.
  - destruct H as (cm & H & _). eapply IH; eassumption.
  - now destruct H as [-> _].
Qed.

Lemma isdecimal_intro s : 0 < length s -> forallb is_digit s = true -> isdecimal s = true.
Proof. destruct s; simpl; [lia|auto]. Qed.

Lemma digit_groups_sem ic r : digit_groups r = true ->
  forall s c c', sem ic r s c c' -> digit_caps c -> digit_caps c'.
Proof.
  induction r as [| p | | neg items | | | r1 IH1 r2 IH2 | r1 IH1 r2 IH2
                 | lo hi r IH | j r IH | r IH]; intros Hb s c c' H Hc;
    simpl in Hb; simpl in H.
  - now destruct H as [_ ->].
  - now destruct H as (x & _ & _ & ->).
  - now destruct H as (x & _ & _ & ->).
  - now destruct H as (x & _ & _ & ->).
  - now destruct H as [_ ->].
  - now destruct H as [_ ->].
  - apply andb_true_iff in Hb. destruct Hb as [Hb1 Hb2].
    destruct H as (s1 & s2 & cm & _ & H1 & H2). eauto.
  - apply andb_true_iff in Hb. destruct Hb as [Hb1 Hb2].
    destruct H as [H|H]; eauto.
  - destruct H as (n & _ & _ & Hit). revert Hc.
    refine (iter_ind_caps (sem ic r) (fun c c' => digit_caps c -> digit_caps c')
              _ _ _ _ _ _ _ Hit); eauto.
  - apply andb_true_iff in Hb. destruct Hb as [Hb Hg].
    apply andb_true_iff in Hb. destruct Hb as [Hd Hm]. apply Nat.ltb_lt in Hm.
    destruct H as (cm & H & ->). intros i t. simpl.
    destruct (Nat.eqb i j).
    + intros E. inversion E; subst t. apply isdecimal_intro.
      * apply minlen_sem in H. lia.
      * eapply only_digits_sem; eassumption.
    + apply (IH Hg _ _ _ H Hc).
  - now destruct H as [_ ->].
Qed.

Lemma digit_caps_nil : digit_caps [].
Proof. intros i t H. discriminate. Qed.

(** *** Literal patterns and [in] *)

Lemma lit_sem p : forall s c c', sem false (lit p) s c c' <-> s = p /\ c' = c.
Proof.
  induction p as [|x p IH]; intros s c c'; simpl; [tauto|].
  split.
  - intros (s1 & s2 & cm & -> & (y & -> & Hy & ->) & H2).
    apply IH in H2. destruct H2 as [-> ->]. apply N.eqb_eq in Hy. now subst.
  - intros [-> ->]. exists [x], p, c. repeat split.
    + exists x. repeat split. apply N.eqb_refl.
    + now apply IH.
Qed.

Lemma starts_with_spec p : forall s,
  starts_with p s = true <-> exists post, s = p ++ post.
Proof.
  induction p as [|x p IH]; intros s; simpl.
  - split; [now exists s|trivial].
  - destruct s as [|y s].
    + split; [discriminate|]. now intros [post H].
    + rewrite andb_true_iff, N.eqb_eq, IH. split.
      * intros [-> [post ->]]. now exists post.
      * intros [post H]. inversion H. split; [reflexivity|now exists post].
Qed.

Lemma contains_spec p : forall s,
  contains p s = true <-> exists pre post, s = pre ++ p ++ post.
Proof.
  induction s as [|y s IH]; simpl; rewrite orb_true_iff, starts_with_spec.
  - split.
    + intros [[post H]|H]; [now exists [], post|discriminate].
    + intros (pre & post & H). left. destruct pre; [now exists post|discriminate].
  - rewrite IH. split.
    + intros [[post H]|(pre & post & ->)]; [now exists [], post|now exists (y :: pre), post].
    + intros (pre & post & H). destruct pre as [|z pre].
      * left. now exists post.
      * right. inversion H. now exists pre, post.
Qed.

Lemma search_lit p s :
  is_some (search false (lit p) s) = contains p s.
Proof.
  destruct (contains p s) eqn:C.
  - apply contains_spec in C. destruct C as (pre & post & ->).
    destruct (search false (lit p) _) eqn:E; [reflexivity|].
    exfalso. revert E. apply search_complete with (c' := []).
    + clear. induction p; simpl; auto.
    + now apply lit_sem.
  - destruct (search false (lit p) s) as [mo|] eqn:E; [|reflexivity].
    apply search_sound in E. destruct E as (pre & post & -> & H).
    apply lit_sem in H. destruct H as [H _]. rewrite H in C.
    assert (contains p (pre ++ p ++ post) = true) by (apply contains_spec; eauto).
    congruence.
Qed.

End ReFacts.
Import ReFacts.

(* ===================================================================== *)
(** ** The patterns and the matcher at work *)
(* ===================================================================== *)

(** Every pattern of the source is within the grammar of the parser. *)
Lemma patterns_parse :
  Forall (fun r => r <> RFail)
    (title_patterns ++ date_patterns ++ map fst currency_patterns
     ++ [ title_prefix_re; structural_re; proper_name_re; business_re;
          date_like_re; amount_like_re; date_dmy_re; two_digits_re;
          amount_s_re; amount_s_group_re; amount_s_prefix_re; leading_s_re;
          one_digit_re; not_numeric_re; small_keyword_re; rupee_word_re;
          plain_number_re; label_re; claim_amount_s_re ]).
Proof. repeat constructor; discriminate. Qed.

Example date_groups_found :
  option_map (groups date_dmy_re) (search false date_dmy_re (str "Date: 13/3/2024"))
  = Some [Some (str "13"); Some (str "3"); Some (str "2024")].
Proof. reflexivity. Qed.

Example bare_number_groups :
  map (fun mo => (m_text mo, groups (fst (nth 12 currency_patterns (RFail, 0%float))) mo))
      (finditer true (fst (nth 12 currency_patterns (RFail, 0%float))) (str "$33.71 x 2"))
  = [ (str "33.71", [Some (str "33"); Some (str "71")]);
      (str "2", [Some (str "2"); None]) ].
Proof. reflexivity. Qed.

Example label_prefix_removed :
  sub_empty true title_prefix_re (str "Store: Walmart") = str "Walmart"
  /\ sub_empty true title_prefix_re (str "Store") = [].
Proof. split; reflexivity. Qed.

Example float_of_decimal :
  parse_float (str "33.71") = Some 33.71%float
  /\ parse_float (str "0.1") = Some 0.1%float
  /\ parse_float (str "9007199254740993") = Some 9007199254740992%float
  /\ parse_float (str "1.2.3") = None.
Proof. repeat split; reflexivity. Qed.

(** Scores are binary64 sums: 0.7 + 0.1 stays below 0.8, while 0.8 + 0.1
    is 0.9 and 0.9 + 0.1 is 1. *)
Example score_arithmetic :
  PrimFloat.ltb (0.7 + 0.1) 0.8 = true /\ (0.8 + 0.1)%float = 0.9%float
  /\ (0.9 + 0.1)%float = 1%float.
Proof. repeat split; reflexivity. Qed.

(** Every match of every pattern is collected: "Total: $33.71" gives the
    amount with its symbol and, by the pattern "total ... digits", the
    integer part as a second candidate. *)
Example total_line_candidates :
  amount_line [] (mkline (str "Total: $33.71") 0.9 (str "otsu"))
  = [ mkcand 33.71 USD (str "Total: $33.71") 1;
      mkcand 33 UNKNOWN (str "Total: $33.71") 1 ].
Proof. vm_compute. reflexivity. Qed.

(** C1 (end-to-end scenario).  For the detections "Total: $33.71" (0.9),
    "Date: 03/15/2024" (0.85) and "DOMINO'S PIZZA" (0.95), whatever the
    variants they come from, extraction returns the record with title
    "DOMINO'S PIZZA", date "03/15/2024", amount 33.71 and currency USD; its
    raw text lists the three lines by descending confidence. *)
Theorem end_to_end_scenario (v1 v2 v3 : text) :
  extract_receipt_data
    [ mkdet (str "Total: $33.71") 0.9 v1;
      mkdet (str "Date: 03/15/2024") 0.85 v2;
      mkdet (str "DOMINO'S PIZZA") 0.95 v3 ]
  = Some (mkreceipt (str "DOMINO'S PIZZA") (str "03/15/2024") 33.71 USD
            [str "DOMINO'S PIZZA"; str "Total: $33.71"; str "Date: 03/15/2024"]).
Proof. vm_compute. reflexivity. Qed.

(** C3 (year rejection), evaluated on the source.  For a lone detection
    "2024", of any confidence and variant, the pattern cascade leaves no
    candidate (the year filter drops 2024), and the last-resort scan for a
    plain number then returns 2024 all the same, with currency UNKNOWN: the
    year that the filter rejected is the selected amount. *)
Theorem lone_year_is_selected (c : Q) (v : text) :
  extract_amount_enhanced (deduplicated_results [mkdet (str "2024") c v])
  = Some (mkamount 2024 UNKNOWN)
  /\ amount_candidates (deduplicated_results [mkdet (str "2024") c v]) = Some [].
Proof. split; vm_compute; reflexivity. Qed.

Example amount_confusion (c : Q) (v : text) :
  extract_amount_enhanced (deduplicated_results [mkdet (str "Amount: S92") c v])
  = Some (mkamount 92 USD).
Proof. vm_compute. reflexivity. Qed.

Example date_example (c : Q) (v : text) :
  extract_date_enhanced (deduplicated_results [mkdet (str "Date: 13/3/2024") c v])
  = str "03/13/2024".
Proof. vm_compute. reflexivity. Qed.

(* ===================================================================== *)
(** ** Loops *)
(* ===================================================================== *)

Lemma first_some_app {A B} (f : A -> option B) l1 l2 :
  first_some f (l1 ++ l2) =
  match first_some f l1 with
  | Some b => Some b
  | None => first_some f l2
  end.
Proof.
  induction l1 as [|x l1 IH]; simpl; [reflexivity|].
  destruct (f x); [reflexivity|apply IH].
Qed.

Lemma first_some_none {A B} (f : A -> option B) l :
  (forall x, In x l -> f x = None) -> first_some f l = None.
Proof.
  induction l as [|x l IH]; intros H; simpl; [reflexivity|].
  rewrite (H x (or_introl eq_refl)). apply IH. intros y Hy. apply H. now right.
Qed.

Lemma first_some_only {A B} (f : A -> option B) pre x post :
  (forall y, In y (pre ++ post) -> f y = None) ->
  first_some f (pre ++ x :: post) = f x.
Proof.
  intros H. rewrite first_some_app, first_some_none.
  - simpl. destruct (f x); [reflexivity|]. apply first_some_none.
    intros y Hy. apply H, in_or_app. now right.
  - intros y Hy. apply H, in_or_app. now left.
Qed.

(* ===================================================================== *)
(** ** Dates *)
(* ===================================================================== *)

Lemma int_of_digits s : isdecimal s = true -> int_of_text s = Some (num s).
Proof. intros H. unfold int_of_text. now rewrite H. Qed.

(** Every match of the date pattern sets its three groups to runs of
    digits. *)
Lemma date_groups s caps mo :
  sem false date_dmy_re s [] caps -> m_caps mo = caps ->
  exists a b y, groups date_dmy_re mo = [Some a; Some b; Some y]
                /\ isdecimal a = true /\ isdecimal b = true /\ isdecimal y = true.
Proof.
  intros H <-.
  pose proof (digit_groups_sem false date_dmy_re eq_refl _ _ _ H digit_caps_nil) as D.
  pose proof (binds_sem false 1 date_dmy_re eq_refl _ _ _ H) as B1.
  pose proof (binds_sem false 2 date_dmy_re eq_refl _ _ _ H) as B2.
  pose proof (binds_sem false 3 date_dmy_re eq_refl _ _ _ H) as B3.
  unfold groups, group. simpl.
  destruct (get 1 (m_caps mo)) as [a|] eqn:E1; [|congruence].
  destruct (get 2 (m_caps mo)) as [b|] eqn:E2; [|congruence].
  destruct (get 3 (m_caps mo)) as [y|] eqn:E3; [|congruence].
  exists a, b, y. repeat split; eauto.
Qed.

Lemma date_triple_search res a b y :
  date_triple res = Some (a, b, y) ->
  exists mo, search false date_dmy_re (strip (l_text res)) = Some mo
             /\ groups date_dmy_re mo = [Some a; Some b; Some y]
             /\ isdecimal a = true /\ isdecimal b = true.
Proof.
  unfold date_triple. destruct (search false date_dmy_re _) as [mo|] eqn:E; [|discriminate].
  intros H. exists mo. split; [reflexivity|].
  apply search_sound in E. destruct E as (pre & post & _ & Hs).
  destruct (date_groups _ _ mo Hs eq_refl) as (a' & b' & y' & G & Ha & Hb & _).
  rewrite G in H. inversion H; subst. auto.
Qed.

Lemma date_triple_none res :
  date_triple res = None -> search false date_dmy_re (strip (l_text res)) = None.
Proof.
  unfold date_triple. destruct (search false date_dmy_re _) as [mo|] eqn:E; [|reflexivity].
  apply search_sound in E. destruct E as (pre & post & _ & Hs).
  destruct (date_groups _ _ mo Hs eq_refl) as (a' & b' & y' & G & _).
  rewrite G. discriminate.
Qed.

Lemma findall_none r s : search false r s = None -> findall false r s = [].
Proof. intros H. unfold findall. rewrite finditer_head, H. reflexivity. Qed.

Lemma findall_head r s mo :
  search false r s = Some mo ->
  exists rest,
    findall false r s =
    map (fun g => match g with Some x => x | None => [] end) (groups r mo) :: rest.
Proof.
  intros H. unfold findall. rewrite finditer_head, H. simpl. eauto.
Qed.

Lemma date_labelled_none res : date_triple res = None -> date_labelled res = None.
Proof.
  intros H. apply date_triple_none in H. unfold date_labelled.
  rewrite (findall_none _ _ H). now destruct (contains _ _).
Qed.

Lemma date_direct_none res : date_triple res = None -> date_direct res = None.
Proof. intros H. apply date_triple_none in H. unfold date_direct. now rewrite H. Qed.

Lemma date_labelled_triple res a b y :
  date_triple res = Some (a, b, y) ->
  date_labelled res =
  if has_date_label res && day_first a then Some (format_date b a y) else None.
Proof.
  intros H. apply date_triple_search in H. destruct H as (mo & E & G & Ha & _).
  unfold date_labelled, has_date_label, day_first.
  destruct (contains (str "date") _); [|reflexivity].
  destruct (findall_head _ _ _ E) as [rest ->]. rewrite G. simpl map.
  cbv iota. rewrite (int_of_digits _ Ha). reflexivity.
Qed.

Lemma date_direct_triple res a b y :
  date_triple res = Some (a, b, y) ->
  date_direct res =
  Some (if day_first a && (num b <=? 12)%Z then format_date b a y
        else format_date a b y).
Proof.
  intros H. apply date_triple_search in H. destruct H as (mo & E & G & Ha & Hb).
  unfold date_direct, day_first. rewrite E, G, (int_of_digits _ Ha), (int_of_digits _ Hb).
  destruct ((12 <? num a)%Z && (num a <=? 31)%Z); [|reflexivity].
  now destruct (num b <=? 12)%Z.
Qed.

(** C2 as stated does not hold: the unlabelled line "13/14/2024" yields the
    triple (13, 14, 2024) and the date "13/14/2024", where the rule of the
    specification gives "14/13/2024". *)
Lemma date_rule_same_with_or_without_label_fails :
  ~ (forall res a b y,
        date_triple res = Some (a, b, y) ->
        extract_date_enhanced [res] = spec_date_rule a b y).
Proof.
  intros H.
  specialize (H (mkline (str "13/14/2024") 0.9 (str "otsu"))
                (str "13") (str "14") (str "2024") eq_refl).
  vm_compute in H. discriminate.
Qed.

(* ===================================================================== *)
(** ** The amount filter *)
(* ===================================================================== *)

Lemma search_alt ic r1 r2 s :
  simple r1 = true -> simple r2 = true ->
  is_some (search ic (RAlt r1 r2) s)
  = is_some (search ic r1 s) || is_some (search ic r2 s).
Proof.
  intros S1 S2.
  destruct (search ic (RAlt r1 r2) s) as [mo|] eqn:E; simpl.
  - apply search_sound in E. destruct E as (pre & post & -> & [H|H]).
    + pose proof (search_complete ic r1 pre _ post _ S1 H) as C.
      destruct (search ic r1 _); [reflexivity|congruence].
    + pose proof (search_complete ic r2 pre _ post _ S2 H) as C.
      destruct (search ic r2 _); [simpl; now rewrite orb_true_r|congruence].
  - destruct (search ic r1 s) as [mo|] eqn:E1; simpl.
    + apply search_sound in E1. destruct E1 as (pre & post & -> & H).
      exfalso. revert E. apply search_complete with (c' := m_caps mo).
      * simpl. now rewrite S1, S2.
      * now left.
    + destruct (search ic r2 s) as [mo|] eqn:E2; [|reflexivity].
      apply search_sound in E2. destruct E2 as (pre & post & -> & H).
      exfalso. revert E. apply search_complete with (c' := m_caps mo).
      * simpl. now rewrite S1, S2.
      * now right.
Qed.

Lemma simple_lit p : simple (lit p) = true.
Proof. induction p; simpl; auto. Qed.

Lemma small_keyword_search t :
  is_some (search false small_keyword_re (lower t)) = has_keyword small_keywords t.
Proof.
  change small_keyword_re with
    (RAlt (lit (str "amount"))
       (RAlt (lit (str "total")) (RAlt (lit (str "sum")) (lit (str "price"))))).
  rewrite !search_alt, !search_lit by (try apply simple_lit; reflexivity).
  unfold has_keyword, small_keywords. simpl existsb. now rewrite orb_false_r, !orb_assoc.
Qed.

(** C4 as stated does not hold: the candidate 2000 parsed from
    "Total: 2000" is rejected although its line has the keyword "total", and
    the candidate 0.5 parsed from "cost 0.50" is rejected although its line
    has the keyword "cost". *)
Lemma filter_keyword_exception_fails :
  parse_float (str "2000") = Some 2000%float
  /\ passes_filter 2000 (str "Total: 2000") = false
  /\ spec_passes_filter 2000 (str "Total: 2000") = true
  /\ parse_float (str "0.50") = Some 0.5%float
  /\ passes_filter 0.5 (str "cost 0.50") = false
  /\ spec_passes_filter 0.5 (str "cost 0.50") = true.
Proof. repeat split; vm_compute; reflexivity. Qed.

(** C4, amended.  A parsed candidate passes the filter exactly when it is
    not an integer value in [1900, 2100] (a monetary keyword on the line
    does not lift this rejection) and it is at least 1 or its lower-cased
    line contains one of "amount", "total", "sum", "price". *)
Theorem filter_rule (amount : float) (t : text) :
  passes_filter amount t =
  negb (PrimFloat.leb 1900 amount && PrimFloat.leb amount 2100 && is_integer amount)
  && (negb (PrimFloat.ltb amount 1) || has_keyword small_keywords t).
Proof.
  unfold passes_filter, likely_year, small_value. rewrite small_keyword_search.
  f_equal. rewrite negb_andb, negb_involutive. reflexivity.
Qed.

(* ===================================================================== *)
(** ** Titles *)
(* ===================================================================== *)

Lemma title_try_total t p : In p title_patterns -> title_try t p <> None.
Proof.
  intros Hp. unfold title_try.
  destruct (search true p t) as [mo|] eqn:E; [|discriminate].
  apply search_sound in E. destruct E as (pre & post & _ & Hs).
  assert (B : binds 1 p = true).
  { simpl in Hp. destruct Hp as [<-|[<-|[<-|[]]]]; reflexivity. }
  pose proof (binds_sem true 1 p B _ _ _ Hs) as G. unfold group.
  destruct (get 1 (m_caps mo)); [|congruence].
  destruct (_ && _); discriminate.
Qed.

Lemma first_raising_total {A B} (f : A -> option (option B)) l :
  (forall x, In x l -> f x <> None) -> first_raising f l <> None.
Proof.
  induction l as [|x l IH]; intros H; simpl; [discriminate|].
  pose proof (H x (or_introl eq_refl)) as Hx.
  destruct (f x) as [[b|]|]; [discriminate| |congruence].
  apply IH. intros y Hy. apply H. now right.
Qed.

Lemma title_line_total t : first_raising (title_try t) title_patterns <> None.
Proof. apply first_raising_total. intros p Hp. now apply title_try_total. Qed.

Lemma title_first_pass_total rs : title_first_pass rs <> None.
Proof. apply first_raising_total. intros res _. apply title_line_total. Qed.

Lemma label_is_first : exists rest, title_patterns = label_re :: rest.
Proof. eexists. reflexivity. Qed.

Lemma label_anchored_line res t :
  label_anchored res = Some t ->
  first_raising (title_try (strip (l_text res))) title_patterns = Some (Some t).
Proof.
  unfold label_anchored. destruct label_is_first as [rest ->]. simpl.
  destruct (title_try (strip (l_text res)) label_re) as [[t'|]|]; try discriminate.
  now intros H; inversion H.
Qed.

Lemma first_pass_finds rs res t :
  In res rs -> label_anchored res = Some t ->
  exists t', title_first_pass rs = Some (Some t').
Proof.
  intros Hin Hl. unfold title_first_pass.
  induction rs as [|r rs IH]; [destruct Hin|]. cbn [first_raising].
  pose proof (title_line_total (strip (l_text r))) as T.
  destruct (first_raising (title_try (strip (l_text r))) title_patterns)
    as [[t'|]|] eqn:E; [eauto| |congruence].
  destruct Hin as [->|Hin]; [|auto].
  rewrite (label_anchored_line _ _ Hl) in E. discriminate.
Qed.

Lemma first_pass_skips pre res post t :
  (forall r p, In r pre -> In p title_patterns ->
               title_try (strip (l_text r)) p = Some None) ->
  label_anchored res = Some t ->
  title_first_pass (pre ++ res :: post) = Some (Some t).
Proof.
  intros Hpre Hl. unfold title_first_pass.
  induction pre as [|r pre IH]; cbn [first_raising app].
  - now rewrite (label_anchored_line _ _ Hl).
  - assert (E : first_raising (title_try (strip (l_text r))) title_patterns = Some None).
    { assert (Hr : forall p, In p title_patterns ->
                             title_try (strip (l_text r)) p = Some None)
        by (intros p Hp; apply Hpre; [now left|assumption]).
      clear -Hr. induction title_patterns as [|p ps IHp]; simpl; [reflexivity|].
      rewrite (Hr p (or_introl eq_refl)). apply IHp. intros q Hq. apply Hr. now right. }
    rewrite E. apply IH. intros r' p Hr' Hp. apply Hpre; [now right|assumption].
Qed.

(** C6 as stated does not hold: in the ranked list "ACME SHOP",
    "Store: Walmart" the second line has a label-anchored match, yet the
    title is "ACME SHOP", which the generic line pattern of the first pass
    captured on the first line. *)
Lemma label_tier_priority_fails :
  ~ (forall rs,
        (exists res, In res rs /\ has_label_match res = true) ->
        exists res, In res rs /\ label_anchored res <> None
                    /\ extract_title_enhanced rs = label_anchored res).
Proof.
  intros H.
  destruct (H [ mkline (str "ACME SHOP") 0.95 (str "otsu");
                mkline (str "Store: Walmart") 0.9 (str "otsu") ])
    as (res & Hin & Hl & E).
  - eexists. split; [right; left; reflexivity|]. vm_compute. reflexivity.
  - destruct Hin as [<-|[<-|[]]].
    + apply Hl. vm_compute. reflexivity.
    + vm_compute in E. discriminate.
Qed.

(** A label-anchored match that the guard rejects does not end the
    cascade: on "Name: Al" every capture of the first pass cleans up to
    "Al", and the line is then collected as a first-line candidate. *)
Example rejected_label_reaches_collection :
  let rs := [mkline (str "Name: Al") 0.9 (str "otsu")] in
  forallb has_label_match rs = true
  /\ title_first_pass rs = Some None
  /\ merchant_name_candidates rs = [mkname (str "Name: Al") 0.5 (str "first line")]
  /\ extract_title_enhanced rs = Some (str "Name: Al").
Proof. repeat split; vm_compute; reflexivity. Qed.

(** C6, amended.  The first pass tries, on each line in rank order, the
    label pattern, then the generic 3-30 character line pattern, then the
    proper-noun pattern.  If some line has a label-anchored match that the
    guard against leftover labels accepts, the title is returned by this
    first pass, so candidate collection and the later fallbacks are not
    reached; and when no pattern of the first pass yields an accepted title
    on the lines ranked before it, the title is that label-anchored
    capture. *)
Theorem accepted_label_ends_cascade (rs : list line) :
  (forall res t,
      In res rs -> label_anchored res = Some t ->
      exists t', title_first_pass rs = Some (Some t')
                 /\ extract_title_enhanced rs = Some t')
  /\ (forall pre res post t,
         rs = pre ++ res :: post ->
         (forall r p, In r pre -> In p title_patterns ->
                      title_try (strip (l_text r)) p = Some None) ->
         label_anchored res = Some t ->
         extract_title_enhanced rs = Some t).
Proof.
  split.
  - intros res t Hin Hl. destruct (first_pass_finds rs res t Hin Hl) as [t' E].
    exists t'. split; [assumption|]. unfold extract_title_enhanced. now rewrite E.
  - intros pre res post t -> Hpre Hl. unfold extract_title_enhanced.
    now rewrite (first_pass_skips pre res post t Hpre Hl).
Qed.

(* ===================================================================== *)
(** ** The dollar sign read as "S" *)
(* ===================================================================== *)

Lemma lit_then_sem p rest : forall s c c',
  sem false rest s c c' -> sem false (lit_then p rest) (p ++ s) c c'.
Proof.
  induction p as [|x p IH]; intros s c c' H; simpl; [assumption|].
  exists [x], (p ++ s), c. repeat split; [|now apply IH].
  exists x. repeat split. apply N.eqb_refl.
Qed.

Lemma class_iter ic neg items c : forall s,
  forallb (set_match ic neg items) s = true ->
  iter (sem ic (RSet neg items)) (length s) s c c.
Proof.
  induction s as [|x s IH]; simpl; intros H; [constructor|].
  apply andb_true_iff in H. destruct H as [Hx Hs].
  change (x :: s) with ([x] ++ s). econstructor; [|now apply IH].
  simpl. now exists x.
Qed.

Lemma star_class ic neg items s c :
  forallb (set_match ic neg items) s = true ->
  sem ic (RRep 0 None (RSet neg items)) s c c.
Proof.
  intros H. exists (length s). split; [lia|]. split; [exact I|]. now apply class_iter.
Qed.

Lemma forallb_same {A} (f g : A -> bool) s :
  (forall x, f x = g x) -> forallb f s = forallb g s.
Proof. intros H. induction s as [|x s IH]; simpl; [reflexivity|]. now rewrite H, IH. Qed.

Lemma spaces_class ic s :
  forallb is_space s = true -> forallb (set_match ic false [CSpace]) s = true.
Proof.
  intros H. rewrite <- H. apply forallb_same.
  intros x. unfold set_match. simpl. now rewrite orb_false_r.
Qed.

Lemma digits_class ic s :
  forallb is_digit s = true -> forallb (set_match ic false [CDigit]) s = true.
Proof.
  intros H. rewrite <- H. apply forallb_same.
  intros x. unfold set_match. simpl. now rewrite orb_false_r.
Qed.

Lemma isdecimal_elim s : isdecimal s = true -> 0 < length s /\ forallb is_digit s = true.
Proof. destruct s; simpl; [discriminate|]. intros H. split; [lia|assumption]. Qed.

Lemma seq_sem ic r1 r2 s1 s2 c cm c' :
  sem ic r1 s1 c cm -> sem ic r2 s2 cm c' -> sem ic (RSeq r1 r2) (s1 ++ s2) c c'.
Proof. intros H1 H2. now exists s1, s2, cm. Qed.

Lemma optional_colon colon c :
  colon = [] \/ colon = str ":" ->
  sem false (RRep 0 (Some 1) (RChar (ch ":"))) colon c c.
Proof.
  intros [->| ->].
  - exists 0. split; [lia|]. split; [lia|]. constructor.
  - exists 1. split; [lia|]. split; [lia|].
    apply (@iter_S (sem false (RChar (ch ":"))) 0 [ch ":"] [] c c c); [|constructor].
    exists (ch ":"). now repeat split.
Qed.

Lemma amount_s_shape :
  amount_s_re = lit_then (str "amount") (after_amount (fun r => r))
  /\ amount_s_group_re
     = lit_then (str "amount") (after_amount (fun r => RGroup 1 (RSeq r REmpty))).
Proof. split; reflexivity. Qed.

Lemma digits_plus ds c :
  isdecimal ds = true -> sem false (RRep 1 None (RSet false [CDigit])) ds c c.
Proof.
  intros H. apply isdecimal_elim in H. destruct H as [Hl Hd].
  exists (length ds). split; [lia|]. split; [exact I|].
  apply class_iter. now apply digits_class.
Qed.

Lemma after_amount_sem wrap colon ws1 ws2 ds c c' :
  colon = [] \/ colon = str ":" ->
  forallb is_space ws1 = true -> forallb is_space ws2 = true ->
  sem false (wrap (RRep 1 None (RSet false [CDigit]))) ds c c' ->
  sem false (after_amount wrap) (colon ++ ws1 ++ str "s" ++ ws2 ++ ds) c c'.
Proof.
  intros Hc H1 H2 Hd. unfold after_amount.
  change (colon ++ ws1 ++ str "s" ++ ws2 ++ ds)
    with ([] ++ colon ++ ws1 ++ [ch "s"] ++ ws2 ++ ds).
  apply seq_sem with (cm := c); [now apply star_class|].
  apply seq_sem with (cm := c); [now apply optional_colon|].
  apply seq_sem with (cm := c); [now apply star_class, spaces_class|].
  apply seq_sem with (cm := c); [simpl; now exists (ch "s")|].
  apply seq_sem with (cm := c); [now apply star_class, spaces_class|].
  replace ds with (ds ++ []) by apply app_nil_r.
  apply seq_sem with (cm := c'); [assumption|now split].
Qed.

Lemma simple_amount_s : simple amount_s_re = true /\ simple amount_s_group_re = true.
Proof. split; reflexivity. Qed.

Lemma parse_float_digits d : isdecimal d = true -> parse_float d <> None.
Proof.
  intros H. apply isdecimal_elim in H. destruct H as [Hl Hd]. unfold parse_float.
  assert (E : span_digits d = (d, [])).
  { clear Hl. induction d as [|x d IH]; simpl in *; [reflexivity|].
    apply andb_true_iff in Hd. destruct Hd as [-> Hd]. now rewrite (IH Hd). }
  rewrite E. destruct d; [simpl in Hl; lia|discriminate].
Qed.

Lemma digit_lower x : is_digit (lower_char x) = is_digit x.
Proof.
  unfold lower_char. destruct (is_upper x) eqn:U; [|reflexivity].
  rewrite (digit_not_upper _ U).
  unfold is_upper, in_range in U.
  apply andb_true_iff in U. destruct U as [U1 U2]. apply N.leb_le in U1, U2.
  destruct (is_digit (x + 32)%N) eqn:D; [|reflexivity].
  apply is_digit_cases in D. lia.
Qed.

Lemma no_digit_lower s : existsb is_digit (lower s) = existsb is_digit s.
Proof.
  induction s as [|x s IH]; simpl; [reflexivity|]. now rewrite digit_lower, IH.
Qed.

Lemma space_lower x : is_space (lower_char x) = is_space x.
Proof.
  unfold lower_char. destruct (is_upper x) eqn:U; [|reflexivity].
  unfold is_upper, in_range in U.
  apply andb_true_iff in U. destruct U as [U1 U2]. apply N.leb_le in U1, U2.
  assert (E : forall y, (65 <= y <= 122)%N -> is_space y = false).
  { intros y Hy. unfold is_space, in_range.
    repeat match goal with
           | |- context [(?a <=? ?b)%N] => destruct (N.leb_spec a b)
           | |- context [(?a =? ?b)%N] => destruct (N.eqb_spec a b)
           end; try reflexivity; lia. }
  rewrite !E by lia. reflexivity.
Qed.

Lemma lower_app a b : lower (a ++ b) = lower a ++ lower b.
Proof. apply map_app. Qed.

(** *** Reading a match of the pattern of the specification *)

Lemma seq_inv ic r1 r2 s c c' :
  sem ic (RSeq r1 r2) s c c' ->
  exists s1 s2 cm, s = s1 ++ s2 /\ sem ic r1 s1 c cm /\ sem ic r2 s2 cm c'.
Proof. intros H. exact H. Qed.

Lemma char_inv p s c c' :
  sem true (RChar p) s c c' ->
  exists x, s = [x] /\ lower_char x = lower_char p /\ c' = c.
Proof.
  intros (x & -> & H & ->). exists x. repeat split. now apply N.eqb_eq in H.
Qed.

Lemma class_iter_inv ic neg items n s c c' :
  iter (sem ic (RSet neg items)) n s c c' ->
  c' = c /\ length s = n /\ forallb (set_match ic neg items) s = true.
Proof.
  induction 1 as [|n s1 s2 c cm c' H1 Hit IH]; [now repeat split|].
  destruct H1 as (x & -> & Hx & ->). destruct IH as (-> & <- & Hs).
  repeat split. simpl. now rewrite Hx, Hs.
Qed.

Lemma rep_class_inv ic lo hi neg items s c c' :
  sem ic (RRep lo hi (RSet neg items)) s c c' ->
  c' = c /\ lo <= length s
  /\ match hi with Some h => length s <= h | None => True end
  /\ forallb (set_match ic neg items) s = true.
Proof.
  intros (n & Hlo & Hhi & Hit). apply class_iter_inv in Hit.
  destruct Hit as (-> & <- & Hs). now repeat split.
Qed.

Lemma class_lower (f : char -> bool) ic it s :
  (forall x, set_match ic false [it] x = f x) ->
  (forall x, f (lower_char x) = f x) ->
  forallb (set_match ic false [it]) s = true -> forallb f (lower s) = true.
Proof.
  intros H1 H2. unfold lower. induction s as [|x s IH]; [reflexivity|].
  cbn [map forallb]. intros H. apply andb_true_iff in H. destruct H as [Hx H].
  rewrite H1 in Hx. rewrite H2, Hx. now apply IH.
Qed.

Lemma set_one ic it x : set_match ic false [it] x = item_match ic it x.
Proof. unfold set_match. simpl. now rewrite orb_false_r. Qed.

Lemma claim_pattern_match t :
  search true claim_amount_s_re t <> None -> matches_amount_s t.
Proof.
  destruct (search true claim_amount_s_re t) as [mo|] eqn:E; [intros _|congruence].
  apply search_sound in E. destruct E as (pre & post & -> & Hs).
  unfold claim_amount_s_re in Hs.
  repeat (apply seq_inv in Hs;
          let s1 := fresh "s" in let H1 := fresh "H" in
          destruct Hs as (s1 & ? & ? & -> & H1 & Hs)).
  destruct Hs as [-> _].
  repeat match goal with
         | H : sem true (RChar _) _ _ _ |- _ =>
           apply char_inv in H; destruct H as (? & -> & ? & ->)
         | H : sem true (RRep _ _ (RSet _ _)) _ _ _ |- _ =>
           apply rep_class_inv in H; destruct H as (-> & ? & ? & ?)
         end.
  match goal with
  | |- matches_amount_s (pre ++ (_ ++ _ ++ _ ++ _ ++ _ ++ _ ++ ?colon ++ ?ws1 ++ _ ++ ?ws2 ++ ?ds ++ []) ++ post) =>
    exists (lower pre), (lower colon), (lower ws1), (lower ws2), (lower ds), (lower post)
  end.
  split; [|split; [|split; [|split]]].
  - rewrite !lower_app. simpl lower.
    repeat match goal with H : lower_char _ = _ |- _ => rewrite H; clear H end.
    rewrite app_nil_r. repeat (rewrite <- app_assoc; simpl). reflexivity.
  - match goal with
    | Hl : length ?colon <= 1, Hc : forallb _ ?colon = true |- lower ?colon = [] \/ _ =>
      destruct colon as [|x0 [|y0 colon]]; simpl in Hl; [now left| |lia];
      right; cbn [forallb] in Hc; apply andb_true_iff in Hc; destruct Hc as [Hc _];
      rewrite set_one in Hc; apply N.eqb_eq in Hc; unfold lower; cbn [map];
      rewrite Hc; reflexivity
    end.
  - apply (class_lower is_space true CSpace);
      [intros ?; apply set_one|apply space_lower|assumption].
  - apply (class_lower is_space true CSpace);
      [intros ?; apply set_one|apply space_lower|assumption].
  - apply isdecimal_intro.
    + unfold lower. rewrite length_map. assumption.
    + apply (class_lower is_digit true CDigit);
        [intros ?; apply set_one|apply digit_lower|assumption].
Qed.

(** The first loop never raises: group 1 of its pattern is always set, to
    a run of digits. *)
Lemma confusion_group mo u :
  search false amount_s_group_re u = Some mo ->
  exists d, group 1 mo = Some d /\ isdecimal d = true.
Proof.
  intros E. apply search_sound in E. destruct E as (pre & post & _ & Hs).
  pose proof (binds_sem false 1 amount_s_group_re eq_refl _ _ _ Hs) as B.
  pose proof (digit_groups_sem false amount_s_group_re eq_refl _ _ _ Hs digit_caps_nil) as D.
  unfold group. destruct (get 1 (m_caps mo)) as [d|] eqn:G; [|congruence].
  exists d. split; [reflexivity|]. eapply D; eassumption.
Qed.

Lemma confusion_step_total res : confusion_step res <> None.
Proof.
  unfold confusion_step. destruct (is_some _); [|discriminate].
  destruct (search false amount_s_group_re _) as [mo|] eqn:E; [|discriminate].
  destruct (confusion_group _ _ E) as (d & -> & _).
  destruct (parse_float d); discriminate.
Qed.

Lemma confusion_candidates_total rs : confusion_candidates rs <> None.
Proof.
  induction rs as [|res rs IH]; simpl; [discriminate|].
  pose proof (confusion_step_total res).
  destruct (confusion_step res); [|congruence].
  destruct (confusion_candidates rs); [discriminate|congruence].
Qed.

Lemma confusion_step_match res :
  matches_amount_s (strip (l_text res)) ->
  exists d amount,
    isdecimal d = true /\ parse_float d = Some amount
    /\ confusion_step res = Some [mkcand amount USD (strip (l_text res)) 0.95].
Proof.
  intros (pre & colon & ws1 & ws2 & ds & post & E & Hc & H1 & H2 & Hd).
  unfold confusion_step. rewrite E.
  destruct amount_s_shape as [S1 S2]. destruct simple_amount_s as [P1 P2].
  assert (M1 : search false amount_s_re
                 (pre ++ (str "amount" ++ colon ++ ws1 ++ str "s" ++ ws2 ++ ds) ++ post)
               <> None).
  { apply search_complete with (c' := []); [assumption|].
    rewrite S1. apply lit_then_sem. apply after_amount_sem; auto.
    now apply digits_plus. }
  assert (M2 : search false amount_s_group_re
                 (pre ++ (str "amount" ++ colon ++ ws1 ++ str "s" ++ ws2 ++ ds) ++ post)
               <> None).
  { apply search_complete with (c' := [(1, ds)]); [assumption|].
    rewrite S2. apply lit_then_sem. apply after_amount_sem; auto.
    simpl. exists []. split; [|reflexivity].
    exists ds, [], []. rewrite app_nil_r. repeat split.
    apply digits_plus with (c := []) in Hd. exact Hd. }
  rewrite <- !app_assoc in M1, M2.
  destruct (search false amount_s_re _); [|congruence]. simpl.
  destruct (search false amount_s_group_re _) as [mo|] eqn:G; [|congruence].
  destruct (confusion_group _ _ G) as (d & -> & Dd).
  destruct (parse_float d) as [amount|] eqn:F;
    [|exfalso; now apply (parse_float_digits d Dd)].
  now exists d, amount.
Qed.

(** The second pass never drops a candidate nor changes its amount or its
    currency: a merge only rewrites score and source text. *)
Lemma merge_holds a cur : forall cands amount code t confidence,
  holds a cur cands -> holds a cur (merge cands amount code t confidence).
Proof.
  induction cands as [|x cands IH]; intros amount code t confidence (c & Hc & Ha & Hcur).
  - destruct Hc.
  - simpl. destruct (same_amount (c_amount x) amount).
    + destruct Hc as [->|Hc].
      * destruct (PrimFloat.ltb (c_confidence c) confidence);
          eexists; (split; [left; reflexivity|]); simpl; auto.
      * exists c. split; [now right|auto].
    + destruct Hc as [->|Hc].
      * exists c. split; [now left|auto].
      * destruct (IH amount code t confidence (ex_intro _ c (conj Hc (conj Ha Hcur))))
          as (c' & Hc' & Ha' & Hcur').
        exists c'. split; [now right|auto].
Qed.

Lemma fold_left_inv {A B} (P : A -> Prop) (f : A -> B -> A) l :
  (forall a b, P a -> P (f a b)) -> forall a, P a -> P (fold_left f l a).
Proof.
  intros H. induction l as [|b l IH]; intros a Ha; simpl; [assumption|].
  apply IH, H, Ha.
Qed.

Lemma second_pass_holds a cur rs cands :
  holds a cur cands -> holds a cur (fold_left amount_line rs cands).
Proof.
  apply fold_left_inv. intros acc res. unfold amount_line.
  apply fold_left_inv. intros acc1 ps.
  apply fold_left_inv. intros acc2 mo H. unfold amount_step.
  destruct (split_groups _) as [[[[|c0 amount_str]|] ci]|]; try assumption.
  destruct (parse_float _); [|assumption].
  destruct (passes_filter _ _); [|assumption].
  now apply merge_holds.
Qed.

(** C5 (the dollar sign read as "S").  For every list of lines handed to
    the amount extractor and every line of it that the pattern
    amount[:]?\s*s\s*<digits> of the specification matches without regard
    to case, the first loop produces a candidate with currency USD, score
    0.95 and that line as source text, its amount being the value of a run
    of digits; the second pass may raise its score and replace its source
    text, but the final candidate list still holds a candidate with that
    amount and currency USD.  The line "Amount: S92" alone yields amount
    92.0 with currency USD. *)
Theorem confusion_candidate_produced (rs : list line) (res : line) :
  In res rs -> search true claim_amount_s_re (strip (l_text res)) <> None ->
  (exists cands c d final,
      confusion_candidates rs = Some cands /\ In c cands
      /\ c_currency c = USD /\ c_confidence c = 0.95%float
      /\ c_text c = strip (l_text res)
      /\ isdecimal d = true /\ parse_float d = Some (c_amount c)
      /\ amount_candidates rs = Some final
      /\ holds (c_amount c) USD final)
  /\ forall q v,
       extract_amount_enhanced (deduplicated_results [mkdet (str "Amount: S92") q v])
       = Some (mkamount 92 USD).
Proof.
  intros Hin Hm. apply claim_pattern_match in Hm.
  split; [|intros; vm_compute; reflexivity].
  assert (F : exists cands c d,
             confusion_candidates rs = Some cands /\ In c cands
             /\ c_currency c = USD /\ c_confidence c = 0.95%float
             /\ c_text c = strip (l_text res)
             /\ isdecimal d = true /\ parse_float d = Some (c_amount c)).
  { induction rs as [|r rs IH]; [destruct Hin|]. simpl.
    pose proof (confusion_candidates_total rs) as T.
    destruct Hin as [->|Hin].
    - destruct (confusion_step_match res Hm) as (d & amount & Dd & F & ->).
      destruct (confusion_candidates rs) as [b|]; [|congruence].
      eexists _, (mkcand amount USD (strip (l_text res)) 0.95), d.
      split; [reflexivity|]. split; [now left|]. now repeat split.
    - destruct (IH Hin) as (cands & c & d & E & Hc & R).
      pose proof (confusion_step_total r) as Tr.
      destruct (confusion_step r) as [a|]; [|congruence].
      rewrite E. exists (a ++ cands), c, d. split; [reflexivity|].
      split; [apply in_or_app; now right|assumption]. }
  destruct F as (cands & c & d & E & Hc & Hcur & R).
  exists cands, c, d, (fold_left amount_line rs cands).
  split; [assumption|]. split; [assumption|]. split; [assumption|].
  destruct R as (R1 & R2 & R3 & R4). repeat (split; [assumption|]).
  split; [unfold amount_candidates; now rewrite E|].
  apply second_pass_holds. exists c. auto.
Qed.

Lemma confusion_candidate_produced_witness :
  exists cands c d final,
    confusion_candidates [mkline (str "Amount: S92") 0.9 (str "otsu")] = Some cands
    /\ In c cands
    /\ c_currency c = USD /\ c_confidence c = 0.95%float
    /\ c_text c = strip (str "Amount: S92")
    /\ isdecimal d = true /\ parse_float d = Some (c_amount c)
    /\ amount_candidates [mkline (str "Amount: S92") 0.9 (str "otsu")] = Some final
    /\ holds (c_amount c) USD final.
Proof.
  refine (proj1 (confusion_candidate_produced
                   [mkline (str "Amount: S92") 0.9 (str "otsu")]
                   (mkline (str "Amount: S92") 0.9 (str "otsu"))
                   (or_introl eq_refl) _)).
  vm_compute. discriminate.
Defined.

(* ===================================================================== *)
(** ** Merging duplicate amounts *)
(* ===================================================================== *)

Lemma merge_overwrites pre : forall c post amount code t confidence,
  (forall x, In x pre -> same_amount (c_amount x) amount = false) ->
  same_amount (c_amount c) amount = true ->
  PrimFloat.ltb (c_confidence c) confidence = true ->
  merge (pre ++ c :: post) amount code t confidence
  = pre ++ mkcand (c_amount c) (c_currency c) t confidence :: post.
Proof.
  induction pre as [|x pre IH]; intros c post amount code t confidence Hpre Hc Hlt; simpl.
  - now rewrite Hc, Hlt.
  - rewrite (Hpre x (or_introl eq_refl)). f_equal.
    apply IH; auto. intros y Hy. apply Hpre. now right.
Qed.

(** C10 (duplicate merge).  When a new match has the same amount as an
    existing candidate (the first such in the list) and a higher score, the
    merge overwrites that candidate's score and source text and leaves its
    amount and currency, and every other candidate, unchanged.  So for the
    lines "$92" and "Total 92" the selected candidate has the currency USD
    resolved from "$92", while its score 1.0 and its source text come from
    "Total 92", whose own match resolves to UNKNOWN. *)
Theorem merge_keeps_first_currency :
  (forall pre c post amount code t confidence,
      (forall x, In x pre -> same_amount (c_amount x) amount = false) ->
      same_amount (c_amount c) amount = true ->
      PrimFloat.ltb (c_confidence c) confidence = true ->
      merge (pre ++ c :: post) amount code t confidence
      = pre ++ mkcand (c_amount c) (c_currency c) t confidence :: post)
  /\ (exists rs first later sel,
         rs = [first; later]
         /\ amount_line [] first = [mkcand 92 USD (strip (l_text first)) 0.7]
         /\ amount_line [] later = [mkcand 92 UNKNOWN (strip (l_text later)) 1]
         /\ selected_candidate rs = Some sel
         /\ c_currency sel = USD
         /\ c_text sel = strip (l_text later)
         /\ c_confidence sel = 1%float
         /\ extract_amount_enhanced rs = Some (mkamount 92 USD)).
Proof.
  split; [intros; now apply merge_overwrites|].
  exists [mkline (str "$92") 0.9 (str "otsu"); mkline (str "Total 92") 0.8 (str "otsu")],
         (mkline (str "$92") 0.9 (str "otsu")),
         (mkline (str "Total 92") 0.8 (str "otsu")).
  eexists. split; [reflexivity|].
  split; [vm_compute; reflexivity|]. split; [vm_compute; reflexivity|].
  split; [vm_compute; reflexivity|]. repeat split.
Qed.

(* ===================================================================== *)
(** ** Fusion: ranking and removal of duplicates *)
(* ===================================================================== *)

Lemma text_eqb_eq a : forall b, text_eqb a b = true <-> a = b.
Proof.
  induction a as [|x a IH]; intros [|y b]; simpl; try (split; [discriminate|discriminate]).
  - tauto.
  - rewrite andb_true_iff, N.eqb_eq, IH. split; [intros [-> ->]; reflexivity|].
    intros H. inversion H. auto.
Qed.

Lemma seen_spec t s : seen t s = true <-> In t s.
Proof.
  unfold seen. rewrite existsb_exists. split.
  - intros (u & Hu & E). apply text_eqb_eq in E. now subst.
  - intros H. exists t. split; [assumption|now apply text_eqb_eq].
Qed.

Lemma seen_false t s : seen t s = false <-> ~ In t s.
Proof.
  rewrite <- seen_spec. destruct (seen t s); split; intros H; congruence.
Qed.

Lemma conf_lt_spec a b : conf_lt a b = true <-> (l_confidence a < l_confidence b)%Q.
Proof.
  unfold conf_lt. rewrite negb_true_iff. split.
  - intros H. apply Qnot_le_lt. intros L. apply Qle_bool_iff in L. congruence.
  - intros H. destruct (Qle_bool _ _) eqn:E; [|reflexivity].
    apply Qle_bool_iff in E. exfalso. revert E. now apply Qlt_not_le.
Qed.

Lemma conf_lt_false a b : conf_lt a b = false -> by_conf a b.
Proof.
  unfold conf_lt, by_conf. rewrite negb_false_iff. apply Qle_bool_iff.
Qed.

Section Ranking.
Context {A : Type} (lt : A -> A -> bool).

Lemma insert_in x y : forall l, In y (insert_desc lt x l) <-> y = x \/ In y l.
Proof.
  induction l as [|z l IH]; simpl; [intuition|].
  destruct (lt x z); simpl; [rewrite IH|]; intuition.
Qed.

Lemma sort_in y : forall l, In y (sort_desc lt l) <-> In y l.
Proof.
  induction l as [|x l IH]; simpl; [tauto|].
  rewrite insert_in, IH. intuition.
Qed.

(** Stability: an insertion moves the new element only past greater ones,
    so a selection [p] that never holds of both keeps its order. *)
Lemma insert_filter (p : A -> bool) x :
  (forall z, p x = true -> lt x z = true -> p z = false) ->
  forall l, filter p (insert_desc lt x l) = filter p (x :: l).
Proof.
  intros H. induction l as [|z l IH]; [reflexivity|].
  simpl insert_desc. destruct (lt x z) eqn:E; [|reflexivity].
  simpl filter in *. rewrite IH.
  destruct (p x) eqn:Px; [|reflexivity].
  now rewrite (H z eq_refl E).
Qed.

Lemma sort_filter (p : A -> bool) :
  (forall x z, p x = true -> lt x z = true -> p z = false) ->
  forall l, filter p (sort_desc lt l) = filter p l.
Proof.
  intros H. induction l as [|x l IH]; [reflexivity|].
  simpl sort_desc. rewrite insert_filter by (intros z; apply H).
  simpl. now rewrite IH.
Qed.
End Ranking.

Lemma insert_sorted x : forall l,
  StronglySorted by_conf l -> StronglySorted by_conf (insert_desc conf_lt x l).
Proof.
  induction l as [|z l IH]; intros S; simpl.
  - constructor; constructor.
  - apply StronglySorted_inv in S. destruct S as [S F].
    destruct (conf_lt x z) eqn:E.
    + constructor; [now apply IH|]. apply Forall_forall. intros y Hy.
      apply insert_in in Hy. destruct Hy as [->|Hy].
      * apply conf_lt_spec in E. now apply Qlt_le_weak.
      * rewrite Forall_forall in F. now apply F.
    + apply conf_lt_false in E. constructor; [now constructor|].
      constructor; [assumption|]. rewrite Forall_forall in *. intros y Hy.
      unfold by_conf in *. eapply Qle_trans; [apply F, Hy|assumption].
Qed.

Lemma sort_sorted l : StronglySorted by_conf (sort_desc conf_lt l).
Proof.
  induction l as [|x l IH]; simpl; [constructor|now apply insert_sorted].
Qed.

Lemma sort_stable q l :
  filter (at_conf q) (sort_desc conf_lt l) = filter (at_conf q) l.
Proof.
  apply sort_filter. intros x z Px L. unfold at_conf in *.
  apply Qeq_bool_iff in Px. apply conf_lt_spec in L.
  destruct (Qeq_bool (l_confidence z) q) eqn:E; [|reflexivity].
  apply Qeq_bool_iff in E. exfalso. rewrite Px, <- E in L.
  revert L. apply Qlt_irrefl.
Qed.

(** *** Removal of duplicates *)

Lemma dedup_in : forall l s r,
  In r (deduplicate s l) -> In r l /\ ~ In (l_text r) s.
Proof.
  induction l as [|x l IH]; intros s r H; simpl in H; [destruct H|].
  destruct (seen (l_text x) s) eqn:E.
  - apply IH in H. destruct H. split; [now right|assumption].
  - destruct H as [->|H].
    + split; [now left|now apply seen_false].
    + apply IH in H. destruct H as [H1 H2]. split; [now right|].
      intros C. apply H2. now right.
Qed.

Lemma dedup_nodup : forall l s, NoDup (map l_text (deduplicate s l)).
Proof.
  induction l as [|x l IH]; intros s; simpl; [constructor|].
  destruct (seen (l_text x) s); [apply IH|].
  simpl. constructor; [|apply IH].
  intros C. apply in_map_iff in C. destruct C as (r & E & Hr).
  apply dedup_in in Hr. destruct Hr as [_ Hr]. apply Hr. left. now symmetry.
Qed.

Lemma dedup_sorted (R : line -> line -> Prop) : forall l s,
  StronglySorted R l -> StronglySorted R (deduplicate s l).
Proof.
  induction l as [|x l IH]; intros s S; simpl; [constructor|].
  apply StronglySorted_inv in S. destruct S as [S F].
  destruct (seen (l_text x) s); [now apply IH|].
  constructor; [now apply IH|]. rewrite Forall_forall in *.
  intros y Hy. apply dedup_in in Hy. now apply F.
Qed.

(** Where a kept line [y] stands in the ranked list: nothing before it has
    its text, and every line kept before it was ranked before it. *)
Lemma dedup_split : forall l s da y db,
  deduplicate s l = da ++ y :: db ->
  exists la lb,
    l = la ++ y :: lb
    /\ (forall z, In z la -> l_text z <> l_text y)
    /\ (forall x, In x da -> In x la).
Proof.
  induction l as [|r l IH]; intros s da y db H; simpl in H.
  - destruct da; discriminate.
  - destruct (seen (l_text r) s) eqn:E.
    + assert (Hy : In y (deduplicate s l)) by (rewrite H; apply in_elt).
      apply dedup_in in Hy. destruct Hy as [_ Hy]. apply seen_spec in E.
      destruct (IH _ _ _ _ H) as (la & lb & -> & Hla & Hda).
      exists (r :: la), lb. repeat split.
      * intros z [<-|Hz]; [congruence|now apply Hla].
      * intros x Hx. right. now apply Hda.
    + destruct da as [|d da]; simpl in H; inversion H; subst.
      * exists [], l. repeat split; intros ? [].
      * assert (Hy : In y (deduplicate (l_text d :: s) l))
          by (rewrite H2; apply in_elt).
        apply dedup_in in Hy. destruct Hy as [_ Hy].
        destruct (IH _ _ _ _ H2) as (la & lb & -> & Hla & Hda).
        exists (d :: la), lb. repeat split.
        -- intros z [<-|Hz]; [|now apply Hla]. intros C. apply Hy. now left.
        -- intros x [<-|Hx]; [now left|right; now apply Hda].
Qed.

(** *** From detections to lines *)

Lemma normalize_in r : forall ds,
  In r (normalize_results ds) <-> exists d, In d ds /\ normalize_result d = Some r.
Proof.
  induction ds as [|d ds IH]; simpl.
  - split; [intros []|intros (d & [] & _)].
  - destruct (normalize_result d) as [r'|] eqn:E; simpl; rewrite ?IH; split.
    + intros [<-|(d' & Hd & E')]; [exists d; auto|exists d'; auto].
    + intros (d' & [<-|Hd] & E'); [left; congruence|right; eauto].
    + intros (d' & Hd & E'). exists d'. auto.
    + intros (d' & [<-|Hd] & E'); [congruence|eauto].
Qed.

Lemma normalize_result_some d r :
  normalize_result d = Some r <->
  2 <= length (strip (d_text d))
  /\ r = mkline (strip (d_text d)) (d_confidence d) (d_variant d).
Proof.
  unfold normalize_result. destruct (strip (d_text d)) as [|x [|y t]] eqn:E; simpl.
  - split; [discriminate|intros [H _]; lia].
  - split; [discriminate|intros [H _]; lia].
  - split; [intros H; inversion H; split; [lia|reflexivity]|intros [_ ->]; reflexivity].
Qed.

Lemma normalize_split : forall ds l1 x l2,
  normalize_results ds = l1 ++ x :: l2 ->
  exists ds1 d ds2,
    ds = ds1 ++ d :: ds2 /\ normalize_result d = Some x
    /\ normalize_results ds1 = l1.
Proof.
  induction ds as [|d ds IH]; intros l1 x l2 H; simpl in H.
  - destruct l1; discriminate.
  - destruct (normalize_result d) as [r|] eqn:E.
    + destruct l1 as [|y l1]; simpl in H; inversion H; subst.
      * exists [], d, ds. now repeat split.
      * destruct (IH _ _ _ H2) as (ds1 & d' & ds2 & -> & E' & <-).
        exists (d :: ds1), d', ds2. repeat split; [assumption|]. simpl. now rewrite E.
    + destruct (IH _ _ _ H) as (ds1 & d' & ds2 & -> & E' & <-).
      exists (d :: ds1), d', ds2. repeat split; [assumption|]. simpl. now rewrite E.
Qed.

Lemma filter_split {A} (p : A -> bool) : forall l f1 x f2,
  filter p l = f1 ++ x :: f2 ->
  exists l1 l2, l = l1 ++ x :: l2 /\ filter p l1 = f1.
Proof.
  induction l as [|y l IH]; intros f1 x f2 H; simpl in H.
  - destruct f1; discriminate.
  - destruct (p y) eqn:E.
    + destruct f1 as [|z f1]; simpl in H.
      * injection H as <- _. exists [], l. now split.
      * injection H as <- H2. destruct (IH _ _ _ H2) as (l1 & l2 & -> & <-).
        exists (y :: l1), l2. split; [reflexivity|]. simpl. now rewrite E.
    + destruct (IH _ _ _ H) as (l1 & l2 & -> & <-).
      exists (y :: l1), l2. split; [reflexivity|]. simpl. now rewrite E.
Qed.

Lemma sorted_after (R : line -> line -> Prop) : forall la r lb,
  StronglySorted R (la ++ r :: lb) -> Forall (R r) lb.
Proof.
  induction la as [|a la IH]; intros r lb S; simpl in S;
    apply StronglySorted_inv in S; destruct S as [S F]; [assumption|now apply IH].
Qed.

Lemma line_long ds r : In r (normalize_results ds) -> 2 <= length (l_text r).
Proof.
  intros H. apply normalize_in in H. destruct H as (d & _ & E).
  apply normalize_result_some in E. destruct E as [H ->]. exact H.
Qed.

Lemma dedup_from_input ds r :
  In r (deduplicated_results ds) -> In r (normalize_results ds).
Proof.
  intros H. apply dedup_in in H. destruct H as [H _]. now apply sort_in in H.
Qed.

(** Each kept line is an occurrence of its text, and no occurrence of that
    text has a greater confidence. *)
Lemma kept_is_highest ds r :
  In r (deduplicated_results ds) ->
  (exists d, In d ds /\ strip (d_text d) = l_text r
             /\ d_confidence d = l_confidence r)
  /\ (forall d, In d ds -> strip (d_text d) = l_text r ->
                (d_confidence d <= l_confidence r)%Q).
Proof.
  intros H. pose proof (dedup_from_input ds r H) as HL. split.
  - apply normalize_in in HL. destruct HL as (d & Hd & E).
    apply normalize_result_some in E. destruct E as [_ ->]. exists d. auto.
  - intros d Hd E.
    pose proof (line_long ds r HL) as Hlen.
    assert (N : normalize_result d
                = Some (mkline (strip (d_text d)) (d_confidence d) (d_variant d))).
    { apply normalize_result_some. split; [now rewrite E|reflexivity]. }
    set (r' := mkline (strip (d_text d)) (d_confidence d) (d_variant d)) in *.
    assert (HS : In r' (sort_desc conf_lt (normalize_results ds))).
    { apply sort_in, normalize_in. eauto. }
    apply in_split in H. destruct H as (da & db & H).
    apply dedup_split in H. destruct H as (la & lb & Hs & Hla & _).
    pose proof (sort_sorted (normalize_results ds)) as S. rewrite Hs in S, HS.
    apply in_app_or in HS. destruct HS as [HS|[Heq|HS]].
    + exfalso. apply (Hla r' HS). exact E.
    + rewrite Heq. apply Qle_refl.
    + apply sorted_after in S. rewrite Forall_forall in S. exact (S r' HS).
Qed.

(** Among kept lines of equal confidence, the one listed first was seen
    first: some occurrence of it comes before every detection with the
    text and confidence of the other. *)
Lemma ties_first_seen ds d1 x d2 y d3 :
  deduplicated_results ds = d1 ++ x :: d2 ++ y :: d3 ->
  (l_confidence x == l_confidence y)%Q ->
  exists ds1 dx ds2,
    ds = ds1 ++ dx :: ds2 /\ normalize_result dx = Some x
    /\ forall z, In z ds1 ->
         ~ (strip (d_text z) = l_text y /\ (d_confidence z == l_confidence y)%Q).
Proof.
  intros HD Hq. set (q := l_confidence y).
  assert (Hy : In y (normalize_results ds)).
  { apply dedup_from_input. rewrite HD. apply in_or_app. right. right.
    apply in_elt. }
  pose proof (line_long ds y Hy) as Hlen.
  unfold deduplicated_results in HD.
  change (d1 ++ x :: d2 ++ y :: d3) with (d1 ++ (x :: d2) ++ y :: d3) in HD.
  rewrite app_assoc in HD.
  apply dedup_split in HD. destruct HD as (la & lb & Hs & Hla & Hda).
  assert (Hx : In x (filter (at_conf q) la)).
  { apply filter_In. split.
    - apply Hda. apply in_or_app. right. now left.
    - now apply Qeq_bool_iff. }
  apply in_split in Hx. destruct Hx as (f1 & f2 & Hf).
  pose proof (sort_stable q (normalize_results ds)) as St.
  rewrite Hs, filter_app, Hf, <- app_assoc in St. simpl app in St.
  symmetry in St. apply filter_split in St. destruct St as (l1 & l2 & HL & Hf1).
  apply normalize_split in HL. destruct HL as (ds1 & dx & ds2 & -> & Ex & <-).
  exists ds1, dx, ds2. repeat split; [assumption|].
  intros z Hz [Et Ec].
  assert (N : normalize_result z
              = Some (mkline (strip (d_text z)) (d_confidence z) (d_variant z))).
  { apply normalize_result_some. split; [now rewrite Et|reflexivity]. }
  set (z' := mkline (strip (d_text z)) (d_confidence z) (d_variant z)) in *.
  assert (Hz' : In z' (filter (at_conf q) (normalize_results ds1))).
  { apply filter_In. split; [apply normalize_in; eauto|now apply Qeq_bool_iff]. }
  rewrite Hf1 in Hz'.
  assert (Hin : In z' (filter (at_conf q) la))
    by (rewrite Hf; apply in_or_app; now left).
  apply filter_In in Hin. destruct Hin as [Hin _].
  apply (Hla z' Hin). exact Et.
Qed.

(** C8 (dedup invariant).  For every detection list, [raw_text] is the
    list of texts of [deduplicated_results], in which: no two entries have
    the same exact text; each entry is an occurrence of its text among the
    detections and no occurrence of that text has a greater confidence; the
    entries are in descending order of confidence; and of two entries of
    equal confidence the one listed first was seen first, some occurrence
    of it standing in the input before every detection that has the text
    and the confidence of the other. *)
Theorem ranked_without_duplicates (ds : list detection) :
  (forall rcpt, extract_receipt_data ds = Some rcpt ->
                raw_text rcpt = map l_text (deduplicated_results ds))
  /\ NoDup (map l_text (deduplicated_results ds))
  /\ (forall r, In r (deduplicated_results ds) ->
        (exists d, In d ds /\ strip (d_text d) = l_text r
                   /\ d_confidence d = l_confidence r)
        /\ (forall d, In d ds -> strip (d_text d) = l_text r ->
                      (d_confidence d <= l_confidence r)%Q))
  /\ StronglySorted by_conf (deduplicated_results ds)
  /\ (forall d1 x d2 y d3,
        deduplicated_results ds = d1 ++ x :: d2 ++ y :: d3 ->
        (l_confidence x == l_confidence y)%Q ->
        exists ds1 dx ds2,
          ds = ds1 ++ dx :: ds2 /\ normalize_result dx = Some x
          /\ forall z, In z ds1 ->
               ~ (strip (d_text z) = l_text y
                  /\ (d_confidence z == l_confidence y)%Q)).
Proof.
  split; [|split; [|split; [|split]]].
  - intros rcpt. unfold extract_receipt_data.
    destruct (extract_title_enhanced _); [|discriminate].
    destruct (extract_amount_enhanced _); [|discriminate].
    intros H. inversion H. reflexivity.
  - apply dedup_nodup.
  - apply kept_is_highest.
  - apply dedup_sorted, sort_sorted.
  - apply ties_first_seen.
Qed.

(* ===================================================================== *)
(** ** Nothing to find *)
(* ===================================================================== *)

Lemma lstrip_suffix s : exists pre, s = pre ++ lstrip s.
Proof.
  induction s as [|x s [pre IH]]; simpl; [now exists []|].
  destruct (is_space x); [|now exists []].
  exists (x :: pre). simpl. now rewrite <- IH.
Qed.

Lemma strip_infix s : exists pre post, s = pre ++ strip s ++ post.
Proof.
  unfold strip. destruct (lstrip_suffix s) as [pre Hs].
  destruct (lstrip_suffix (rev (lstrip s))) as [rpost Hr].
  exists pre, (rev rpost). rewrite <- rev_app_distr, <- Hr, rev_involutive. exact Hs.
Qed.

Lemma strip_length s : length (strip s) <= length s.
Proof.
  destruct (strip_infix s) as (pre & post & E). rewrite E at 2.
  rewrite !length_app. lia.
Qed.

Lemma no_digit_infix pre mid post :
  existsb is_digit (pre ++ mid ++ post) = false -> existsb is_digit mid = false.
Proof.
  rewrite !existsb_app. intros H.
  apply orb_false_iff in H. destruct H as [_ H].
  apply orb_false_iff in H. now destruct H.
Qed.

Lemma no_digit_strip s : existsb is_digit s = false -> existsb is_digit (strip s) = false.
Proof.
  destruct (strip_infix s) as (pre & post & E). rewrite E at 1. apply no_digit_infix.
Qed.

Lemma search_no_digit ic r t :
  needs_digit r = true -> existsb is_digit t = false -> search ic r t = None.
Proof.
  intros Hr Ht. destruct (search ic r t) as [mo|] eqn:E; [|reflexivity].
  apply search_sound in E. destruct E as (pre & post & -> & Hs).
  apply no_digit_infix in Ht.
  rewrite (needs_digit_sem ic r Hr _ _ _ Hs) in Ht. discriminate.
Qed.

Lemma search_minlen ic r t mo : search ic r t = Some mo -> minlen r <= length t.
Proof.
  intros E. apply search_sound in E. destruct E as (pre & post & -> & Hs).
  apply minlen_sem in Hs. rewrite !length_app. lia.
Qed.

Lemma finditer_none ic r s : search ic r s = None -> finditer ic r s = [].
Proof. intros H. now rewrite finditer_head, H. Qed.

(** *** Dates *)

Lemma digitless_text res :
  digitless res -> existsb is_digit (strip (l_text res)) = false.
Proof. apply no_digit_strip. Qed.

Lemma date_needs_digit :
  needs_digit date_dmy_re = true /\ forallb needs_digit date_patterns = true.
Proof. split; reflexivity. Qed.

Lemma no_date_without_digit rs :
  (forall res, In res rs -> digitless res) -> extract_date_enhanced rs = [].
Proof.
  intros H. destruct date_needs_digit as [N1 N2].
  assert (S0 : forall res, In res rs ->
                 search false date_dmy_re (strip (l_text res)) = None).
  { intros res Hr. apply search_no_digit; [assumption|]. now apply digitless_text, H. }
  unfold extract_date_enhanced.
  rewrite (first_some_none date_labelled rs).
  2:{ intros res Hr. unfold date_labelled. rewrite (findall_none _ _ (S0 res Hr)).
      now destruct (contains _ _). }
  rewrite (first_some_none date_direct rs).
  2:{ intros res Hr. unfold date_direct. now rewrite (S0 res Hr). }
  rewrite (first_some_none date_forced rs).
  2:{ intros res Hr. unfold date_forced. now rewrite (S0 res Hr). }
  rewrite (first_some_none date_patterned rs).
  2:{ intros res Hr. unfold date_patterned. apply first_some_none. intros p Hp.
      unfold date_by_pattern. rewrite search_no_digit; [reflexivity| |].
      - rewrite forallb_forall in N2. now apply N2.
      - now apply digitless_text, H. }
  assert (E : direct_matches rs = []).
  { unfold direct_matches. clear -S0. induction rs as [|r rs IH]; [reflexivity|].
    simpl. rewrite (findall_none _ _ (S0 r (or_introl eq_refl))). simpl.
    apply IH. intros res Hr. apply S0. now right. }
  now rewrite E.
Qed.

(** *** Amounts *)

Lemma amount_needs_digit :
  needs_digit amount_s_re = true
  /\ forallb (fun ps => needs_digit (fst ps)) currency_patterns = true
  /\ needs_digit plain_number_re = true.
Proof. repeat split; reflexivity. Qed.

Lemma fold_left_id {A B} (f : A -> B -> A) l a :
  (forall x b, In b l -> f x b = x) -> fold_left f l a = a.
Proof.
  revert a. induction l as [|b l IH]; intros a H; simpl; [reflexivity|].
  rewrite (H a b (or_introl eq_refl)). apply IH. intros x c Hc. apply H. now right.
Qed.

Lemma no_amount_without_digit rs :
  (forall res, In res rs -> digitless res) ->
  extract_amount_enhanced rs = Some (mkamount 0 UNKNOWN).
Proof.
  intros H. destruct amount_needs_digit as (N1 & N2 & N3).
  assert (C : confusion_candidates rs = Some []).
  { clear -H N1. induction rs as [|r rs IH]; [reflexivity|]. simpl.
    rewrite IH by (intros res Hr; apply H; now right).
    unfold confusion_step. rewrite search_no_digit; [reflexivity|assumption|].
    rewrite no_digit_lower. apply digitless_text, H. now left. }
  unfold extract_amount_enhanced, amount_candidates. rewrite C.
  rewrite fold_left_id.
  2:{ intros cands res Hr. unfold amount_line. apply fold_left_id.
      intros acc ps Hp. rewrite finditer_none; [reflexivity|].
      apply search_no_digit; [|now apply digitless_text, H].
      rewrite forallb_forall in N2. now apply N2. }
  simpl. rewrite first_some_none; [reflexivity|].
  intros res Hr. unfold plain_number. rewrite search_no_digit; [reflexivity|assumption|].
  apply no_digit_strip. rewrite no_digit_lower. now apply H.
Qed.

(** *** Titles *)

Lemma title_minlen : forallb (fun p => Nat.leb 3 (minlen p)) title_patterns = true.
Proof. reflexivity. Qed.

Lemma short_line_tries t ps :
  length t < 3 -> (forall p, In p ps -> 3 <= minlen p) ->
  first_raising (title_try t) ps = Some None.
Proof.
  intros L. induction ps as [|p ps IH]; intros M; [reflexivity|]. cbn [first_raising].
  assert (T : title_try t p = Some None).
  { unfold title_try. destruct (search true p t) as [mo|] eqn:E; [|reflexivity].
    apply search_minlen in E. specialize (M p (or_introl eq_refl)). lia. }
  rewrite T. apply IH. intros q Hq. apply M. now right.
Qed.

Lemma short_line_no_title t :
  length t < 3 -> first_raising (title_try t) title_patterns = Some None.
Proof.
  intros L. apply short_line_tries; [assumption|].
  pose proof title_minlen as M. rewrite forallb_forall in M.
  intros p Hp. now apply Nat.leb_le, M.
Qed.

Lemma short_title rs :
  (forall res, In res rs -> length (l_text res) < 3) ->
  extract_title_enhanced rs = Some untitled.
Proof.
  intros H.
  assert (L : forall res, In res rs -> length (strip (l_text res)) < 3).
  { intros res Hr. pose proof (strip_length (l_text res)). specialize (H res Hr). lia. }
  assert (F : title_first_pass rs = Some None).
  { unfold title_first_pass. clear H. induction rs as [|r rs IH]; [reflexivity|].
    cbn [first_raising].
    assert (E : first_raising (title_try (strip (l_text r))) title_patterns = Some None)
      by (apply short_line_no_title, L; now left).
    rewrite E. apply IH. intros res Hr. apply L. now right. }
  unfold extract_title_enhanced. rewrite F.
  assert (N : merchant_name_candidates rs = []).
  { unfold merchant_name_candidates. apply fold_left_id. intros cands res Hr.
    unfold name_step. specialize (L res Hr). apply Nat.ltb_lt in L. now rewrite L. }
  rewrite N. simpl. rewrite first_some_none; [reflexivity|].
  intros res Hr. unfold first_meaningful. specialize (L res Hr).
  destruct (Nat.leb_spec 3 (length (strip (l_text res)))); [lia|reflexivity].
Qed.

(** *** The whole pipeline *)

Lemma amount_total rs : extract_amount_enhanced rs <> None.
Proof.
  unfold extract_amount_enhanced, amount_candidates.
  pose proof (confusion_candidates_total rs).
  destruct (confusion_candidates rs); [|congruence].
  destruct (select _); [discriminate|]. destruct (first_some _ _); discriminate.
Qed.

Lemma title_total rs : extract_title_enhanced rs <> None.
Proof.
  unfold extract_title_enhanced. pose proof (title_first_pass_total rs).
  destruct (title_first_pass rs) as [[t|]|]; [discriminate| |congruence].
  destruct (sort_desc _ _); [|discriminate]. destruct (first_some _ _); discriminate.
Qed.

Lemma kept_line ds r :
  In r (deduplicated_results ds) -> exists d, In d ds /\ l_text r = strip (d_text d).
Proof.
  intros H. apply dedup_from_input, normalize_in in H. destruct H as (d & Hd & E).
  apply normalize_result_some in E. destruct E as [_ ->]. exists d. auto.
Qed.

Lemma nothing_kept ds :
  (forall d, In d ds -> length (strip (d_text d)) < 2) -> deduplicated_results ds = [].
Proof.
  intros H. unfold deduplicated_results.
  assert (E : normalize_results ds = []).
  { induction ds as [|d ds IH]; [reflexivity|]. simpl.
    destruct (normalize_result d) as [r|] eqn:N.
    - apply normalize_result_some in N. specialize (H d (or_introl eq_refl)). lia.
    - apply IH. intros d' Hd. apply H. now right. }
  now rewrite E.
Qed.

Lemma pipeline_returns ds : extract_receipt_data ds <> None.
Proof.
  unfold extract_receipt_data.
  pose proof (title_total (deduplicated_results ds)).
  pose proof (amount_total (deduplicated_results ds)).
  destruct (extract_title_enhanced _); [|congruence].
  destruct (extract_amount_enhanced _); [discriminate|congruence].
Qed.

(** C9 (graceful degradation).  For every detection list the pipeline
    returns a record: no [int], [float] or group access of the source raises
    outside a handler.  When no detection keeps two characters after
    trimming (the empty list, blank texts) the record is the record of
    defaults; when none keeps three the title is the placeholder; and when
    no detection holds a decimal digit the date is empty, the amount 0 and
    the currency UNKNOWN. *)
Theorem pipeline_degrades_to_defaults (ds : list detection) :
  exists r,
    extract_receipt_data ds = Some r
    /\ ((forall d, In d ds -> length (strip (d_text d)) < 2) -> r = default_receipt)
    /\ ((forall d, In d ds -> length (strip (d_text d)) < 3) -> title r = untitled)
    /\ ((forall d, In d ds -> no_digit (d_text d) = true) ->
        date r = [] /\ amount r = 0%float /\ currency_code r = UNKNOWN).
Proof.
  unfold extract_receipt_data.
  pose proof (title_total (deduplicated_results ds)) as T.
  pose proof (amount_total (deduplicated_results ds)) as A.
  destruct (extract_title_enhanced _) as [t|] eqn:Et; [|congruence].
  destruct (extract_amount_enhanced _) as [a|] eqn:Ea; [|congruence].
  eexists. split; [reflexivity|]. split; [|split].
  - intros H. apply nothing_kept in H. rewrite H in *.
    vm_compute in Et, Ea. inversion Et. inversion Ea. reflexivity.
  - intros H. simpl. rewrite short_title in Et; [now inversion Et|].
    intros res Hr. apply kept_line in Hr. destruct Hr as (d & Hd & ->). now apply H.
  - intros H.
    assert (D : forall res, In res (deduplicated_results ds) -> digitless res).
    { intros res Hr. apply kept_line in Hr. destruct Hr as (d & Hd & E).
      unfold digitless. rewrite E. apply no_digit_strip.
      specialize (H d Hd). unfold no_digit in H. now apply negb_true_iff in H. }
    simpl. rewrite (no_date_without_digit _ D).
    rewrite (no_amount_without_digit _ D) in Ea. inversion Ea. auto.
Qed.


Lemma untitled_not_empty : untitled <> [].
Proof. discriminate. Qed.

(** The record that leaves the service's validation has a title. *)
Lemma validated_title_not_empty ds r : title (validate_critical_data ds r) <> [].
Proof.
  unfold validate_critical_data. simpl.
  destruct (title r); [apply untitled_not_empty|discriminate].
Qed.


Lemma accepted_label_ends_cascade_witness :
  extract_title_enhanced
    ([mkline (str "12") 0.9 (str "otsu")]
       ++ mkline (str "Store: Walmart") 0.8 (str "otsu") :: [])
  = Some (str "Walmart").
Proof.
  refine (proj2 (accepted_label_ends_cascade _)
            [mkline (str "12") 0.9 (str "otsu")]
            (mkline (str "Store: Walmart") 0.8 (str "otsu")) []
            (str "Walmart") eq_refl _ eq_refl).
  intros r p [<-|[]] [<-|[<-|[<-|[]]]]; reflexivity.
Defined.

Lemma merge_keeps_first_currency_witness :
  merge ([mkcand 5 EUR (str "5 EUR") 0.7] ++ mkcand 92 USD (str "$92") 0.7 :: [])
        92 UNKNOWN (str "Total 92") 1
  = [mkcand 5 EUR (str "5 EUR") 0.7] ++ mkcand 92 USD (str "Total 92") 1 :: [].
Proof.
  refine (proj1 merge_keeps_first_currency
            [mkcand 5 EUR (str "5 EUR") 0.7] (mkcand 92 USD (str "$92") 0.7) []
            92%float UNKNOWN (str "Total 92") 1%float _ eq_refl eq_refl).
  intros x [<-|[]]. reflexivity.
Defined.

(* ===================================================================== *)
(** ** The upload check *)
(* ===================================================================== *)

Lemma rsplit1_none sep : forall s, rsplit1 sep s = None <-> ~ In sep s.
Proof.
  induction s as [|x s IH]; simpl.
  - split; [intros _ []|reflexivity].
  - destruct (rsplit1 sep s) as [[a b]|].
    + split; [discriminate|]. intros H. exfalso.
      assert (E : Some (a, b) = @None (text * text))
        by (apply IH; intros I; apply H; now right).
      discriminate.
    + destruct (N.eqb_spec x sep) as [->|n].
      * split; [discriminate|]. intros H. exfalso. apply H. now left.
      * split; [intros _ [E|i]; [congruence|]|reflexivity].
        now apply (proj1 IH).
Qed.

Lemma rsplit1_some sep : forall s a b,
  rsplit1 sep s = Some (a, b) <-> s = a ++ sep :: b /\ ~ In sep b.
Proof.
  induction s as [|x s IH]; intros a b; simpl.
  - split; [discriminate|]. intros [E _]. destruct a; discriminate.
  - destruct (rsplit1 sep s) as [[a' b']|] eqn:R.
    + destruct (proj1 (IH a' b') eq_refl) as [Es N']. split.
      * intros E. injection E as <- <-. rewrite Es. split; [reflexivity|assumption].
      * intros [E N]. destruct a as [|y a]; simpl in E.
        -- injection E as E1 E2. exfalso. apply N.
           rewrite <- E2, Es. apply in_or_app. right. now left.
        -- injection E as E1 E2. subst y.
           assert (R' : Some (a', b') = Some (a, b))
             by (apply IH; split; assumption).
           injection R' as -> ->. reflexivity.
    + apply rsplit1_none in R. destruct (N.eqb_spec x sep) as [->|n].
      * split.
        -- intros E. injection E as <- <-. split; [reflexivity|assumption].
        -- intros [E N]. destruct a as [|y a]; simpl in E.
           ++ injection E as ->. reflexivity.
           ++ injection E as E1 E2. exfalso. apply R. rewrite E2.
              apply in_or_app. right. now left.
      * split; [discriminate|]. intros [E N]. destruct a as [|y a]; simpl in E.
        -- injection E as E1 E2. congruence.
        -- injection E as E1 E2. exfalso. apply R. rewrite E2.
           apply in_or_app. right. now left.
Qed.

Lemma contains_char x s : contains [x] s = true <-> In x s.
Proof.
  rewrite contains_spec. split.
  - intros (pre & post & ->). apply in_or_app. right. now left.
  - intros H. apply in_split in H. destruct H as (pre & post & ->).
    exists pre, post. reflexivity.
Qed.

(** X1 ([allowed_file]).  A file name is accepted exactly when it has a dot
    and the text after its last dot, lower-cased, is one of png, jpg, jpeg,
    gif, bmp and tiff: only the last extension counts, whatever its case,
    and a name without a dot is refused. *)
Theorem allowed_file_last_extension (filename : text) :
  allowed_file filename = true <->
  exists base extension,
    filename = base ++ ch "." :: extension
    /\ ~ In (ch ".") extension
    /\ In (lower extension) ALLOWED_EXTENSIONS.
Proof.
  unfold allowed_file. rewrite andb_true_iff. split.
  - intros [_ H]. destruct (rsplit1 (ch ".") filename) as [[a b]|] eqn:R; [|discriminate].
    apply rsplit1_some in R. destruct R as [-> N].
    exists a, b. split; [reflexivity|]. split; [assumption|]. now apply seen_spec.
  - intros (a & b & -> & N & I). split.
    + apply (contains_char (ch ".")). apply in_or_app. right. now left.
    + assert (R : rsplit1 (ch ".") (a ++ ch "." :: b) = Some (a, b))
        by (apply rsplit1_some; split; [reflexivity|assumption]).
      rewrite R. now apply seen_spec.
Qed.

(* ===================================================================== *)
(** ** The payload of a data URL *)
(* ===================================================================== *)

Lemma split_cons sep s : exists piece pieces, split sep s = piece :: pieces.
Proof.
  destruct s as [|x s]; simpl; [now exists [], []|].
  destruct (x =? sep)%N; [now eexists _, _|].
  destruct (split sep s); now eexists _, _.
Qed.

Lemma split_pieces sep : forall s piece, In piece (split sep s) -> ~ In sep piece.
Proof.
  induction s as [|x s IH]; simpl; intros piece H.
  - destruct H as [<-|[]]. intros [].
  - destruct (N.eqb_spec x sep) as [->|n].
    + destruct H as [<-|H]; [intros []|now apply IH].
    + destruct (split sep s) as [|p ps] eqn:E.
      * destruct H as [<-|[]]. intros [E'|[]]. congruence.
      * destruct H as [<-|H].
        -- intros [E'|I]; [congruence|]. revert I. apply IH. now left.
        -- apply IH. now right.
Qed.

Lemma split_app sep : forall a rest,
  ~ In sep a -> split sep (a ++ sep :: rest) = a :: split sep rest.
Proof.
  induction a as [|x a IH]; intros rest N; simpl.
  - now rewrite N.eqb_refl.
  - destruct (N.eqb_spec x sep) as [->|n]; [exfalso; apply N; now left|].
    rewrite IH; [reflexivity|]. intros I. apply N. now right.
Qed.

Lemma split_last sep : forall a, ~ In sep a -> split sep a = [a].
Proof.
  induction a as [|x a IH]; intros N; simpl; [reflexivity|].
  destruct (N.eqb_spec x sep) as [->|n]; [exfalso; apply N; now left|].
  rewrite IH; [reflexivity|]. intros I. apply N. now right.
Qed.

(** X2 ([process_receipt], the head that unwraps a data URL).  The text
    handed to the base64 decoder never holds a comma.  Of "header,body" it
    is the body; when more commas follow, it is only the piece between the
    first two, and what comes after the second comma is dropped. *)
Theorem image_payload_between_commas :
  (forall image_data, ~ In (ch ",") (image_payload image_data))
  /\ (forall header body,
         ~ In (ch ",") header -> ~ In (ch ",") body ->
         image_payload (header ++ ch "," :: body) = body
         /\ forall rest,
              image_payload (header ++ ch "," :: body ++ ch "," :: rest) = body).
Proof.
  split.
  - intros s. unfold image_payload.
    destruct (contains (str ",") s) eqn:C.
    + destruct (split_cons (ch ",") s) as (p & ps & E).
      destruct ps as [|q ps].
      * rewrite E. simpl. intros [].
      * apply (split_pieces (ch ",") s). rewrite E. simpl. right. now left.
    + intros I. apply (contains_char (ch ",")) in I.
      change (str ",") with [ch ","] in C. congruence.
  - intros header body Hh Hb.
    assert (C : forall rest, contains (str ",") (header ++ ch "," :: rest) = true).
    { intros rest. apply (contains_char (ch ",")). apply in_or_app. right. now left. }
    split; [|intros rest]; unfold image_payload; rewrite C, split_app by assumption.
    + now rewrite split_last.
    + now rewrite split_app.
Qed.

Lemma image_payload_between_commas_witness :
  image_payload (str "data:image/png;base64" ++ ch "," :: str "iVBORw0KGgo=")
  = str "iVBORw0KGgo=".
Proof.
  apply (proj2 image_payload_between_commas); vm_compute;
    intros H; repeat (destruct H as [H|H]; [discriminate|]); exact H.
Defined.

(* ===================================================================== *)
(** ** Loops that return the first result *)
(* ===================================================================== *)

Lemma first_some_found {A B} (f : A -> option B) : forall l b,
  first_some f l = Some b -> exists x, In x l /\ f x = Some b.
Proof.
  induction l as [|x l IH]; simpl; intros b H; [discriminate|].
  destruct (f x) as [b'|] eqn:E.
  - injection H as <-. exists x. split; [now left|assumption].
  - destruct (IH _ H) as (y & Hy & Ey). exists y. split; [now right|assumption].
Qed.

Lemma first_some_nowhere {A B} (f : A -> option B) : forall l,
  first_some f l = None -> forall x, In x l -> f x = None.
Proof.
  induction l as [|y l IH]; simpl; intros H x Hx; [destruct Hx|].
  destruct (f y) eqn:E; [discriminate|].
  destruct Hx as [<-|Hx]; [assumption|now apply IH].
Qed.

(* ===================================================================== *)
(** ** What [raw_text] holds *)
(* ===================================================================== *)

Lemma dedup_complete : forall l s r,
  In r l ->
  In (l_text r) s \/ exists r', In r' (deduplicate s l) /\ l_text r' = l_text r.
Proof.
  induction l as [|x l IH]; intros s r H; [destruct H|]. simpl.
  destruct (seen (l_text x) s) eqn:E.
  - destruct H as [<-|H]; [left; now apply seen_spec|now apply IH].
  - destruct H as [<-|H].
    + right. exists x. split; [now left|reflexivity].
    + destruct (IH (l_text x :: s) r H) as [[Ex|I]|(r' & I & Er)].
      * right. exists x. split; [now left|assumption].
      * now left.
      * right. exists r'. split; [now right|assumption].
Qed.

Lemma kept_text ds d :
  In d ds -> 2 <= length (strip (d_text d)) ->
  exists r, In r (deduplicated_results ds) /\ l_text r = strip (d_text d).
Proof.
  intros I L.
  assert (N : In (mkline (strip (d_text d)) (d_confidence d) (d_variant d))
                 (normalize_results ds)).
  { apply normalize_in. exists d. split; [assumption|].
    apply normalize_result_some. split; [assumption|reflexivity]. }
  apply (sort_in conf_lt) in N.
  destruct (dedup_complete _ [] _ N) as [[]|(r' & I' & E)].
  exists r'. split; [assumption|exact E].
Qed.

Lemma raw_text_of ds r :
  extract_receipt_data ds = Some r ->
  title (validate_critical_data ds r) <> []
  /\ raw_text r = map l_text (deduplicated_results ds)
  /\ date r = extract_date_enhanced (deduplicated_results ds).
Proof.
  unfold extract_receipt_data.
  destruct (extract_title_enhanced _); [|discriminate].
  destruct (extract_amount_enhanced _); [|discriminate].
  intros E. injection E as <-. simpl. split; [|split; reflexivity].
  destruct t; [apply untitled_not_empty|discriminate].
Qed.

(** X3 ([extract_receipt_data], what [raw_text] holds).  The pipeline
    returns a record whose [raw_text] holds a text exactly when some
    detection, trimmed, is this text and has at least two characters: no
    text of two characters or more is lost, whatever its confidence, and no
    entry is blank, untrimmed or absent from the detections. *)
Theorem raw_text_is_every_trimmed_text (ds : list detection) :
  exists r,
    extract_receipt_data ds = Some r
    /\ forall t,
         In t (raw_text r) <->
         exists d, In d ds /\ strip (d_text d) = t /\ 2 <= length t.
Proof.
  destruct (extract_receipt_data ds) as [r|] eqn:E;
    [|exfalso; now apply (pipeline_returns ds)].
  exists r. split; [reflexivity|]. intros t.
  destruct (raw_text_of ds r E) as (_ & -> & _). rewrite in_map_iff. split.
  - intros (x & <- & I). apply dedup_from_input in I.
    apply normalize_in in I. destruct I as (d & Id & N).
    apply normalize_result_some in N. destruct N as [L ->].
    exists d. simpl. auto.
  - intros (d & I & <- & L). destruct (kept_text ds d I L) as (x & Ix & Ex).
    exists x. split; assumption.
Qed.

Lemma alt_inv ic r1 r2 s c c' :
  sem ic (RAlt r1 r2) s c c' -> sem ic r1 s c c' \/ sem ic r2 s c c'.
Proof. intros H. exact H. Qed.

(* ===================================================================== *)
(** ** The length of a capture *)
(* ===================================================================== *)

Lemma iter_maxlen ic r a n s c c' :
  (forall s c c', sem ic r s c c' -> length s <= a) ->
  iter (sem ic r) n s c c' -> length s <= n * a.
Proof.
  intros Hr. induction 1 as [|n s1 s2 c cm c' H1 Hit IH]; simpl; [lia|].
  rewrite length_app. apply Hr in H1. lia.
Qed.

Lemma maxlen_sem ic r : forall a s c c',
  maxlen r = Some a -> sem ic r s c c' -> length s <= a.
Proof.
  induction r as [| p | | neg items | | | r1 IH1 r2 IH2 | r1 IH1 r2 IH2
                 | lo hi r IH | i r IH | r IH]; intros a s c c' Hm H;
    simpl in Hm; simpl in H.
  - destruct H as [-> _]. simpl. lia.
  - destruct H as (x & -> & _). injection Hm as <-. simpl. lia.
  - destruct H as (x & -> & _). injection Hm as <-. simpl. lia.
  - destruct H as (x & -> & _). injection Hm as <-. simpl. lia.
  - destruct H as [-> _]. simpl. lia.
  - destruct H as [-> _]. simpl. lia.
  - destruct (maxlen r1) as [a1|]; [|discriminate].
    destruct (maxlen r2) as [a2|]; [|discriminate]. injection Hm as <-.
    destruct H as (s1 & s2 & cm & -> & H1 & H2). rewrite length_app.
    apply (IH1 _ _ _ _ eq_refl) in H1. apply (IH2 _ _ _ _ eq_refl) in H2. lia.
  - destruct (maxlen r1) as [a1|]; [|discriminate].
    destruct (maxlen r2) as [a2|]; [|discriminate]. injection Hm as <-.
    destruct H as [H|H];
      [apply (IH1 _ _ _ _ eq_refl) in H|apply (IH2 _ _ _ _ eq_refl) in H]; lia.
  - destruct hi as [h|]; [|discriminate].
    destruct (maxlen r) as [a1|]; [|discriminate]. injection Hm as <-.
    destruct H as (n & _ & Hh & Hit).
    apply (iter_maxlen ic r a1) in Hit; [nia|].
    intros s0 c0 c1 H0. now apply (IH _ _ _ _ eq_refl) in H0.
  - destruct H as (cm & H & _). now apply (IH _ _ _ _ Hm) in H.
  - destruct H as [-> _]. simpl. lia.
Qed.

Lemma group_len_sem ic i lo hi r : group_len i lo hi r = true ->
  forall s c c', sem ic r s c c' -> len_caps i lo hi c -> len_caps i lo hi c'.
Proof.
  induction r as [| p | | neg items | | | r1 IH1 r2 IH2 | r1 IH1 r2 IH2
                 | lo' hi' r IH | j r IH | r IH]; intros Hb s c c' H Hc;
    simpl in Hb; simpl in H.
  - now destruct H as [_ ->].
  - now destruct H as (x & _ & _ & ->).
  - now destruct H as (x & _ & _ & ->).
  - now destruct H as (x & _ & _ & ->).
  - now destruct H as [_ ->].
  - now destruct H as [_ ->].
  - apply andb_true_iff in Hb. destruct Hb as [Hb1 Hb2].
    destruct H as (s1 & s2 & cm & _ & H1 & H2). eauto.
  - apply andb_true_iff in Hb. destruct Hb as [Hb1 Hb2].
    destruct H as [H|H]; eauto.
  - destruct H as (n & _ & _ & Hit). revert Hc.
    refine (iter_ind_caps (sem ic r)
              (fun c c' => len_caps i lo hi c -> len_caps i lo hi c')
              _ _ _ _ _ _ _ Hit); eauto.
  - apply andb_true_iff in Hb. destruct Hb as [Hb Hg].
    destruct H as (cm & H & ->). intros t. simpl.
    destruct (Nat.eqb i j).
    + apply andb_true_iff in Hb. destruct Hb as [Hlo Hhi].
      apply Nat.leb_le in Hlo.
      destruct (maxlen r) as [a|] eqn:Em; [|discriminate].
      apply Nat.leb_le in Hhi.
      intros E. injection E as <-.
      pose proof (minlen_sem _ _ _ _ _ H). pose proof (maxlen_sem _ _ _ _ _ _ Em H).
      lia.
    + apply (IH Hg _ _ _ H Hc).
  - now destruct H as [_ ->].
Qed.

Lemma len_caps_nil i lo hi : len_caps i lo hi [].
Proof. intros t H. discriminate. Qed.

(* ===================================================================== *)
(** ** The date: shape, and the loops that never find one *)
(* ===================================================================== *)

Lemma date_triple_shape res a b y :
  date_triple res = Some (a, b, y) ->
  isdecimal a = true /\ isdecimal b = true /\ isdecimal y = true
  /\ length a <= 2 /\ length b <= 2 /\ length y = 4.
Proof.
  unfold date_triple.
  destruct (search false date_dmy_re _) as [mo|] eqn:E; [|discriminate].
  apply search_sound in E. destruct E as (pre & post & _ & Hs).
  destruct (date_groups _ _ mo Hs eq_refl) as (a' & b' & y' & G & Ha & Hb & Hy).
  rewrite G. intros H. injection H as <- <- <-.
  pose proof (group_len_sem false 1 1 2 date_dmy_re eq_refl _ _ _ Hs
                (len_caps_nil _ _ _)) as L1.
  pose proof (group_len_sem false 2 1 2 date_dmy_re eq_refl _ _ _ Hs
                (len_caps_nil _ _ _)) as L2.
  pose proof (group_len_sem false 3 4 4 date_dmy_re eq_refl _ _ _ Hs
                (len_caps_nil _ _ _)) as L3.
  unfold groups, group in G. simpl in G. injection G as G1 G2 G3.
  apply L1 in G1. apply L2 in G2. apply L3 in G3.
  repeat split; try assumption; lia.
Qed.

Lemma digit_not_sign s :
  isdecimal s = true ->
  match s with
  | c :: _ => (c =? ch "+")%N || (c =? ch "-")%N = false
  | [] => False
  end.
Proof.
  destruct s as [|c s]; simpl; [discriminate|]. intros H.
  apply andb_true_iff in H. destruct H as [H _].
  apply is_digit_cases in H.
  apply orb_false_iff. split; apply N.eqb_neq; intros ->; simpl in H; lia.
Qed.

Lemma zfill_digits w s :
  isdecimal s = true -> zfill w s = repeat (ch "0") (w - length s) ++ s.
Proof.
  intros H. pose proof (digit_not_sign s H) as N. unfold zfill.
  destruct s as [|c s]; [destruct N|]. now rewrite N.
Qed.

Lemma forallb_repeat (f : char -> bool) x n :
  f x = true -> forallb f (repeat x n) = true.
Proof. intros H. induction n; simpl; [reflexivity|now rewrite H]. Qed.

Lemma zfill_isdecimal w s :
  isdecimal s = true ->
  isdecimal (zfill w s) = true /\ length (zfill w s) = Nat.max w (length s).
Proof.
  intros H. rewrite (zfill_digits w s H).
  destruct (isdecimal_elim s H) as [L F]. split.
  - apply isdecimal_intro; [rewrite length_app; lia|].
    rewrite forallb_app, F, forallb_repeat; reflexivity.
  - rewrite length_app, repeat_length. lia.
Qed.

Lemma two_digits s :
  isdecimal s = true -> length s = 2 ->
  exists x y, s = [x; y] /\ is_digit x = true /\ is_digit y = true.
Proof.
  intros H L. destruct (isdecimal_elim s H) as [_ F].
  destruct s as [|x [|y [|z s]]]; try discriminate.
  simpl in F. apply andb_true_iff in F. destruct F as [Fx F].
  apply andb_true_iff in F. destruct F as [Fy _]. now exists x, y.
Qed.

Lemma format_date_canonical m d y :
  isdecimal m = true -> isdecimal d = true -> isdecimal y = true ->
  length m <= 2 -> length d <= 2 -> length y = 4 ->
  canonical_date (format_date m d y) = true.
Proof.
  intros Hm Hd Hy Lm Ld Ly. unfold format_date.
  destruct (zfill_isdecimal 2 m Hm) as [Zm Km].
  destruct (zfill_isdecimal 2 d Hd) as [Zd Kd].
  destruct (two_digits _ Zm) as (m1 & m2 & -> & M1 & M2); [lia|].
  destruct (two_digits _ Zd) as (d1 & d2 & -> & D1 & D2); [lia|].
  destruct (isdecimal_elim y Hy) as [_ F].
  destruct y as [|y1 [|y2 [|y3 [|y4 [|y5 y]]]]]; try discriminate.
  simpl in F. repeat (apply andb_true_iff in F; destruct F as [? F]).
  simpl. now rewrite M1, M2, D1, D2, H, H0, H1, H2.
Qed.

Lemma canonical_not_empty d : canonical_date d = true -> d <> [].
Proof. intros H ->. discriminate. Qed.

Lemma date_labelled_canonical res d :
  date_labelled res = Some d -> canonical_date d = true.
Proof.
  destruct (date_triple res) as [[[a b] y]|] eqn:T.
  - rewrite (date_labelled_triple res a b y T).
    destruct (date_triple_shape _ _ _ _ T) as (Ha & Hb & Hy & La & Lb & Ly).
    destruct (_ && _); [|discriminate]. intros E. injection E as <-.
    now apply format_date_canonical.
  - now rewrite (date_labelled_none res T).
Qed.

Lemma date_direct_canonical res d :
  date_direct res = Some d -> canonical_date d = true.
Proof.
  destruct (date_triple res) as [[[a b] y]|] eqn:T.
  - rewrite (date_direct_triple res a b y T).
    destruct (date_triple_shape _ _ _ _ T) as (Ha & Hb & Hy & La & Lb & Ly).
    intros E. injection E as <-.
    destruct (_ && _); now apply format_date_canonical.
  - now rewrite (date_direct_none res T).
Qed.

Lemma date_direct_finds res : date_triple res <> None -> date_direct res <> None.
Proof.
  destruct (date_triple res) as [[[a b] y]|] eqn:T; [|congruence]. intros _.
  now rewrite (date_direct_triple res a b y T).
Qed.

Lemma no_triple_no_match rs :
  first_some date_direct rs = None ->
  forall res, In res rs ->
    search false date_dmy_re (strip (l_text res)) = None.
Proof.
  intros H res I. apply date_triple_none.
  destruct (date_triple res) eqn:T; [|reflexivity].
  exfalso. apply (date_direct_finds res); [congruence|].
  now apply (first_some_nowhere _ _ H).
Qed.

Lemma dead_date_loops rs :
  first_some date_direct rs = None ->
  first_some date_forced rs = None /\ direct_matches rs = [].
Proof.
  intros H. pose proof (no_triple_no_match rs H) as N. split.
  - apply first_some_none. intros res I. unfold date_forced. now rewrite (N res I).
  - unfold direct_matches. induction rs as [|res rs IH]; [reflexivity|]. simpl.
    rewrite (findall_none _ _ (N res (or_introl eq_refl))). simpl.
    apply IH.
    + simpl in H. destruct (date_direct res); [discriminate|assumption].
    + intros r I. apply N. now right.
Qed.

Lemma date_cascade rs :
  extract_date_enhanced rs =
  match first_some date_labelled rs with
  | Some d => d
  | None =>
    match first_some date_direct rs with
    | Some d => d
    | None =>
      match first_some date_patterned rs with
      | Some d => d
      | None => []
      end
    end
  end.
Proof.
  unfold extract_date_enhanced.
  destruct (first_some date_labelled rs); [reflexivity|].
  destruct (first_some date_direct rs) eqn:E; [reflexivity|].
  destruct (dead_date_loops rs E) as [-> ->]. reflexivity.
Qed.

(** X4 ([extract_date_enhanced], the loops that never find a date).  When
    the second loop, the direct search for D/M/20YY, returns from no line,
    no line holds that pattern, so the third loop (the "force check") and
    the final fallback over all matches find nothing either: the date is
    the result of the labelled loop, else of the direct search, else of the
    pattern table, else empty. *)
Theorem date_force_check_and_fallback_never_fire (rs : list line) :
  (first_some date_direct rs = None ->
   first_some date_forced rs = None /\ direct_matches rs = [])
  /\ extract_date_enhanced rs =
     match first_some date_labelled rs with
     | Some d => d
     | None =>
       match first_some date_direct rs with
       | Some d => d
       | None =>
         match first_some date_patterned rs with
         | Some d => d
         | None => []
         end
       end
     end.
Proof. split; [apply dead_date_loops|apply date_cascade]. Qed.

Lemma date_force_check_and_fallback_never_fire_witness :
  first_some date_forced [mkline (str "Paid 12 May 24") 0.9 (str "binary")] = None
  /\ direct_matches [mkline (str "Paid 12 May 24") 0.9 (str "binary")] = [].
Proof.
  apply (proj1 (date_force_check_and_fallback_never_fire
                  [mkline (str "Paid 12 May 24") 0.9 (str "binary")])).
  vm_compute. reflexivity.
Defined.

(** X5 ([extract_date_enhanced], canonical dates).  When some line holds
    the pattern D/M/20YY, the date is never empty and has the shape
    MM/DD/YYYY: two digits, a slash, two digits, a slash, four digits. *)
Theorem date_is_canonical_when_pattern_present (rs : list line) :
  (exists res, In res rs /\ date_triple res <> None) ->
  canonical_date (extract_date_enhanced rs) = true.
Proof.
  intros (res & I & T). rewrite date_cascade.
  destruct (first_some date_labelled rs) as [d|] eqn:E1.
  - destruct (first_some_found _ _ _ E1) as (x & _ & Ex).
    now apply (date_labelled_canonical x).
  - destruct (first_some date_direct rs) as [d|] eqn:E2.
    + destruct (first_some_found _ _ _ E2) as (x & _ & Ex).
      now apply (date_direct_canonical x).
    + exfalso. apply (date_direct_finds res T).
      now apply (first_some_nowhere _ _ E2).
Qed.

Lemma date_is_canonical_when_pattern_present_witness :
  canonical_date
    (extract_date_enhanced
       [ mkline (str "Thank you") 0.9 (str "binary");
         mkline (str "Paid on 5.11.2023") 0.8 (str "binary") ]) = true.
Proof.
  apply date_is_canonical_when_pattern_present.
  exists (mkline (str "Paid on 5.11.2023") 0.8 (str "binary")).
  split; [right; left; reflexivity|vm_compute; discriminate].
Defined.

(** *** What the validation of [process_receipt] can change *)

Lemma lstrip_head s : head_ok (lstrip s).
Proof.
  induction s as [|c s IH]; simpl; [exact I|].
  destruct (is_space c) eqn:E; [assumption|exact E].
Qed.

Lemma lstrip_fix s : head_ok s -> lstrip s = s.
Proof. destruct s as [|c s]; simpl; [reflexivity|]. now intros ->. Qed.

Lemma strip_head s : head_ok (strip s).
Proof.
  unfold strip. pose proof (lstrip_head s) as Hu. set (u := lstrip s) in *.
  destruct (lstrip_suffix (rev u)) as [pre E].
  set (w := lstrip (rev u)) in *.
  assert (Eu : u = rev w ++ rev pre)
    by (rewrite <- rev_app_distr, <- E; now rewrite rev_involutive).
  destruct (rev w) as [|c t]; [exact I|].
  rewrite Eu in Hu. exact Hu.
Qed.

Lemma strip_idem s : strip (strip s) = strip s.
Proof.
  unfold strip at 1. rewrite (lstrip_fix _ (strip_head s)).
  assert (H : head_ok (rev (strip s)))
    by (unfold strip; rewrite rev_involutive; apply lstrip_head).
  rewrite (lstrip_fix _ H). apply rev_involutive.
Qed.

Lemma last_resort_finds_nothing ds :
  extract_date_enhanced (deduplicated_results ds) = [] ->
  first_some last_resort_date ds = None.
Proof.
  intros E. set (rs := deduplicated_results ds) in *.
  assert (D : first_some date_direct rs = None).
  { rewrite date_cascade in E.
    destruct (first_some date_labelled rs) as [d|] eqn:E1.
    - destruct (first_some_found _ _ _ E1) as (x & _ & Ex).
      apply date_labelled_canonical in Ex. subst d. discriminate.
    - destruct (first_some date_direct rs) as [d|] eqn:E2; [|reflexivity].
      destruct (first_some_found _ _ _ E2) as (x & _ & Ex).
      apply date_direct_canonical in Ex. subst d. discriminate. }
  apply first_some_none. intros d I. unfold last_resort_date.
  destruct (search false date_dmy_re (strip (d_text d))) as [mo|] eqn:S.
  - exfalso. pose proof (search_minlen _ _ _ _ S) as L.
    change (minlen date_dmy_re) with 8 in L.
    destruct (kept_text ds d I) as (r & Ir & Er); [lia|].
    pose proof (no_triple_no_match rs D r Ir) as N.
    rewrite Er, strip_idem in N. congruence.
  - now rewrite (findall_none _ _ S).
Qed.

Lemma validation_effect ds r :
  extract_receipt_data ds = Some r ->
  validate_critical_data ds r
  = mkreceipt (match title r with [] => untitled | _ => title r end)
              (date r) (amount r) (currency_code r) (raw_text r).
Proof.
  intros E. unfold validate_critical_data. f_equal.
  destruct (date r) eqn:D; [|reflexivity].
  destruct (raw_text_of ds r E) as (_ & _ & Ed). rewrite D in Ed.
  now rewrite (last_resort_finds_nothing ds (eq_sym Ed)).
Qed.

(** X6 ([process_receipt], "validate critical data").  On a record that
    [extract_receipt_data] returned for the same detections, the validation
    changes at most the title, an empty one becoming "Untitled Receipt".
    Its last-resort search for a date in the raw detections never finds
    one: a detection that holds D/M/20YY survives the fusion, so the date
    extractor has already returned a date. *)
Theorem validation_only_fills_title (ds : list detection) (r : receipt) :
  extract_receipt_data ds = Some r ->
  validate_critical_data ds r
  = mkreceipt (match title r with [] => untitled | _ => title r end)
              (date r) (amount r) (currency_code r) (raw_text r).
Proof. apply validation_effect. Qed.

Lemma validation_only_fills_title_witness :
  validate_critical_data
    [mkdet (str "Store") 0.9 (str "binary")]
    (mkreceipt [] [] 0 UNKNOWN [str "Store"])
  = mkreceipt untitled [] 0 UNKNOWN [str "Store"].
Proof.
  apply (validation_only_fills_title
           [mkdet (str "Store") 0.9 (str "binary")]
           (mkreceipt [] [] 0 UNKNOWN [str "Store"])).
  vm_compute. reflexivity.
Defined.

(** *** Every date is digits between slashes *)

Lemma digits_no_slash s : forallb is_digit s = true -> ~ In (ch "/") s.
Proof.
  intros F I. rewrite forallb_forall in F. apply F in I. discriminate.
Qed.

Lemma slashed m d y :
  isdecimal m = true -> isdecimal d = true -> isdecimal y = true ->
  2 <= length m -> 2 <= length d ->
  slashed_digits (m ++ slash ++ d ++ slash ++ y) = true.
Proof.
  intros Hm Hd Hy Lm Ld. unfold slashed_digits, slash. simpl.
  destruct (isdecimal_elim _ Hm) as [_ Fm]. destruct (isdecimal_elim _ Hd) as [_ Fd].
  destruct (isdecimal_elim _ Hy) as [_ Fy].
  rewrite split_app by now apply digits_no_slash.
  rewrite split_app by now apply digits_no_slash.
  rewrite split_last by now apply digits_no_slash.
  rewrite Hm, Hd, Hy.
  destruct (length m) as [|[|?]]; [lia|lia|].
  destruct (length d) as [|[|?]]; [lia|lia|reflexivity].
Qed.

Lemma format_date_slashed m d y :
  isdecimal m = true -> isdecimal d = true -> isdecimal y = true ->
  slashed_digits (format_date m d y) = true.
Proof.
  intros Hm Hd Hy. unfold format_date.
  destruct (zfill_isdecimal 2 m Hm) as [Zm Km].
  destruct (zfill_isdecimal 2 d Hd) as [Zd Kd].
  apply slashed; try assumption; lia.
Qed.

Lemma canonical_slashed res a b y m d :
  date_triple res = Some (a, b, y) ->
  (m = a /\ d = b) \/ (m = b /\ d = a) ->
  slashed_digits (format_date m d y) = true.
Proof.
  intros T H. destruct (date_triple_shape _ _ _ _ T) as (Ha & Hb & Hy & _).
  destruct H as [[-> ->]|[-> ->]]; now apply format_date_slashed.
Qed.

Lemma groups_length r mo : length (groups r mo) = ngroups r.
Proof. unfold groups. now rewrite length_map, length_seq. Qed.

Lemma groups_digits ic r s mo :
  digit_groups r = true -> sem ic r s [] (m_caps mo) ->
  forall t, In (Some t) (groups r mo) -> isdecimal t = true.
Proof.
  intros D H t I. unfold groups in I. apply in_map_iff in I.
  destruct I as (i & E & _). unfold group in E.
  exact (digit_groups_sem ic r D _ _ _ H digit_caps_nil i t E).
Qed.

Lemma expand_year_digits y y' :
  isdecimal y = true -> expand_year y = Some y' -> isdecimal y' = true.
Proof.
  intros H. unfold expand_year. destruct (Nat.eqb (length y) 2).
  - destruct (int_of_text y) as [v|]; [|discriminate]. intros E. injection E as <-.
    destruct (isdecimal_elim _ H) as [L F].
    destruct (v <? 50)%Z; apply isdecimal_intro;
      try (rewrite length_app; simpl; lia);
      rewrite forallb_app, F; reflexivity.
  - intros E. now injection E as <-.
Qed.

Lemma month_map_values k v :
  In (k, v) month_map -> isdecimal v = true /\ length v = 2.
Proof.
  intros I.
  assert (F : forallb (fun kv : text * text =>
                         isdecimal (snd kv) && Nat.eqb (length (snd kv)) 2)
                      month_map = true) by (vm_compute; reflexivity).
  rewrite forallb_forall in F. apply F in I. simpl in I.
  apply andb_true_iff in I. destruct I as [I1 I2]. apply Nat.eqb_eq in I2. auto.
Qed.

Lemma date_pattern_groups p :
  In p date_patterns -> digit_groups p = true \/ ngroups p = 1.
Proof.
  intros I.
  assert (F : forallb (fun p => digit_groups p || Nat.eqb (ngroups p) 1)
                      date_patterns = true) by (vm_compute; reflexivity).
  rewrite forallb_forall in F. apply F in I.
  apply orb_true_iff in I. destruct I as [I|I]; [now left|right].
  now apply Nat.eqb_eq.
Qed.

Lemma date_by_pattern_slashed t p d :
  In p date_patterns -> date_by_pattern t p = Some d -> slashed_digits d = true.
Proof.
  intros I. unfold date_by_pattern.
  destruct (search true p t) as [mo|] eqn:S; [|discriminate].
  apply search_sound in S. destruct S as (pre & post & _ & Hs).
  pose proof (groups_length p mo) as L.
  destruct (date_pattern_groups p I) as [D|N].
  - pose proof (groups_digits true p _ mo D Hs) as G.
    destruct (groups p mo) as [|[g0|] [|[g1|] [|[g2|] [|g3 gs]]]]; try discriminate.
    + (* two groups *)
      assert (H0 : isdecimal g0 = true) by (apply G; simpl; auto).
      assert (H1 : isdecimal g1 = true) by (apply G; simpl; auto).
      destruct (find _ month_map) as [[k month]|] eqn:F; [|discriminate].
      apply find_some in F. destruct F as [F _].
      apply month_map_values in F. destruct F as [Hm Lm].
      destruct (expand_year _) as [year|] eqn:Ey; [|discriminate].
      intros E. injection E as <-.
      assert (Hy : isdecimal year = true).
      { destruct (Nat.leb 2 (length g1));
          eapply expand_year_digits; try exact Ey; assumption. }
      assert (Hd : isdecimal (if is_some (rematch false two_digits_re g0)
                            then g0 else g1) = true)
        by (destruct (is_some _); assumption).
      destruct (zfill_isdecimal 2 _ Hd) as [Zd Kd].
      apply slashed; try assumption; lia.
    + (* three groups *)
      assert (H0 : isdecimal g0 = true) by (apply G; simpl; auto).
      assert (H1 : isdecimal g1 = true) by (apply G; simpl; auto).
      assert (H2 : isdecimal g2 = true) by (apply G; simpl; auto).
      destruct (int_of_text g0) as [p1|]; [|discriminate].
      match goal with
      | |- context [if ?c then ?a else Some false] =>
        destruct (if c then a else Some false) as [eu|]; [|discriminate]
      end.
      destruct (expand_year g2) as [year|] eqn:Ey;
        [|destruct eu; discriminate].
      pose proof (expand_year_digits _ _ H2 Ey) as Hy.
      destruct eu; intros E; injection E as <-; now apply format_date_slashed.
  - destruct (groups p mo) as [|[g0|] [|[g1|] [|[g2|] [|g3 gs]]]];
      try discriminate; simpl in L; lia.
Qed.

Lemma date_patterned_slashed res d :
  date_patterned res = Some d -> slashed_digits d = true.
Proof.
  unfold date_patterned. intros H.
  destruct (first_some_found _ _ _ H) as (p & I & E).
  exact (date_by_pattern_slashed _ p d I E).
Qed.

Lemma canonical_is_slashed d : canonical_date d = true -> slashed_digits d = true.
Proof.
  destruct d as [|m1 [|m2 [|s1 [|d1 [|d2 [|s2 [|y1 [|y2 [|y3 [|y4 [|z d]]]]]]]]]]];
    try discriminate.
  unfold canonical_date. intros H.
  apply andb_true_iff in H. destruct H as [H E2].
  apply andb_true_iff in H. destruct H as [H E1].
  apply N.eqb_eq in E1, E2. subst s1 s2.
  cbn [forallb] in H.
  destruct (is_digit m1) eqn:M1; [|discriminate].
  destruct (is_digit m2) eqn:M2; [|discriminate].
  destruct (is_digit d1) eqn:D1; [|discriminate].
  destruct (is_digit d2) eqn:D2; [|discriminate].
  apply (slashed [m1; m2] [d1; d2] [y1; y2; y3; y4]);
    cbn [isdecimal forallb length]; try lia;
    try rewrite M1; try rewrite M2; try rewrite D1; try rewrite D2;
    try reflexivity.
  exact H.
Qed.

(** X7 ([extract_date_enhanced], the shape of every date).  The date is
    empty or three runs of digits between two slashes, the first two of at
    least two digits.  The year is not always of four digits: the line
    "Date: 1/2/123" yields "01/02/123". *)
Theorem date_is_empty_or_slashed_digits (rs : list line) :
  (extract_date_enhanced rs = []
   \/ slashed_digits (extract_date_enhanced rs) = true)
  /\ forall c v,
       extract_date_enhanced (deduplicated_results [mkdet (str "Date: 1/2/123") c v])
       = str "01/02/123".
Proof.
  split; [|intros c v; vm_compute; reflexivity]. rewrite date_cascade.
  destruct (first_some date_labelled rs) as [d|] eqn:E1.
  - right. destruct (first_some_found _ _ _ E1) as (x & _ & Ex).
    apply canonical_is_slashed. now apply (date_labelled_canonical x).
  - destruct (first_some date_direct rs) as [d|] eqn:E2.
    + right. destruct (first_some_found _ _ _ E2) as (x & _ & Ex).
      apply canonical_is_slashed. now apply (date_direct_canonical x).
    + destruct (first_some date_patterned rs) as [d|] eqn:E3; [right|now left].
      destruct (first_some_found _ _ _ E3) as (x & _ & Ex).
      now apply (date_patterned_slashed x).
Qed.

(* ===================================================================== *)
(** ** The service: variants, fallback and answer *)
(* ===================================================================== *)

Lemma above_threshold_spec r :
  above_threshold r = true <-> (confidence_threshold < snd r)%Q.
Proof.
  unfold above_threshold. rewrite negb_true_iff. split.
  - intros H. apply Qnot_le_lt. intros L. apply Qle_bool_iff in L. congruence.
  - intros H. destruct (Qle_bool (snd r) confidence_threshold) eqn:E; [|reflexivity].
    apply Qle_bool_iff in E. exfalso. exact (Qlt_not_le _ _ H E).
Qed.

Section ServiceFacts.

Variable image : Type.
Variable readtext : image -> option (list reading).
Variables binary adaptive enhanced_binary denoised_binary : image -> image.
Variable preprocess_image : image -> image.
Variable load_image : text -> option image.

Local Abbreviation the_variants :=
  (variants binary adaptive enhanced_binary denoised_binary).
Local Abbreviation run_variants :=
  (process_receipt_image readtext binary adaptive enhanced_binary denoised_binary).
Local Abbreviation answer :=
  (process_receipt readtext binary adaptive enhanced_binary denoised_binary
                   preprocess_image load_image).

Lemma read_variant_in v d :
  In d (read_variant readtext v) <->
  exists rs r,
    readtext (snd v) = Some rs /\ In r rs
    /\ (confidence_threshold < snd r)%Q
    /\ d = mkdet (fst r) (snd r) (fst v).
Proof.
  unfold read_variant. destruct (readtext (snd v)) as [rs|].
  - rewrite in_map_iff. split.
    + intros (r & <- & I). apply filter_In in I. destruct I as [I A].
      apply above_threshold_spec in A. exists rs, r. auto.
    + intros (rs' & r & E & I & A & ->). injection E as <-.
      exists r. split; [reflexivity|]. apply filter_In.
      split; [assumption|now apply above_threshold_spec].
  - split; [intros []|]. intros (rs & r & E & _). discriminate.
Qed.

(** X8 ([process_receipt_image]).  The detections of the variants are
    exactly the readings whose confidence exceeds 0.2, of the variants on
    which the reader did not fail, each under the name of its variant,
    which is one of "binary", "adaptive", "enhanced" and "denoised": a
    failing variant removes nothing from the others, and no reading at or
    below the threshold gets through. *)
Theorem variants_keep_confident_readings (img : image) (d : detection) :
  In d (run_variants img) <->
  exists name v rs r,
    In (name, v) (the_variants img)
    /\ In name [str "binary"; str "adaptive"; str "enhanced"; str "denoised"]
    /\ readtext v = Some rs /\ In r rs
    /\ (confidence_threshold < snd r)%Q
    /\ d = mkdet (fst r) (snd r) name.
Proof.
  unfold process_receipt_image. rewrite in_flat_map. split.
  - intros ([name v] & I & H). apply read_variant_in in H.
    destruct H as (rs & r & E & Ir & A & ->). exists name, v, rs, r.
    repeat split; try assumption.
    unfold variants in I. simpl in I.
    destruct I as [I|[I|[I|[I|[]]]]]; injection I as <- _; simpl; auto.
  - intros (name & v & rs & r & I & _ & E & Ir & A & ->).
    exists (name, v). split; [assumption|]. apply read_variant_in.
    exists rs, r. auto.
Qed.

(** The detections that [process_receipt] hands to the extraction. *)
Lemma answer_cases image_data img :
  load_image (image_payload image_data) = Some img ->
  (run_variants img <> []
   /\ answer (Some image_data)
      = match extract_receipt_data (run_variants img) with
        | Some data => success (validate_critical_data (run_variants img) data)
        | None => failure 500 Unhandled_exception
        end)
  \/ (run_variants img = []
      /\ readtext (preprocess_image img) = None
      /\ answer (Some image_data) = failure 500 Unhandled_exception)
  \/ (run_variants img = []
      /\ readtext (preprocess_image img) = Some []
      /\ answer (Some image_data) = failure 400 No_text_detected)
  \/ (run_variants img = []
      /\ exists results,
           readtext (preprocess_image img) = Some results /\ results <> []
           /\ answer (Some image_data)
              = match extract_receipt_data (map (tag (str "standard")) results) with
                | Some data =>
                  success (validate_critical_data
                             (map (tag (str "standard")) results) data)
                | None => failure 500 Unhandled_exception
                end).
Proof.
  intros L. unfold process_receipt. rewrite L.
  destruct (run_variants img) as [|d ds] eqn:E.
  - right. destruct (readtext (preprocess_image img)) as [[|r rs]|] eqn:F.
    + right. left. auto.
    + right. right. split; [reflexivity|]. exists (r :: rs).
      split; [reflexivity|]. split; [discriminate|reflexivity].
    + left. auto.
  - left. split; [discriminate|reflexivity].
Qed.

(** X9 ([process_receipt], the answers for an image that loads).  Once the
    image data decodes, and with the transformations of OpenCV taken as
    total functions, the request succeeds whenever a variant gives a
    reading above the threshold or the fallback reader gives any reading,
    and the title of the answer is never empty; it is refused with "No
    text detected" only when both give nothing, and it ends in the status
    500 only when the reader itself raises in the fallback: the extraction
    never makes the request fail. *)
Theorem loaded_image_answers (image_data : text) (img : image) :
  load_image (image_payload image_data) = Some img ->
  match answer (Some image_data) with
  | success data =>
    title data <> []
    /\ (run_variants img <> []
        \/ exists results,
             readtext (preprocess_image img) = Some results /\ results <> [])
  | failure status error =>
    run_variants img = []
    /\ ((status = 400 /\ error = No_text_detected
         /\ readtext (preprocess_image img) = Some [])
        \/ (status = 500 /\ error = Unhandled_exception
            /\ readtext (preprocess_image img) = None))
  end.
Proof.
  intros L.
  destruct (answer_cases image_data img L)
    as [(N & ->)|[(E & F & ->)|[(E & F & ->)|(E & rs & F & N & ->)]]].
  - destruct (extract_receipt_data (run_variants img)) as [data|] eqn:X;
      [|exfalso; now apply (pipeline_returns (run_variants img))].
    split; [apply validated_title_not_empty|now left].
  - split; [assumption|]. right. auto.
  - split; [assumption|]. left. auto.
  - destruct (extract_receipt_data (map (tag (str "standard")) rs)) as [data|] eqn:X;
      [|exfalso; now apply (pipeline_returns (map (tag (str "standard")) rs))].
    split; [apply validated_title_not_empty|]. right. exists rs. auto.
Qed.

(** X10 ([process_receipt], what a successful answer holds).  The record
    of a successful answer is what [extract_receipt_data] returns on the
    detections of the variants or, when there is none, on all the readings
    of the fallback under the name "standard", whatever their confidence;
    the validation changes nothing of it but an empty title. *)
Theorem successful_answer_is_the_extraction (image_field : option text)
  (data : receipt) :
  answer image_field = success data ->
  exists image_data img ocr_results r,
    image_field = Some image_data
    /\ load_image (image_payload image_data) = Some img
    /\ (ocr_results = run_variants img
        \/ (run_variants img = []
            /\ exists results,
                 readtext (preprocess_image img) = Some results
                 /\ ocr_results = map (tag (str "standard")) results))
    /\ ocr_results <> []
    /\ extract_receipt_data ocr_results = Some r
    /\ data = mkreceipt (match title r with [] => untitled | _ => title r end)
                        (date r) (amount r) (currency_code r) (raw_text r).
Proof.
  destruct image_field as [image_data|]; [|discriminate].
  destruct (load_image (image_payload image_data)) as [img|] eqn:L;
    [|unfold process_receipt; rewrite L; discriminate].
  intros H. exists image_data, img.
  destruct (answer_cases image_data img L)
    as [(N & E)|[(_ & _ & E)|[(_ & _ & E)|(E0 & rs & F & N & E)]]];
    rewrite E in H; try discriminate.
  - destruct (extract_receipt_data (run_variants img)) as [r|] eqn:X; [|discriminate].
    injection H as <-. exists (run_variants img), r.
    repeat split; auto. now apply validation_effect.
  - destruct (extract_receipt_data (map (tag (str "standard")) rs)) as [r|] eqn:X;
      [|discriminate].
    injection H as <-. exists (map (tag (str "standard")) rs), r.
    repeat split; auto.
    + right. split; [assumption|]. exists rs. auto.
    + destruct rs; [congruence|discriminate].
    + now apply validation_effect.
Qed.

End ServiceFacts.

Lemma loaded_image_answers_witness :
  match
    process_receipt
      (fun _ : nat => Some [(str "ACME SHOP", 0.9%Q); (str "Total: $5.00", 0.1%Q)])
      (fun i => i) (fun i => i) (fun i => i) (fun i => i) (fun i => i)
      (fun _ => Some 0) (Some (str "data:image/png;base64,AAAA"))
  with
  | success data =>
    title data <> []
    /\ (process_receipt_image
          (fun _ : nat => Some [(str "ACME SHOP", 0.9%Q); (str "Total: $5.00", 0.1%Q)])
          (fun i => i) (fun i => i) (fun i => i) (fun i => i) 0 <> []
        \/ exists results,
             (fun _ : nat => Some [(str "ACME SHOP", 0.9%Q); (str "Total: $5.00", 0.1%Q)]) 0
             = Some results /\ results <> [])
  | failure status error =>
    process_receipt_image
      (fun _ : nat => Some [(str "ACME SHOP", 0.9%Q); (str "Total: $5.00", 0.1%Q)])
      (fun i => i) (fun i => i) (fun i => i) (fun i => i) 0 = []
    /\ ((status = 400 /\ error = No_text_detected
         /\ (fun _ : nat => Some [(str "ACME SHOP", 0.9%Q); (str "Total: $5.00", 0.1%Q)]) 0
            = Some [])
        \/ (status = 500 /\ error = Unhandled_exception
            /\ (fun _ : nat => Some [(str "ACME SHOP", 0.9%Q); (str "Total: $5.00", 0.1%Q)]) 0
               = None))
  end.
Proof.
  apply (loaded_image_answers nat
           (fun _ => Some [(str "ACME SHOP", 0.9%Q); (str "Total: $5.00", 0.1%Q)])
           (fun i => i) (fun i => i) (fun i => i) (fun i => i) (fun i => i)
           (fun _ => Some 0) (str "data:image/png;base64,AAAA") 0).
  reflexivity.
Defined.

Lemma successful_answer_is_the_extraction_witness :
  exists image_data img ocr_results r,
    Some (str "AAAA") = Some image_data
    /\ (fun _ : text => Some 0) (image_payload image_data) = Some img
    /\ (ocr_results
        = process_receipt_image (fun _ : nat => Some [(str "Store", 0.9%Q)])
            (fun i => i) (fun i => i) (fun i => i) (fun i => i) img
        \/ (process_receipt_image (fun _ : nat => Some [(str "Store", 0.9%Q)])
              (fun i => i) (fun i => i) (fun i => i) (fun i => i) img = []
            /\ exists results,
                 (fun _ : nat => Some [(str "Store", 0.9%Q)]) ((fun i => i) img)
                 = Some results
                 /\ ocr_results = map (tag (str "standard")) results))
    /\ ocr_results <> []
    /\ extract_receipt_data ocr_results = Some r
    /\ mkreceipt untitled [] 0 UNKNOWN [str "Store"]
       = mkreceipt (match title r with [] => untitled | _ => title r end)
                   (date r) (amount r) (currency_code r) (raw_text r).
Proof.
  apply (successful_answer_is_the_extraction nat
           (fun _ => Some [(str "Store", 0.9%Q)])
           (fun i => i) (fun i => i) (fun i => i) (fun i => i) (fun i => i)
           (fun _ => Some 0) (Some (str "AAAA"))
           (mkreceipt untitled [] 0 UNKNOWN [str "Store"])).
  vm_compute. reflexivity.
Defined.

(* ===================================================================== *)
(** ** The title is text that was read *)
(* ===================================================================== *)

Lemma part_refl s : contains s s = true.
Proof. apply contains_spec. exists [], []. now rewrite app_nil_r. Qed.

Lemma part_trans a b c :
  contains a b = true -> contains b c = true -> contains a c = true.
Proof.
  rewrite !contains_spec. intros (p1 & q1 & ->) (p2 & q2 & ->).
  exists (p2 ++ p1), (q1 ++ q2). now rewrite <- !app_assoc.
Qed.

Lemma part_app_l a s1 s2 : contains a s1 = true -> contains a (s1 ++ s2) = true.
Proof.
  rewrite !contains_spec. intros (p & q & ->). exists p, (q ++ s2).
  now rewrite <- !app_assoc.
Qed.

Lemma part_app_r a s1 s2 : contains a s2 = true -> contains a (s1 ++ s2) = true.
Proof.
  rewrite !contains_spec. intros (p & q & ->). exists (s1 ++ p), q.
  now rewrite <- !app_assoc.
Qed.

Lemma strip_part s : contains (strip s) s = true.
Proof. apply contains_spec. destruct (strip_infix s) as (p & q & E). now exists p, q. Qed.

(** A capture is a part of the text that the pattern consumed. *)
Lemma iter_caps_part (R : text -> caps -> caps -> Prop) :
  (forall s c c', R s c c' ->
     forall i g, get i c' = Some g -> get i c = Some g \/ contains g s = true) ->
  forall n s c c', iter R n s c c' ->
    forall i g, get i c' = Some g -> get i c = Some g \/ contains g s = true.
Proof.
  intros HR. induction 1 as [|n s1 s2 c cm c' H1 Hit IH]; intros i g G; [now left|].
  destruct (IH i g G) as [G'|P]; [|right; now apply part_app_r].
  destruct (HR _ _ _ H1 i g G') as [G''|P]; [now left|right; now apply part_app_l].
Qed.

Lemma caps_part ic r : forall s c c', sem ic r s c c' ->
  forall i g, get i c' = Some g -> get i c = Some g \/ contains g s = true.
Proof.
  induction r as [| p | | neg items | | | r1 IH1 r2 IH2 | r1 IH1 r2 IH2
                 | lo hi r IH | j r IH | r IH]; intros s c c' H i g G; simpl in H.
  - destruct H as [_ ->]. now left.
  - destruct H as (x & _ & _ & ->). now left.
  - destruct H as (x & _ & _ & ->). now left.
  - destruct H as (x & _ & _ & ->). now left.
  - destruct H as [_ ->]. now left.
  - destruct H as [_ ->]. now left.
  - destruct H as (s1 & s2 & cm & -> & H1 & H2).
    destruct (IH2 _ _ _ H2 i g G) as [G'|P]; [|right; now apply part_app_r].
    destruct (IH1 _ _ _ H1 i g G') as [G''|P]; [now left|right; now apply part_app_l].
  - destruct H as [H|H]; eauto.
  - destruct H as (n & _ & _ & Hit). exact (iter_caps_part _ IH _ _ _ _ Hit i g G).
  - destruct H as (cm & H & ->). simpl in G. destruct (Nat.eqb i j).
    + injection G as <-. right. apply part_refl.
    + eauto.
  - destruct H as [_ ->]. now left.
Qed.

Lemma group_part ic r s mo i g :
  search ic r s = Some mo -> group i mo = Some g -> contains g s = true.
Proof.
  intros S G. apply search_sound in S. destruct S as (pre & post & -> & Hs).
  destruct (caps_part ic r _ _ _ Hs i g G) as [E|P]; [discriminate|].
  apply part_app_r. now apply part_app_l.
Qed.

(** A pattern anchored at the start matches nowhere else, so removing its
    matches leaves an end of the text. *)
Lemma remove_anchored ic r n0 : forall fuel s,
  length s < n0 -> remove_at fuel n0 ic (RSeq RBol r) s = s.
Proof.
  induction fuel as [|f IH]; intros s L; [reflexivity|].
  cbn [remove_at]. unfold match_at. cbn [m].
  destruct (Nat.eqb_spec (length s) n0) as [E|_]; [lia|].
  destruct s as [|x s]; [reflexivity|]. rewrite IH; [reflexivity|simpl in L; lia].
Qed.

Lemma sub_anchored ic r s : exists pre, s = pre ++ sub_empty ic (RSeq RBol r) s.
Proof.
  unfold sub_empty. cbn [remove_at].
  destruct (match_at (length s) ic (RSeq RBol r) 0 s) as [mo|] eqn:M.
  - apply match_at_sound in M. destruct M as (post & E & _).
    destruct (m_text mo) as [|y t] eqn:T.
    + destruct s as [|x s]; [now exists []|]. exists [].
      rewrite remove_anchored; [reflexivity|simpl; lia].
    + exists (y :: t). cbv beta iota. rewrite E.
      assert (K : skipn (length (y :: t)) ((y :: t) ++ post) = post)
        by (rewrite skipn_app, skipn_all, Nat.sub_diag; reflexivity).
      rewrite K. rewrite remove_anchored; [reflexivity|].
      rewrite length_app. simpl. lia.
  - destruct s as [|x s]; [now exists []|]. exists [].
    rewrite remove_anchored; [reflexivity|simpl; lia].
Qed.

Lemma sub_prefix_part s : contains (sub_empty true title_prefix_re s) s = true.
Proof.
  destruct (sub_anchored true
              (RSeq (RGroup 1 (RAlt (lit (str "title"))
                                 (RAlt (lit (str "merchant"))
                                    (RAlt (lit (str "store")) (lit (str "name"))))))
                 (RSeq (RRep 0 None (RSet false [CSpace]))
                    (RSeq (RRep 0 (Some 1)
                             (RSet false [CChar (ch ":"); CChar (ch "."); CChar (ch "-")]))
                       (RSeq (RRep 0 None (RSet false [CSpace])) REmpty)))) s)
    as [pre E].
  apply contains_spec. exists pre, []. rewrite app_nil_r. exact E.
Qed.

Lemma first_raising_found {A B} (f : A -> option (option B)) : forall l b,
  first_raising f l = Some (Some b) -> exists x, In x l /\ f x = Some (Some b).
Proof.
  induction l as [|x l IH]; simpl; intros b H; [discriminate|].
  destruct (f x) as [[b'|]|] eqn:E; [| |discriminate].
  - injection H as <-. exists x. split; [now left|assumption].
  - destruct (IH _ H) as (y & Hy & Ey). exists y. split; [now right|assumption].
Qed.

Lemma title_try_part t p u : title_try t p = Some (Some u) -> contains u t = true.
Proof.
  unfold title_try. destruct (search true p t) as [mo|] eqn:S; [|discriminate].
  destruct (group 1 mo) as [g|] eqn:G; [|discriminate].
  destruct (_ && _); [discriminate|]. intros E. injection E as <-.
  apply (part_trans _ (strip g)); [apply sub_prefix_part|].
  apply (part_trans _ g); [apply strip_part|].
  exact (group_part _ _ _ _ _ _ S G).
Qed.

Lemma name_step_texts rs0 cands res :
  (forall c, In c cands -> exists r, In r rs0 /\ n_text c = strip (l_text r)) ->
  In res rs0 ->
  forall c, In c (name_step cands res) ->
    exists r, In r rs0 /\ n_text c = strip (l_text r).
Proof.
  intros H I c. unfold name_step.
  assert (K : forall s k, In c (cands ++ [mkname (strip (l_text res)) s k]) ->
                          exists r, In r rs0 /\ n_text c = strip (l_text r)).
  { intros s k Hc. apply in_app_or in Hc. destruct Hc as [Hc|[<-|[]]]; [now apply H|].
    exists res. split; [assumption|reflexivity]. }
  destruct (Nat.ltb _ 3); [apply H|].
  destruct (is_some (search true structural_re _)); [apply H|].
  destruct (is_some (rematch false proper_name_re _)); [apply K|].
  destruct (is_some (search true business_re _)); [apply K|].
  destruct cands as [|c0 cands]; [|apply H].
  destruct (_ && _); [apply K|apply H].
Qed.

Lemma candidates_texts rs c :
  In c (merchant_name_candidates rs) ->
  exists r, In r rs /\ n_text c = strip (l_text r).
Proof.
  unfold merchant_name_candidates.
  assert (G : forall l cands,
             (forall r, In r l -> In r rs) ->
             (forall c, In c cands -> exists r, In r rs /\ n_text c = strip (l_text r)) ->
             forall c, In c (fold_left name_step l cands) ->
               exists r, In r rs /\ n_text c = strip (l_text r)).
  { induction l as [|x l IH]; intros cands Hl Hc; [exact Hc|]. simpl.
    apply IH; [intros r I; apply Hl; now right|].
    apply name_step_texts; [assumption|]. apply Hl. now left. }
  apply G; [auto|intros ? []].
Qed.

Lemma title_part rs t :
  extract_title_enhanced rs = Some t ->
  t = untitled \/ exists res, In res rs /\ contains t (l_text res) = true.
Proof.
  unfold extract_title_enhanced.
  destruct (title_first_pass rs) as [[u|]|] eqn:P; [| |discriminate].
  - intros E. injection E as <-. right. unfold title_first_pass in P.
    destruct (first_raising_found _ _ _ P) as (res & I & P').
    destruct (first_raising_found _ _ _ P') as (p & _ & T).
    exists res. split; [assumption|].
    apply (part_trans _ (strip (l_text res))); [|apply strip_part].
    exact (title_try_part _ _ _ T).
  - destruct (sort_desc name_lt (merchant_name_candidates rs)) as [|best rest] eqn:S.
    + destruct (first_some first_meaningful rs) as [u|] eqn:F.
      * intros E. injection E as <-. right.
        destruct (first_some_found _ _ _ F) as (res & I & M). exists res.
        split; [assumption|]. unfold first_meaningful in M.
        destruct (_ && _); [|discriminate]. injection M as <-. apply strip_part.
      * intros E. injection E as <-. now left.
    + intros E. injection E as <-. right.
      assert (I : In best (merchant_name_candidates rs))
        by (apply (sort_in name_lt); rewrite S; now left).
      destruct (candidates_texts rs best I) as (res & Ir & ->).
      exists res. split; [assumption|apply strip_part].
Qed.

(** X11 ([extract_title_enhanced] in [extract_receipt_data], where a title
    comes from).  The title of the record is the placeholder "Untitled
    Receipt" or a part of the text of one detection, taken as it was read:
    no pass of the extractor changes the case of a title or puts into it a
    character that the detection does not hold. *)
Theorem title_is_read_text (ds : list detection) :
  exists r,
    extract_receipt_data ds = Some r
    /\ (title r = untitled
        \/ exists d, In d ds /\ contains (title r) (d_text d) = true).
Proof.
  destruct (extract_receipt_data ds) as [r|] eqn:E;
    [|exfalso; now apply (pipeline_returns ds)].
  exists r. split; [reflexivity|]. unfold extract_receipt_data in E.
  destruct (extract_title_enhanced _) as [t|] eqn:T; [|discriminate].
  destruct (extract_amount_enhanced _); [|discriminate].
  injection E as <-. simpl.
  destruct (title_part _ _ T) as [->|(res & I & P)]; [now left|right].
  destruct (kept_line ds res I) as (d & Id & El). exists d. split; [assumption|].
  apply (part_trans _ (l_text res)); [assumption|]. rewrite El. apply strip_part.
Qed.

(* ===================================================================== *)
(** ** The choice among the merchant candidates *)
(* ===================================================================== *)

(** The three scores that a candidate can have. *)
Lemma name_step_scores cands res :
  (forall c, In c cands ->
     n_score c = 0.8%float \/ n_score c = 0.7%float \/ n_score c = 0.5%float) ->
  forall c, In c (name_step cands res) ->
    n_score c = 0.8%float \/ n_score c = 0.7%float \/ n_score c = 0.5%float.
Proof.
  intros H c. unfold name_step.
  destruct (Nat.ltb _ 3); [apply H|].
  destruct (is_some (search true structural_re _)); [apply H|].
  destruct (is_some (rematch false proper_name_re _)).
  { intros I. apply in_app_or in I. destruct I as [I|[<-|[]]]; [now apply H|now left]. }
  destruct (is_some (search true business_re _)).
  { intros I. apply in_app_or in I.
    destruct I as [I|[<-|[]]]; [now apply H|right; now left]. }
  destruct cands as [|c0 cands]; [|apply H].
  destruct (_ && _); [|apply H].
  intros [<-|[]]. right. now right.
Qed.

Lemma candidates_scores rs c :
  In c (merchant_name_candidates rs) ->
  n_score c = 0.8%float \/ n_score c = 0.7%float \/ n_score c = 0.5%float.
Proof.
  unfold merchant_name_candidates. revert c.
  apply (fold_left_inv
           (fun cands => forall c, In c cands ->
              n_score c = 0.8%float \/ n_score c = 0.7%float \/ n_score c = 0.5%float)).
  - intros cands res H. now apply name_step_scores.
  - intros c [].
Qed.

Lemma app_one_split {A} (n : A) : forall l pre c post,
  l ++ [n] = pre ++ c :: post ->
  (c = n /\ post = [] /\ pre = l) \/ exists post', l = pre ++ c :: post'.
Proof.
  induction l as [|x l IH]; intros pre c post E.
  - destruct pre as [|y pre]; simpl in E.
    + injection E as <- <-. now left.
    + injection E as _ E. destruct pre; discriminate.
  - destruct pre as [|y pre]; simpl in E.
    + injection E as <- E. right. now exists l.
    + injection E as <- E. destruct (IH _ _ _ E) as [(-> & -> & ->)|[post' ->]].
      * now left.
      * right. now exists post'.
Qed.

(** A "first line" candidate is only ever the first candidate. *)
Lemma name_step_first cands res :
  (forall pre c post, cands = pre ++ c :: post -> n_score c = 0.5%float -> pre = []) ->
  forall pre c post,
    name_step cands res = pre ++ c :: post -> n_score c = 0.5%float -> pre = [].
Proof.
  intros H pre c post. unfold name_step.
  assert (K : forall s k,
             PrimFloat.eqb s 0.5 = false ->
             cands ++ [mkname (strip (l_text res)) s k] = pre ++ c :: post ->
             n_score c = 0.5%float -> pre = []).
  { intros s k Hs E Hc.
    destruct (app_one_split _ _ _ _ _ E) as [(-> & _ & _)|[post' E']].
    - simpl in Hc. rewrite Hc in Hs. vm_compute in Hs. discriminate.
    - exact (H _ _ _ E' Hc). }
  destruct (Nat.ltb _ 3); [apply H|].
  destruct (is_some (search true structural_re _)); [apply H|].
  destruct (is_some (rematch false proper_name_re _)); [now apply K|].
  destruct (is_some (search true business_re _)); [now apply K|].
  destruct cands as [|c0 cands]; [|apply H].
  destruct (_ && _); [|apply H].
  intros E _. destruct pre as [|y pre]; [reflexivity|].
  simpl in E. injection E as _ E. destruct pre; discriminate.
Qed.

Lemma first_line_is_first rs pre c post :
  merchant_name_candidates rs = pre ++ c :: post ->
  n_score c = 0.5%float -> pre = [].
Proof.
  unfold merchant_name_candidates. revert pre c post.
  apply (fold_left_inv
           (fun cands => forall pre c post,
              cands = pre ++ c :: post -> n_score c = 0.5%float -> pre = [])).
  - intros cands res H. now apply name_step_first.
  - intros pre c post E. destruct pre; discriminate.
Qed.

Lemma head_of_insert (x : name_candidate) l :
  hd_error (insert_desc name_lt x l) =
  match hd_error l with
  | Some y => if name_lt x y then Some y else Some x
  | None => Some x
  end.
Proof. destruct l as [|y l]; simpl; [reflexivity|]. now destruct (name_lt x y). Qed.

Lemma find_score s l c :
  find (with_score s) l = Some c -> In c l /\ PrimFloat.eqb (n_score c) s = true.
Proof. intros H. apply find_some in H. exact H. Qed.

Lemma found_score s l a :
  (forall c, In c l ->
     n_score c = 0.8%float \/ n_score c = 0.7%float \/ n_score c = 0.5%float) ->
  (s = 0.8%float \/ s = 0.7%float \/ s = 0.5%float) ->
  find (with_score s) l = Some a -> n_score a = s.
Proof.
  intros H Hs F. apply find_score in F. destruct F as [I E].
  destruct (H a I) as [Ha|[Ha|Ha]]; rewrite Ha in *;
    destruct Hs as [->|[->| ->]]; try reflexivity; vm_compute in E; discriminate.
Qed.

Lemma preferred_is_best l :
  (forall c, In c l ->
     n_score c = 0.8%float \/ n_score c = 0.7%float \/ n_score c = 0.5%float) ->
  hd_error (sort_desc name_lt l) = preferred l.
Proof.
  induction l as [|x l IH]; intros H; [reflexivity|].
  cbn [sort_desc]. rewrite head_of_insert. rewrite IH by (intros c I; apply H; now right).
  assert (Hl : forall c, In c l ->
     n_score c = 0.8%float \/ n_score c = 0.7%float \/ n_score c = 0.5%float)
    by (intros c I; apply H; now right).
  pose proof (H x (or_introl eq_refl)) as Hx.
  destruct x as [tx sx kx]. cbn [n_score] in Hx.
  unfold preferred. cbn [find with_score n_score]. unfold name_lt. cbn [n_score].
  destruct (find (with_score 0.8) l) as [a|] eqn:F8.
  - rewrite (found_score _ _ _ Hl (or_introl eq_refl) F8).
    destruct Hx as [->|[->| ->]]; reflexivity.
  - destruct (find (with_score 0.7) l) as [a|] eqn:F7.
    + rewrite (found_score _ _ _ Hl (or_intror (or_introl eq_refl)) F7).
      destruct Hx as [->|[->| ->]]; reflexivity.
    + destruct (find (with_score 0.5) l) as [a|] eqn:F5.
      * rewrite (found_score _ _ _ Hl (or_intror (or_intror eq_refl)) F5).
        destruct Hx as [->|[->| ->]]; reflexivity.
      * destruct Hx as [->|[->| ->]]; reflexivity.
Qed.

(** X12 ([extract_title_enhanced], the second pass).  Sorting the merchant
    candidates by score and taking the first one chooses the first line
    that reads as a proper name if there is one, else the first line that
    holds a business word, else the "first line" candidate; every candidate
    has one of the scores 0.8, 0.7 and 0.5, and a "first line" candidate is
    recorded only as the first candidate. *)
Theorem best_candidate_is_preferred (rs : list line) :
  hd_error (sort_desc name_lt (merchant_name_candidates rs))
  = preferred (merchant_name_candidates rs)
  /\ (forall c, In c (merchant_name_candidates rs) ->
        n_score c = 0.8%float \/ n_score c = 0.7%float \/ n_score c = 0.5%float)
  /\ (forall pre c post,
        merchant_name_candidates rs = pre ++ c :: post ->
        n_score c = 0.5%float -> pre = []).
Proof.
  split; [|split].
  - apply preferred_is_best. apply candidates_scores.
  - apply candidates_scores.
  - apply first_line_is_first.
Qed.

(* ===================================================================== *)
(** ** The record does not depend on the order of the detections *)
(* ===================================================================== *)

(** *** The extractors read the texts of the lines only *)

Lemma first_some_texts {B} (f : line -> option B) :
  (forall a b, l_text a = l_text b -> f a = f b) ->
  forall rs rs', map l_text rs = map l_text rs' -> first_some f rs = first_some f rs'.
Proof.
  intros Hf. induction rs as [|a rs IH]; intros [|b rs'] E; try discriminate;
    [reflexivity|].
  simpl in E. injection E as E1 E2. simpl. rewrite (Hf a b E1).
  destruct (f b); [reflexivity|now apply IH].
Qed.

Lemma first_raising_texts {B} (f : line -> option (option B)) :
  (forall a b, l_text a = l_text b -> f a = f b) ->
  forall rs rs', map l_text rs = map l_text rs' ->
    first_raising f rs = first_raising f rs'.
Proof.
  intros Hf. induction rs as [|a rs IH]; intros [|b rs'] E; try discriminate;
    [reflexivity|].
  simpl in E. injection E as E1 E2. simpl. rewrite (Hf a b E1).
  destruct (f b) as [[?|]|]; try reflexivity. now apply IH.
Qed.

Lemma fold_left_texts {S} (f : S -> line -> S) :
  (forall s a b, l_text a = l_text b -> f s a = f s b) ->
  forall rs rs' s, map l_text rs = map l_text rs' ->
    fold_left f rs s = fold_left f rs' s.
Proof.
  intros Hf. induction rs as [|a rs IH]; intros [|b rs'] s E; try discriminate;
    [reflexivity|].
  simpl in E. injection E as E1 E2. simpl. rewrite (Hf s a b E1). now apply IH.
Qed.

Ltac same_text :=
  let ta := fresh in let tb := fresh in let E := fresh in
  intros [ta ? ?] [tb ? ?] E; cbn [l_text] in E; subst tb; reflexivity.

Lemma title_texts rs rs' :
  map l_text rs = map l_text rs' ->
  extract_title_enhanced rs = extract_title_enhanced rs'.
Proof.
  intros E. unfold extract_title_enhanced, title_first_pass, merchant_name_candidates.
  rewrite (first_raising_texts
             (fun res => first_raising (title_try (strip (l_text res))) title_patterns)
             ltac:(same_text) rs rs' E).
  rewrite (fold_left_texts name_step
             ltac:(intros s; same_text) rs rs' [] E).
  rewrite (first_some_texts first_meaningful ltac:(same_text) rs rs' E).
  reflexivity.
Qed.

Lemma direct_matches_texts : forall rs rs',
  map l_text rs = map l_text rs' -> direct_matches rs = direct_matches rs'.
Proof.
  unfold direct_matches.
  induction rs as [|a rs IH]; intros [|b rs'] E; try discriminate; [reflexivity|].
  simpl in E. injection E as E1 E2. simpl. rewrite E1. f_equal. now apply IH.
Qed.

Lemma date_texts rs rs' :
  map l_text rs = map l_text rs' ->
  extract_date_enhanced rs = extract_date_enhanced rs'.
Proof.
  intros E. unfold extract_date_enhanced.
  rewrite (first_some_texts date_labelled ltac:(same_text) rs rs' E).
  rewrite (first_some_texts date_direct ltac:(same_text) rs rs' E).
  rewrite (first_some_texts date_forced ltac:(same_text) rs rs' E).
  rewrite (first_some_texts date_patterned ltac:(same_text) rs rs' E).
  rewrite (direct_matches_texts rs rs' E). reflexivity.
Qed.

Lemma confusion_texts : forall rs rs',
  map l_text rs = map l_text rs' ->
  confusion_candidates rs = confusion_candidates rs'.
Proof.
  induction rs as [|a rs IH]; intros [|b rs'] E; try discriminate; [reflexivity|].
  simpl in E. injection E as E1 E2. simpl. rewrite (IH rs' E2).
  assert (Ec : confusion_step a = confusion_step b)
    by (revert E1; revert a b; same_text).
  now rewrite Ec.
Qed.

Lemma amount_texts rs rs' :
  map l_text rs = map l_text rs' ->
  extract_amount_enhanced rs = extract_amount_enhanced rs'.
Proof.
  intros E. unfold extract_amount_enhanced, amount_candidates.
  rewrite (confusion_texts rs rs' E).
  destruct (confusion_candidates rs') as [cands|]; [|reflexivity].
  rewrite (fold_left_texts amount_line ltac:(intros s; same_text) rs rs' cands E).
  rewrite (first_some_texts plain_number ltac:(same_text) rs rs' E).
  reflexivity.
Qed.

(** *** The ranked texts are determined by the set of detections *)

Lemma fused_results ds : fused (deduplicated_results ds) ds.
Proof.
  split; [apply dedup_nodup|]. split; [apply dedup_sorted, sort_sorted|]. split.
  - intros r I. split; [|now apply kept_is_highest].
    apply (line_long ds). now apply dedup_from_input.
  - intros d I L. now apply kept_text.
Qed.

Lemma other_text_spec t d : other_text t d = true <-> strip (d_text d) <> t.
Proof.
  unfold other_text. rewrite negb_true_iff. split.
  - intros H E. apply text_eqb_eq in E. congruence.
  - intros H. destruct (text_eqb _ t) eqn:E; [|reflexivity].
    apply text_eqb_eq in E. congruence.
Qed.

Lemma fused_tail x D ds :
  fused (x :: D) ds -> fused D (filter (other_text (l_text x)) ds).
Proof.
  intros (N & S & K & C). simpl in N. inversion N as [|? ? Nx ND]; subst.
  inversion S as [|? ? SD Sx]; subst.
  split; [assumption|]. split; [assumption|]. split.
  - intros r I.
    assert (Hne : l_text r <> l_text x).
    { intros E. apply Nx. rewrite <- E. now apply in_map. }
    destruct (K r (or_intror I)) as (L & (d & Id & Ed & Ec) & M).
    split; [assumption|]. split.
    + exists d. split; [|auto]. apply filter_In. split; [assumption|].
      apply other_text_spec. congruence.
    + intros d' I' E'. apply filter_In in I'. destruct I' as [I' _]. now apply M.
  - intros d I L. apply filter_In in I. destruct I as [I O].
    apply other_text_spec in O.
    destruct (C d I L) as (r & [<-|Ir] & Er); [congruence|]. now exists r.
Qed.

Lemma fused_head_le x D ds y D' ds' :
  (forall d, In d ds <-> In d ds') ->
  fused (x :: D) ds -> fused (y :: D') ds' ->
  (l_confidence x <= l_confidence y)%Q.
Proof.
  intros Hs (_ & _ & K & _) (_ & S' & K' & C').
  destruct (K x (or_introl eq_refl)) as (L & (d & Id & Ed & Ec) & _).
  apply Hs in Id. rewrite <- Ed in L.
  destruct (C' d Id L) as (x' & Ix' & Ex').
  destruct (K' x' Ix') as (_ & _ & M). rewrite <- Ec.
  apply (Qle_trans _ (l_confidence x')); [apply M; [assumption|now symmetry]|].
  destruct Ix' as [<-|Ix']; [apply Qle_refl|].
  inversion S' as [|? ? _ F]; subst. rewrite Forall_forall in F. exact (F x' Ix').
Qed.

Lemma fused_unique : forall D D' ds ds',
  (forall d, In d ds <-> In d ds') -> own_confidence ds ->
  fused D ds -> fused D' ds' -> map l_text D = map l_text D'.
Proof.
  induction D as [|x D IH]; intros D' ds ds' Hs Ho F F'.
  - destruct D' as [|y D']; [reflexivity|]. exfalso.
    destruct F' as (_ & _ & K' & _). destruct F as (_ & _ & _ & C).
    destruct (K' y (or_introl eq_refl)) as (L & (d & Id & Ed & _) & _).
    apply Hs in Id. rewrite <- Ed in L. destruct (C d Id L) as (r & [] & _).
  - destruct D' as [|y D'].
    + exfalso. destruct F as (_ & _ & K & _). destruct F' as (_ & _ & _ & C').
      destruct (K x (or_introl eq_refl)) as (L & (d & Id & Ed & _) & _).
      apply Hs in Id. rewrite <- Ed in L. destruct (C' d Id L) as (r & [] & _).
    + assert (E : l_text x = l_text y).
      { pose proof (fused_head_le _ _ _ _ _ _ Hs F F') as L1.
        assert (Hs' : forall d, In d ds' <-> In d ds) by (intros d; symmetry; apply Hs).
        pose proof (fused_head_le _ _ _ _ _ _ Hs' F' F) as L2.
        destruct F as (_ & _ & K & _). destruct F' as (_ & _ & K' & _).
        destruct (K x (or_introl eq_refl)) as (_ & (dx & Ix & Ex & Cx) & _).
        destruct (K' y (or_introl eq_refl)) as (_ & (dy & Iy & Ey & Cy) & _).
        apply Hs in Iy. rewrite <- Ex, <- Ey. apply Ho; try assumption.
        rewrite Cx, Cy. now apply Qle_antisym. }
      simpl. rewrite E. f_equal.
      apply (IH D' (filter (other_text (l_text x)) ds)
                   (filter (other_text (l_text x)) ds')).
      * intros d. rewrite !filter_In, Hs. tauto.
      * intros d1 d2 I1 I2. apply filter_In in I1, I2. apply Ho; tauto.
      * now apply fused_tail.
      * rewrite E. now apply fused_tail.
Qed.

Lemma record_of_texts ds ds' :
  map l_text (deduplicated_results ds) = map l_text (deduplicated_results ds') ->
  extract_receipt_data ds = extract_receipt_data ds'.
Proof.
  intros E. unfold extract_receipt_data.
  rewrite (title_texts _ _ E), (amount_texts _ _ E), (date_texts _ _ E), E.
  reflexivity.
Qed.

(** X13 ([extract_receipt_data], the order of the detections).  When no
    two detections of different trimmed texts have the same confidence, the
    record depends only on which detections there are: in whatever order
    they arrive, and however often each is repeated, the record is the
    same.  Detections of one text may tie, and the names of the variants
    play no role. *)
Theorem record_independent_of_order (ds ds' : list detection) :
  (forall d, In d ds <-> In d ds') ->
  (forall d1 d2, In d1 ds -> In d2 ds ->
     (d_confidence d1 == d_confidence d2)%Q ->
     strip (d_text d1) = strip (d_text d2)) ->
  extract_receipt_data ds = extract_receipt_data ds'.
Proof.
  intros Hs Ho. apply record_of_texts.
  apply (fused_unique _ _ ds ds' Hs Ho); apply fused_results.
Qed.

Lemma record_independent_of_order_witness :
  extract_receipt_data
    [ mkdet (str "ACME SHOP") 0.9 (str "binary");
      mkdet (str "Total: $5.00") 0.8 (str "binary");
      mkdet (str "ACME SHOP") 0.9 (str "adaptive") ]
  = extract_receipt_data
      [ mkdet (str "Total: $5.00") 0.8 (str "binary");
        mkdet (str "ACME SHOP") 0.9 (str "adaptive");
        mkdet (str "ACME SHOP") 0.9 (str "binary") ].
Proof.
  apply record_independent_of_order.
  - intros d. simpl. tauto.
  - intros d1 d2 [<-|[<-|[<-|[]]]] [<-|[<-|[<-|[]]]] H;
      try reflexivity; vm_compute in H; discriminate.
Defined.

(** X16 (the three extractors, what they read of a line).  The title, the
    date and the amount depend on the texts of the ranked lines only: two
    lists with the same texts in the same order give the same three
    results, whatever the confidences and the variants of their lines.  A
    confidence acts through the ranking alone. *)
Theorem extractors_read_texts_only (rs rs' : list line) :
  map l_text rs = map l_text rs' ->
  extract_title_enhanced rs = extract_title_enhanced rs'
  /\ extract_date_enhanced rs = extract_date_enhanced rs'
  /\ extract_amount_enhanced rs = extract_amount_enhanced rs'.
Proof.
  intros E. split; [|split].
  - now apply title_texts.
  - now apply date_texts.
  - now apply amount_texts.
Qed.

Lemma extractors_read_texts_only_witness :
  extract_title_enhanced [mkline (str "Total: $5.00") 0.9 (str "binary")]
  = extract_title_enhanced [mkline (str "Total: $5.00") 0.3 (str "denoised")]
  /\ extract_date_enhanced [mkline (str "Total: $5.00") 0.9 (str "binary")]
     = extract_date_enhanced [mkline (str "Total: $5.00") 0.3 (str "denoised")]
  /\ extract_amount_enhanced [mkline (str "Total: $5.00") 0.9 (str "binary")]
     = extract_amount_enhanced [mkline (str "Total: $5.00") 0.3 (str "denoised")].
Proof.
  apply extractors_read_texts_only. reflexivity.
Defined.

(* ===================================================================== *)
(** ** The lines of [group_text_blocks] *)
(* ===================================================================== *)

Lemma insert_perm {A} (lt : A -> A -> bool) x : forall l,
  Permutation (insert_desc lt x l) (x :: l).
Proof.
  induction l as [|y l IH]; simpl; [reflexivity|].
  destruct (lt x y); [|reflexivity].
  rewrite IH. apply perm_swap.
Qed.

Lemma sort_perm {A} (lt : A -> A -> bool) : forall l,
  Permutation (sort_desc lt l) l.
Proof.
  induction l as [|x l IH]; simpl; [reflexivity|].
  rewrite insert_perm. now apply perm_skip.
Qed.

Lemma insert_by_sorted key x : forall l,
  StronglySorted (key_le key) l ->
  StronglySorted (key_le key) (insert_desc (fun a b => (key b <? key a)%Z) x l).
Proof.
  induction l as [|y l IH]; intros S; simpl.
  - constructor; [constructor|constructor].
  - inversion S as [|? ? Sl Fy]; subst.
    destruct (Z.ltb_spec (key y) (key x)) as [L|L].
    + constructor; [now apply IH|].
      rewrite Forall_forall in *. intros z I.
      apply (Permutation_in _ (insert_perm _ x l)) in I.
      destruct I as [<-|I]; [unfold key_le; lia|now apply Fy].
    + constructor; [assumption|]. constructor; [exact L|].
      rewrite Forall_forall in *. intros z I. specialize (Fy z I).
      unfold key_le in *. lia.
Qed.

Lemma sort_by_sorted key l : StronglySorted (key_le key) (sort_by key l).
Proof.
  unfold sort_by. induction l as [|x l IH]; simpl; [constructor|].
  now apply insert_by_sorted.
Qed.

Lemma sort_by_perm key l : Permutation (sort_by key l) l.
Proof. apply sort_perm. Qed.

Lemma closed_step lines cur blk :
  concat (closed (group_step (lines, cur) blk)) = concat (closed (lines, cur)) ++ [blk].
Proof.
  unfold group_step, closed. destruct cur as [|c cur]; cbn [fst snd].
  - rewrite concat_app. reflexivity.
  - destruct (_ <=? _)%Z; cbn [fst snd].
    + simpl. rewrite !concat_app. simpl. rewrite !app_nil_r, <- app_assoc.
      reflexivity.
    + rewrite !concat_app. simpl. rewrite !app_nil_r, <- app_assoc. reflexivity.
Qed.

Lemma closed_fold : forall l st,
  concat (closed (fold_left group_step l st)) = concat (closed st) ++ l.
Proof.
  induction l as [|x l IH]; intros [lines cur]; cbn [fold_left];
    [now rewrite app_nil_r|].
  rewrite IH, closed_step, <- app_assoc. reflexivity.
Qed.

Lemma group_text_blocks_closed bs :
  group_text_blocks bs
  = map (sort_by b_x1) (closed (fold_left group_step (sort_by b_y1 bs) ([], []))).
Proof.
  unfold group_text_blocks. destruct bs as [|b bs]; [reflexivity|].
  destruct (fold_left group_step _ _) as [lines cur]. unfold closed. simpl.
  now destruct cur.
Qed.

Lemma concat_sorted_lines (ls : list (list block)) :
  Permutation (concat (map (sort_by b_x1) ls)) (concat ls).
Proof.
  induction ls as [|l ls IH]; simpl; [reflexivity|].
  apply Permutation_app; [apply sort_by_perm|assumption].
Qed.

Lemma closed_step_nonempty st blk :
  Forall (fun l => l <> []) (closed st) ->
  Forall (fun l => l <> []) (closed (group_step st blk)).
Proof.
  destruct st as [lines cur]. unfold group_step, closed.
  destruct cur as [|c cur]; cbn [fst snd]; intros H.
  - apply Forall_app. split; [assumption|]. constructor; [discriminate|constructor].
  - apply Forall_app in H. destruct H as [H _].
    destruct (_ <=? _)%Z; cbn [fst snd].
    + simpl. apply Forall_app. split; [assumption|].
      constructor; [discriminate|constructor].
    + apply Forall_app. split.
      * apply Forall_app. split; [assumption|].
        constructor; [discriminate|constructor].
      * constructor; [discriminate|constructor].
Qed.

Lemma closed_fold_nonempty : forall l st,
  Forall (fun l => l <> []) (closed st) ->
  Forall (fun l => l <> []) (closed (fold_left group_step l st)).
Proof.
  induction l as [|x l IH]; intros st H; cbn [fold_left]; [assumption|].
  apply IH. now apply closed_step_nonempty.
Qed.

(** X14 ([ReceiptOCR.group_text_blocks], nothing lost).  The lines hold
    the blocks of the input, each block once: their concatenation is a
    permutation of the input, and no line is empty. *)
Theorem lines_partition_the_blocks (text_blocks : list block) :
  Permutation (concat (group_text_blocks text_blocks)) text_blocks
  /\ Forall (fun l => l <> []) (group_text_blocks text_blocks).
Proof.
  rewrite group_text_blocks_closed. split.
  - rewrite concat_sorted_lines, closed_fold. simpl. apply sort_by_perm.
  - apply Forall_map.
    assert (H : Forall (fun l : list block => l <> [])
                  (closed (fold_left group_step (sort_by b_y1 text_blocks) ([], []))))
      by (apply closed_fold_nonempty; constructor).
    rewrite Forall_forall in *. intros l I E. apply (H l I).
    pose proof (sort_by_perm b_x1 l) as P. rewrite E in P.
    now apply Permutation_nil in P.
Qed.

Lemma sorted_app_inv {A} (R : A -> A -> Prop) : forall l1 l2,
  StronglySorted R (l1 ++ l2) ->
  StronglySorted R l1 /\ StronglySorted R l2
  /\ forall a b, In a l1 -> In b l2 -> R a b.
Proof.
  induction l1 as [|x l1 IH]; intros l2 S; simpl in S.
  - split; [constructor|]. split; [assumption|]. intros a b [].
  - inversion S as [|? ? S' F]; subst. destruct (IH _ S') as (S1 & S2 & C).
    rewrite Forall_forall in F. split; [|split; [assumption|]].
    + constructor; [assumption|]. rewrite Forall_forall. intros z I.
      apply F. apply in_or_app. now left.
    + intros a b [<-|I] Ib; [apply F; apply in_or_app; now right|now apply C].
Qed.

Lemma sorted_app {A} (R : A -> A -> Prop) : forall l1 l2,
  StronglySorted R l1 -> StronglySorted R l2 ->
  (forall a b, In a l1 -> In b l2 -> R a b) ->
  StronglySorted R (l1 ++ l2).
Proof.
  induction l1 as [|x l1 IH]; intros l2 S1 S2 C; simpl; [assumption|].
  inversion S1 as [|? ? S' F]; subst. rewrite Forall_forall in F. constructor.
  - apply IH; [assumption|assumption|]. intros a b Ia Ib. apply C; [now right|assumption].
  - rewrite Forall_forall. intros z I. apply in_app_or in I.
    destruct I as [I|I]; [now apply F|apply C; [now left|assumption]].
Qed.

Lemma last_is_greatest key : forall l d a,
  StronglySorted (key_le key) l -> In a l -> (key a <= key (last l d))%Z.
Proof.
  induction l as [|x l IH]; intros d a S I; [destruct I|].
  inversion S as [|? ? S' F]; subst. rewrite Forall_forall in F.
  destruct l as [|y l].
  - destruct I as [<-|[]]. simpl. lia.
  - change (last (x :: y :: l) d) with (last (y :: l) d).
    destruct I as [<-|I]; [|now apply IH].
    apply (Z.le_trans _ (key y)); [apply F; now left|].
    apply IH; [assumption|now left].
Qed.

(** What the loop keeps true: the lines closed so far lie one above the
    other, and only at the very start is no line being filled. *)

Lemma stacked_step lines cur blk :
  StronglySorted (key_le b_y1) (concat (closed (lines, cur)) ++ [blk]) ->
  stacked (lines, cur) -> stacked (group_step (lines, cur) blk).
Proof.
  intros S [J E]. unfold group_step, stacked, closed in *. cbn [fst snd] in *.
  destruct cur as [|c cur].
  - rewrite (E eq_refl). cbn [fst snd]. simpl. split; [|discriminate].
    constructor; [constructor|constructor].
  - clear E. rewrite concat_app in S. simpl in S. rewrite app_nil_r in S.
    apply sorted_app_inv in S. destruct S as (S1 & _ & Sb).
    apply sorted_app_inv in S1. destruct S1 as (_ & Sc & _).
    apply sorted_app_inv in J. destruct J as (Jl & _ & Jc).
    assert (Hb : forall a, In a (concat lines ++ c :: cur) -> (b_y1 a <= b_y1 blk)%Z)
      by (intros a I; apply (Sb a blk I); now left).
    assert (Hl : forall la a, In la lines -> In a la ->
                              (b_y1 a + y_threshold < b_y1 c)%Z).
    { intros la a Il Ia. apply (Jc la (c :: cur)); [assumption|now left|assumption|now left]. }
    assert (Hc : (b_y1 c <= b_y1 blk)%Z)
      by (apply Hb; apply in_or_app; right; now left).
    destruct (Z.leb_spec (Z.abs (b_y1 blk - b_y1 (last (c :: cur) blk))) y_threshold)
      as [L|L]; cbn [fst snd].
    + simpl. split; [|discriminate].
      apply sorted_app; [assumption|constructor; [constructor|constructor]|].
      intros la lb Il [<-|[]] a b Ia Ib.
      change (c :: cur ++ [blk]) with ((c :: cur) ++ [blk]) in Ib.
      apply in_app_or in Ib. destruct Ib as [Ib|[<-|[]]].
      * now apply (Jc la (c :: cur) Il (or_introl eq_refl)).
      * specialize (Hl la a Il Ia). lia.
    + split; [|discriminate].
      apply sorted_app;
        [apply sorted_app; [assumption|constructor; [constructor|constructor]|assumption]
        |constructor; [constructor|constructor]|].
      intros la lb Il [<-|[]] a b Ia [<-|[]].
      assert (Hlast : (b_y1 (last (c :: cur) blk) <= b_y1 blk)%Z).
      { apply Hb. apply in_or_app. right.
        destruct (exists_last (l := c :: cur)) as (l' & z & E); [discriminate|].
        rewrite E, last_last. apply in_or_app. right. now left. }
      assert (Habs : (y_threshold < b_y1 blk - b_y1 (last (c :: cur) blk))%Z) by lia.
      apply in_app_or in Il. destruct Il as [Il|[<-|[]]].
      * specialize (Hl la a Il Ia). unfold y_threshold in *. lia.
      * pose proof (last_is_greatest b_y1 _ blk a Sc Ia). lia.
Qed.

Lemma stacked_fold : forall l st,
  StronglySorted (key_le b_y1) (concat (closed st) ++ l) ->
  stacked st -> stacked (fold_left group_step l st).
Proof.
  induction l as [|x l IH]; intros [lines cur] S J; cbn [fold_left]; [assumption|].
  change (x :: l) with ([x] ++ l) in S. rewrite app_assoc in S.
  apply IH.
  - now rewrite closed_step.
  - apply stacked_step; [|assumption].
    apply sorted_app_inv in S. tauto.
Qed.

Lemma above_sorted la lb :
  above la lb -> above (sort_by b_x1 la) (sort_by b_x1 lb).
Proof.
  intros H a b Ia Ib. apply H.
  - exact (Permutation_in _ (sort_by_perm b_x1 la) Ia).
  - exact (Permutation_in _ (sort_by_perm b_x1 lb) Ib).
Qed.

Lemma sorted_map {A B} (R : A -> A -> Prop) (R' : B -> B -> Prop) (f : A -> B) :
  (forall a b, R a b -> R' (f a) (f b)) ->
  forall l, StronglySorted R l -> StronglySorted R' (map f l).
Proof.
  intros H. induction 1 as [|x l S IH F]; simpl; constructor; [assumption|].
  rewrite Forall_forall in *. intros y I. apply in_map_iff in I.
  destruct I as (z & <- & I). apply H. now apply F.
Qed.

(** X15 ([ReceiptOCR.group_text_blocks], reading order).  Within a line
    the blocks stand from left to right, by ascending x1, and the lines
    stand from top to bottom: every block of a line lies more than the
    threshold of 10 above every block of every later line, so two blocks
    whose y1 differ by at most 10 are on one line. *)
Theorem lines_in_reading_order (text_blocks : list block) :
  Forall (StronglySorted (key_le b_x1)) (group_text_blocks text_blocks)
  /\ StronglySorted above (group_text_blocks text_blocks).
Proof.
  rewrite group_text_blocks_closed. split.
  - apply Forall_map. rewrite Forall_forall. intros l _. apply sort_by_sorted.
  - apply (sorted_map above above); [exact above_sorted|].
    apply stacked_fold; [simpl; apply sort_by_sorted|].
    split; [constructor|reflexivity].
Qed.

(* ===================================================================== *)
(** ** The last resort of the amount extractor *)
(* ===================================================================== *)

(** *** A pattern anchored at the start is tried at the start only *)

Lemma search_at_anchored ic r n0 : forall s pos,
  length s < n0 -> search_at n0 ic (RSeq RBol r) pos s = None.
Proof.
  induction s as [|x s IH]; intros pos L; cbn [search_at]; unfold match_at; cbn [m].
  - destruct (Nat.eqb_spec (length (A := char) []) n0) as [E|_]; [|reflexivity].
    simpl in E, L. lia.
  - destruct (Nat.eqb_spec (length (x :: s)) n0) as [E|_]; [lia|].
    apply IH. simpl in L. lia.
Qed.

Lemma search_anchored ic r s :
  search ic (RSeq RBol r) s = match_at (length s) ic (RSeq RBol r) 0 s.
Proof.
  unfold search. destruct s as [|x s]; cbn [search_at].
  - now destruct (match_at _ _ _ _ _).
  - destruct (match_at _ _ _ _ _); [reflexivity|].
    apply search_at_anchored. simpl. lia.
Qed.

(** A line that the pattern [^\d+$] matches is a run of digits, with a
    line feed after it at most. *)
Lemma plain_number_digits s mo :
  search false plain_number_re s = Some mo ->
  exists ds rest, s = ds ++ rest /\ isdecimal ds = true
                  /\ (rest = [] \/ rest = [10%N]).
Proof.
  change plain_number_re
    with (RSeq RBol (RSeq (RRep 1 None (RSet false [CDigit])) (RSeq REol REmpty))).
  rewrite search_anchored. unfold match_at. cbn [m].
  rewrite Nat.eqb_refl.
  destruct (rep _ _ _ _ _ _) as [[s' c]|] eqn:E; [|discriminate]. intros _.
  destruct (m_sound (length s) false (RRep 1 None (RSet false [CDigit])) _ s []
              (s', c) E) as (s1 & s2 & c' & -> & Hs & K).
  apply rep_class_inv in Hs. destruct Hs as (_ & L & _ & F).
  exists s1, s2. split; [reflexivity|]. split.
  - apply isdecimal_intro; [lia|].
    rewrite <- F. apply forallb_same. intros x. symmetry. apply set_one.
  - destruct s2 as [|x [|y s2]]; [now left| |discriminate].
    destruct (N.eqb_spec x 10) as [->|_]; [now right|discriminate].
Qed.

(** *** Trimming and lower-casing a run of digits *)

Lemma lstrip_lower s : lstrip (lower s) = lower (lstrip s).
Proof.
  induction s as [|x s IH]; [reflexivity|]. simpl. rewrite space_lower.
  destruct (is_space x); [exact IH|reflexivity].
Qed.

Lemma rev_lower s : rev (lower s) = lower (rev s).
Proof. unfold lower. symmetry. apply map_rev. Qed.

Lemma strip_lower s : strip (lower s) = lower (strip s).
Proof.
  unfold strip. now rewrite lstrip_lower, rev_lower, lstrip_lower, rev_lower.
Qed.

Lemma strip_tail s : head_ok (rev (strip s)).
Proof. unfold strip. rewrite rev_involutive. apply lstrip_head. Qed.

Lemma lower_digits s : forallb is_digit s = true -> lower s = s.
Proof.
  induction s as [|x s IH]; [reflexivity|]. simpl. intros H.
  apply andb_true_iff in H. destruct H as [Hx Hs]. rewrite (IH Hs). f_equal.
  unfold lower_char. destruct (is_upper x) eqn:U; [|reflexivity].
  apply digit_not_upper in U. congruence.
Qed.

Lemma plain_number_line res a :
  plain_number res = Some a ->
  isdecimal (strip (l_text res)) = true
  /\ parse_float (strip (l_text res)) = Some a
  /\ PrimFloat.ltb 0 a = true /\ PrimFloat.ltb a 10000 = true.
Proof.
  unfold plain_number. rewrite strip_lower.
  destruct (search false plain_number_re (lower (strip (l_text res)))) as [mo|] eqn:S;
    [|discriminate]. cbn [is_some].
  destruct (plain_number_digits _ _ S) as (ds & rest & E & D & R).
  assert (Er : rest = []).
  { destruct R as [R|R]; [assumption|]. exfalso.
    rewrite <- strip_lower in E. pose proof (strip_tail (lower (l_text res))) as T.
    rewrite E, R, rev_app_distr in T. simpl in T. discriminate. }
  rewrite Er, app_nil_r in E. clear R Er.
  assert (F : forallb is_digit (strip (l_text res)) = true).
  { destruct (isdecimal_elim _ D) as [_ F]. rewrite <- E in F.
    unfold lower in F. rewrite forallb_forall in F. apply forallb_forall.
    intros x I. rewrite <- digit_lower. apply F. now apply in_map. }
  rewrite (lower_digits _ F) in *. rewrite E.
  destruct (parse_float ds) as [amount|]; [|discriminate].
  destruct (PrimFloat.ltb 0 amount) eqn:L0; [|discriminate].
  destruct (PrimFloat.ltb amount 10000) eqn:L1; [|discriminate].
  intros H. injection H as <-. auto.
Qed.

(** *** The bare-number pattern on a run of digits *)

Lemma rep_all (p : char -> bool) (k : cont) x : forall ds fuel lo c,
  forallb p ds = true -> lo <= length ds -> length ds <= fuel ->
  k [] c = Some x ->
  rep (fun k' => one p k') k fuel lo ds c = Some x.
Proof.
  induction ds as [|d ds IH]; intros fuel lo c F L1 L2 K.
  - simpl in L1. assert (lo = 0) by lia. subst lo.
    destruct fuel; simpl; assumption.
  - destruct fuel as [|f]; [simpl in L2; lia|].
    simpl in F. apply andb_true_iff in F. destruct F as [Fd F].
    cbn [rep one]. rewrite Fd.
    rewrite IH; [reflexivity|assumption|simpl in *; lia|simpl in *; lia|assumption].
Qed.

Lemma bare_number_match t :
  isdecimal t = true ->
  search true (fst (nth 12 currency_patterns (RFail, 0%float))) t
  = Some (mkmatch 0 t [(1, t)]).
Proof.
  intros D. destruct (isdecimal_elim _ D) as [L F].
  unfold search. destruct t as [|d t]; [simpl in L; lia|].
  cbn [search_at]. unfold match_at.
  change (fst (nth 12 currency_patterns (RFail, 0%float)))
    with (RSeq (RGroup 1 (RSeq (RRep 1 None (RSet false [CDigit])) REmpty))
            (RSeq (RRep 0 (Some 1)
                     (RSeq (RSet false [CChar 46%N; CChar 44%N])
                        (RSeq (RGroup 2 (RSeq (RRep 2 (Some 2) (RSet false [CDigit]))
                                           REmpty)) REmpty)))
               REmpty)).
  cbn [m].
  rewrite (rep_all (set_match true false [CDigit]) _
             ([], [(1, firstn (length (d :: t) - 0) (d :: t))])).
  - cbn [length]. rewrite !Nat.sub_0_r.
    change (S (length t)) with (length (d :: t)). rewrite !firstn_all. reflexivity.
  - now apply digits_class.
  - simpl. lia.
  - lia.
  - reflexivity.
Qed.

(** Of a run of decimal digits, [re.sub(r'[^0-9.]', '', ..)] keeps the
    ASCII digits only. *)
Lemma remove_keeps_ascii : forall s fuel n0,
  forallb is_digit s = true -> length s <= fuel ->
  remove_at fuel n0 false not_numeric_re s = filter is_ascii_digit s.
Proof.
  change not_numeric_re
    with (RSeq (RSet true [CRange 48%N 57%N; CChar 46%N]) REmpty).
  induction s as [|x s IH]; intros fuel n0 F L; destruct fuel as [|f];
    try reflexivity; [simpl in L; lia|].
  simpl in F. apply andb_true_iff in F. destruct F as [Fx F].
  simpl in L. apply le_S_n in L.
  cbn [remove_at filter]. unfold match_at. cbn [m one].
  assert (E : set_match false true [CRange 48%N 57%N; CChar 46%N] x
              = negb (is_ascii_digit x)).
  { unfold set_match. cbn [existsb item_match andb orb].
    fold (is_ascii_digit x).
    replace (char_match false 46%N x) with false; [now rewrite !orb_false_r|].
    symmetry. unfold char_match. apply N.eqb_neq. intros ->.
    apply is_digit_cases in Fx. lia. }
  rewrite E. destruct (is_ascii_digit x); cbn [negb].
  - now rewrite IH.
  - unfold k0. cbn [m_text length].
    replace (S (length s) - length s) with 1 by lia.
    cbn [firstn length skipn]. now apply IH.
Qed.

Lemma comma_to_point_digits s : forallb is_digit s = true -> comma_to_point s = s.
Proof.
  induction s as [|x s IH]; [reflexivity|]. simpl. intros H.
  apply andb_true_iff in H. destruct H as [Hx Hs]. rewrite (IH Hs). f_equal.
  destruct (N.eqb_spec x 44) as [->|_]; [discriminate|reflexivity].
Qed.

(** *** The second pass never empties the list of candidates *)

Lemma merge_not_empty : forall cands amount code t confidence,
  merge cands amount code t confidence <> [].
Proof.
  intros [|c cands] amount code t confidence; simpl; [discriminate|].
  destruct (same_amount _ _); discriminate.
Qed.

Lemma amount_step_keeps t p score cands mo :
  cands <> [] -> amount_step t p score cands mo <> [].
Proof.
  intros H. unfold amount_step.
  destruct (split_groups _) as [[[[|c0 s]|] ci]|]; try assumption.
  destruct (parse_float _); [|assumption].
  destruct (passes_filter _ _); [apply merge_not_empty|assumption].
Qed.

Lemma amount_line_keeps cands res : cands <> [] -> amount_line cands res <> [].
Proof.
  unfold amount_line. revert cands.
  apply (fold_left_inv (fun cands => cands <> [])).
  intros acc [p s]. revert acc. apply (fold_left_inv (fun cands => cands <> [])).
  intros acc mo. apply amount_step_keeps.
Qed.

Lemma second_pass_keeps rs cands :
  cands <> [] -> fold_left amount_line rs cands <> [].
Proof.
  revert cands. apply (fold_left_inv (fun cands => cands <> [])).
  intros acc res. apply amount_line_keeps.
Qed.

(** What the second pass makes of a line of decimal digits: the value of
    its ASCII digits, when it has any and the filter lets the value pass. *)
Lemma bare_number_step t a score cands :
  isdecimal t = true ->
  parse_float (filter is_ascii_digit t) = Some a -> passes_filter a t = true ->
  amount_step t (fst (nth 12 currency_patterns (RFail, 0%float))) score cands
              (mkmatch 0 t [(1, t)]) <> [].
Proof.
  intros D P Fl. destruct (isdecimal_elim _ D) as [L F]. unfold amount_step.
  change (groups (fst (nth 12 currency_patterns (RFail, 0%float)))
                 (mkmatch 0 t [(1, t)]))
    with [Some t; @None text].
  destruct t as [|d t]; [simpl in L; lia|].
  assert (R : is_some (rematch false one_digit_re (d :: t)) = true).
  { change one_digit_re with (RSeq (RSet false [CDigit]) REmpty).
    unfold rematch, match_at. cbn [m one].
    assert (E : set_match false false [CDigit] d = true).
    { rewrite set_one. simpl in F. apply andb_true_iff in F. apply F. }
    now rewrite E. }
  cbn [split_groups]. rewrite R. cbn [nonempty].
  rewrite (comma_to_point_digits _ F). unfold sub_empty.
  rewrite (remove_keeps_ascii _ _ _ F) by lia.
  rewrite P, Fl. apply merge_not_empty.
Qed.

Lemma digit_line_gives_candidate cands res a :
  isdecimal (strip (l_text res)) = true ->
  parse_float (filter is_ascii_digit (strip (l_text res))) = Some a ->
  passes_filter a (strip (l_text res)) = true ->
  amount_line cands res <> [].
Proof.
  intros D P Fl. unfold amount_line.
  assert (E : currency_patterns
              = firstn 12 currency_patterns ++ [nth 12 currency_patterns (RFail, 0%float)])
    by reflexivity.
  rewrite E, fold_left_app. cbn [fold_left].
  set (acc := fold_left _ (firstn 12 currency_patterns) cands).
  rewrite finditer_head, (bare_number_match _ D). cbn [fold_left].
  apply (fold_left_inv (fun cands => cands <> [])).
  - intros c mo. apply amount_step_keeps.
  - now apply (bare_number_step _ a).
Qed.

Lemma second_pass_finds : forall rs cands res a,
  In res rs ->
  isdecimal (strip (l_text res)) = true ->
  parse_float (filter is_ascii_digit (strip (l_text res))) = Some a ->
  passes_filter a (strip (l_text res)) = true ->
  fold_left amount_line rs cands <> [].
Proof.
  induction rs as [|x rs IH]; intros cands res a I D P Fl; [destruct I|].
  cbn [fold_left]. destruct I as [->|I].
  - apply second_pass_keeps. now apply (digit_line_gives_candidate cands res a).
  - now apply (IH _ res a).
Qed.

Lemma filter_all (f : char -> bool) s : forallb f s = true -> filter f s = s.
Proof.
  induction s as [|x s IH]; [reflexivity|]. simpl. intros H.
  apply andb_true_iff in H. destruct H as [-> H]. now rewrite IH.
Qed.

Lemma ascii_digits_decimal s :
  filter is_ascii_digit s <> [] -> isdecimal (filter is_ascii_digit s) = true.
Proof.
  intros N. apply isdecimal_intro.
  - destruct (filter is_ascii_digit s); [congruence|simpl; lia].
  - apply forallb_forall. intros x I. apply filter_In in I.
    apply ascii_is_digit, I.
Qed.

Lemma digits_no_keyword t :
  forallb is_digit t = true ->
  is_some (search false small_keyword_re (lower t)) = false.
Proof.
  intros F. rewrite (lower_digits _ F).
  destruct (search false small_keyword_re t) as [mo|] eqn:S; [|reflexivity].
  exfalso. apply search_sound in S. destruct S as (pre & post & E & Hs).
  assert (N : exists x, In x (m_text mo) /\ is_digit x = false).
  { change small_keyword_re
      with (RAlt (lit (str "amount"))
              (RAlt (lit (str "total")) (RAlt (lit (str "sum")) (lit (str "price")))))
      in Hs.
    apply alt_inv in Hs. destruct Hs as [H|H]; [|apply alt_inv in H; destruct H as [H|H];
      [|apply alt_inv in H; destruct H as [H|H]]];
      apply (proj1 (lit_sem _ _ _ _)) in H; destruct H as [-> _];
      eexists; (split; [left; reflexivity|reflexivity]). }
  destruct N as (x & I & Nx). rewrite forallb_forall in F.
  rewrite (F x) in Nx; [discriminate|].
  rewrite E. apply in_or_app. right. apply in_or_app. now left.
Qed.

(** X17 ([extract_amount_enhanced], the last resort).  When the two passes
    leave no candidate and the scan for a plain number returns one, that
    number is the amount, with currency UNKNOWN.  Its line is a run of
    decimal digits with a value above 0 and below 10000, and the second
    pass, which reads the ASCII digits of the line only (it removes what
    [[^0-9.]] matches), made no candidate of it: either the ASCII digits
    spell a value that the filter rejects, a whole number between 1900 and
    2100 or a value below 1, or the line has no ASCII digit, so that the
    second pass had nothing to parse.  For a line of ASCII digits the
    returned number is itself one that the filter rejected; a plain ASCII
    number that passes the filter is a candidate and never reaches the last
    resort. *)
Theorem last_resort_returns_rejected_numbers (rs : list line) (a : float) :
  amount_candidates rs = Some [] ->
  first_some plain_number rs = Some a ->
  extract_amount_enhanced rs = Some (mkamount a UNKNOWN)
  /\ exists res,
       In res rs
       /\ isdecimal (strip (l_text res)) = true
       /\ parse_float (strip (l_text res)) = Some a
       /\ PrimFloat.ltb 0 a = true /\ PrimFloat.ltb a 10000 = true
       /\ match parse_float (filter is_ascii_digit (strip (l_text res))) with
          | Some seen =>
              passes_filter seen (strip (l_text res)) = false
              /\ (likely_year seen = true \/ PrimFloat.ltb seen 1 = true)
          | None => filter is_ascii_digit (strip (l_text res)) = []
          end
       /\ (forallb is_ascii_digit (strip (l_text res)) = true ->
           passes_filter a (strip (l_text res)) = false
           /\ (likely_year a = true \/ PrimFloat.ltb a 1 = true)).
Proof.
  intros C P. split.
  - unfold extract_amount_enhanced. rewrite C. simpl. now rewrite P.
  - destruct (first_some_found _ _ _ P) as (res & I & Pn). exists res.
    destruct (plain_number_line res a Pn) as (D & Pf & L0 & L1).
    destruct (isdecimal_elim _ D) as [_ F].
    assert (R : forall seen,
               parse_float (filter is_ascii_digit (strip (l_text res))) = Some seen ->
               passes_filter seen (strip (l_text res)) = false
               /\ (likely_year seen = true \/ PrimFloat.ltb seen 1 = true)).
    { intros seen Ps.
      assert (Fl : passes_filter seen (strip (l_text res)) = false).
      { destruct (passes_filter seen (strip (l_text res))) eqn:Fl; [|reflexivity].
        exfalso. unfold amount_candidates in C.
        destruct (confusion_candidates rs) as [cands|]; [|discriminate].
        injection C as C. revert C.
        now apply (second_pass_finds rs cands res seen). }
      split; [assumption|].
      unfold passes_filter, small_value in Fl.
      rewrite (digits_no_keyword _ F) in Fl.
      destruct (likely_year seen); [now left|right].
      simpl in Fl. destruct (PrimFloat.ltb seen 1); [reflexivity|discriminate]. }
    repeat split; try assumption.
    + destruct (parse_float (filter is_ascii_digit (strip (l_text res))))
        as [seen|] eqn:Ps.
      * now apply R.
      * destruct (filter is_ascii_digit (strip (l_text res))) as [|x l] eqn:E;
          [reflexivity|].
        exfalso. apply (parse_float_digits (x :: l)); [|assumption].
        rewrite <- E. apply ascii_digits_decimal. rewrite E. discriminate.
    + apply R. now rewrite (filter_all _ _ H).
    + apply R. now rewrite (filter_all _ _ H).
Qed.

Lemma last_resort_returns_rejected_numbers_witness :
  extract_amount_enhanced [mkline (str "１２３") 0.9 (str "binary")]
  = Some (mkamount 123 UNKNOWN)
  /\ exists res,
       In res [mkline (str "１２３") 0.9 (str "binary")]
       /\ isdecimal (strip (l_text res)) = true
       /\ parse_float (strip (l_text res)) = Some 123%float
       /\ PrimFloat.ltb 0 123 = true /\ PrimFloat.ltb 123 10000 = true
       /\ match parse_float (filter is_ascii_digit (strip (l_text res))) with
          | Some seen =>
              passes_filter seen (strip (l_text res)) = false
              /\ (likely_year seen = true \/ PrimFloat.ltb seen 1 = true)
          | None => filter is_ascii_digit (strip (l_text res)) = []
          end
       /\ (forallb is_ascii_digit (strip (l_text res)) = true ->
           passes_filter 123 (strip (l_text res)) = false
           /\ (likely_year 123 = true \/ PrimFloat.ltb 123 1 = true)).
Proof.
  apply last_resort_returns_rejected_numbers; vm_compute; reflexivity.
Defined.

(* ===================================================================== *)
(** ** A currency is read, never guessed *)
(* ===================================================================== *)

Lemma finditer_at_sound ic r : forall fuel n0 pos s mo,
  In mo (finditer_at fuel n0 ic r pos s) ->
  exists pre post, s = pre ++ m_text mo ++ post
                   /\ sem ic r (m_text mo) [] (m_caps mo).
Proof.
  induction fuel as [|f IH]; intros n0 pos s mo I; [destruct I|].
  cbn [finditer_at] in I.
  destruct (search_at n0 ic r pos s) as [mo0|] eqn:S; [|destruct I].
  destruct I as [<-|I]; [now apply (search_at_sound n0 ic r s pos)|].
  destruct (Nat.ltb _ _); [destruct I|].
  apply IH in I. destruct I as (pre & post & E & H).
  set (k := m_end mo0 - pos + _) in *.
  exists (firstn k s ++ pre), post. split; [|assumption].
  rewrite <- app_assoc, <- E. symmetry. apply firstn_skipn.
Qed.

Lemma finditer_part ic r s mo i g :
  In mo (finditer ic r s) -> group i mo = Some g -> contains g s = true.
Proof.
  intros I G. apply finditer_at_sound in I. destruct I as (pre & post & -> & Hs).
  destruct (caps_part ic r _ _ _ Hs i g G) as [E|P]; [discriminate|].
  apply part_app_r. now apply part_app_l.
Qed.

Lemma contains_lower a b : contains a b = true -> contains (lower a) (lower b) = true.
Proof.
  rewrite !contains_spec. intros (pre & post & ->).
  exists (lower pre), (lower post). now rewrite !lower_app.
Qed.

Lemma lookup_key {V} k : forall (l : list (text * V)) v,
  lookup k l = Some v -> In k (map fst l).
Proof.
  induction l as [|[k' v'] l IH]; intros v H; [discriminate|]. simpl in H.
  destruct (text_eqb k k') eqn:E.
  - apply text_eqb_eq in E. subst. now left.
  - right. now apply (IH v).
Qed.

Lemma set_two a b x :
  set_match false false [CChar a; CChar b] x = true -> x = a \/ x = b.
Proof.
  unfold set_match. cbn [existsb item_match char_match xorb].
  rewrite orb_false_r. intros H. apply orb_true_iff in H.
  destruct H as [H|H]; apply N.eqb_eq in H; auto.
Qed.

Lemma char_eq p s c c' : sem false (RChar p) s c c' -> s = [p].
Proof.
  intros (x & -> & H & _). cbn [char_match] in H. apply N.eqb_eq in H. now subst.
Qed.

Lemma rupee_word ci mo :
  rematch false rupee_word_re ci = Some mo ->
  contains (str "rs") (lower ci) = true \/ contains (str "rupee") (lower ci) = true.
Proof.
  intros R. apply rematch_sound in R. destruct R as (post & -> & Hs).
  change rupee_word_re
    with (RAlt
            (RSeq (RSet false [CChar 82%N; CChar 114%N])
               (RSeq (RSet false [CChar 83%N; CChar 115%N])
                  (RSeq (RRep 0 (Some 1) (RChar 46%N)) REmpty)))
            (RSeq (RSet false [CChar 82%N; CChar 114%N])
               (RSeq (RChar 117%N)
                  (RSeq (RChar 112%N)
                     (RSeq (RChar 101%N)
                        (RSeq (RChar 101%N)
                           (RSeq (RRep 0 (Some 1) (RChar 115%N)) REmpty)))))))
    in Hs.
  apply alt_inv in Hs. destruct Hs as [H|H].
  - left. apply seq_inv in H. destruct H as (s1 & s2 & cm & E & (x & -> & Hx & _) & H).
    apply seq_inv in H. destruct H as (s3 & s4 & cm' & -> & (y & -> & Hy & _) & _).
    rewrite E. apply set_two in Hx, Hy. apply contains_spec.
    exists [], (lower (s4 ++ post)). rewrite !lower_app.
    destruct Hx as [-> | ->], Hy as [-> | ->]; reflexivity.
  - right. apply seq_inv in H. destruct H as (s1 & s2 & cm & E & (x & -> & Hx & _) & H).
    apply seq_inv in H. destruct H as (s3 & s4 & c3 & -> & H3 & H).
    apply seq_inv in H. destruct H as (s5 & s6 & c5 & -> & H5 & H).
    apply seq_inv in H. destruct H as (s7 & s8 & c7 & -> & H7 & H).
    apply seq_inv in H. destruct H as (s9 & s10 & c9 & -> & H9 & _).
    apply char_eq in H3, H5, H7, H9. subst.
    rewrite E. apply set_two in Hx. apply contains_spec.
    exists [], (lower (s10 ++ post)). rewrite !lower_app.
    destruct Hx as [-> | ->]; reflexivity.
Qed.

Lemma evidence_of_mark k t :
  In k currency_marks -> contains k (lower t) = true ->
  currency_evidence t = true.
Proof.
  intros I C. unfold currency_evidence. apply orb_true_iff. right.
  apply existsb_exists. now exists k.
Qed.

Lemma resolve_evidence t ci :
  match ci with Some g => contains g t = true | None => True end ->
  resolve_currency t ci <> UNKNOWN -> currency_evidence t = true.
Proof.
  intros P. unfold resolve_currency, currency_evidence.
  destruct (is_some (search false amount_s_prefix_re (lower t))).
  { intros _. now rewrite orb_true_r. }
  destruct (is_some (search false leading_s_re (lower t))).
  { intros _. now rewrite orb_true_r. }
  cbn [orb]. destruct ci as [g|]; [|congruence].
  apply contains_lower in P.
  destruct (lookup (lower g) currency_map) as [code|] eqn:L.
  - intros _. apply lookup_key in L.
    rewrite !orb_false_r. apply orb_true_iff. right.
    apply existsb_exists. exists (lower g). split; [|assumption].
    change currency_marks with (map fst currency_map ++ [str "rupee"]).
    apply in_or_app. now left.
  - destruct (rematch false rupee_word_re g) as [mo|] eqn:R; [|cbn [is_some]; congruence].
    intros _. rewrite !orb_false_r. apply orb_true_iff. right.
    apply existsb_exists.
    destruct (rupee_word g mo R) as [C|C].
    + exists (str "rs"). split; [vm_compute; tauto|].
      exact (part_trans _ _ _ C P).
    + exists (str "rupee"). split; [vm_compute; tauto|].
      exact (part_trans _ _ _ C P).
Qed.

Lemma merge_currency : forall cands amount code t confidence c,
  In c (merge cands amount code t confidence) ->
  (exists c0, In c0 cands /\ c_currency c = c_currency c0) \/ c_currency c = code.
Proof.
  induction cands as [|c0 cands IH]; intros amount code t confidence c I; simpl in I.
  - destruct I as [<-|[]]. now right.
  - destruct (same_amount (c_amount c0) amount).
    + left. destruct I as [<-|I].
      * exists c0. split; [now left|]. now destruct (PrimFloat.ltb _ _).
      * exists c. split; [now right|reflexivity].
    + destruct I as [<-|I]; [left; exists c0; split; [now left|reflexivity]|].
      destruct (IH _ _ _ _ _ I) as [(c1 & I1 & E)|E]; [left|now right].
      exists c1. split; [now right|assumption].
Qed.

Lemma split_groups_indicator gs g ci :
  split_groups gs = Some (g, Some ci) -> In (Some ci) gs.
Proof.
  unfold split_groups. destruct gs as [|g0 [|g1 gs]]; [discriminate| |].
  - intros H. discriminate.
  - destruct g0 as [s0|]; [|discriminate].
    destruct (is_some (rematch false one_digit_re s0)); intros H; injection H as _ H.
    + destruct g1 as [[|x s]|]; try discriminate. injection H as <-. right. now left.
    + destruct s0 as [|x s]; try discriminate. injection H as <-. now left.
Qed.

Lemma amount_step_backed rs res p score cands mo :
  In res rs -> In mo (finditer true p (strip (l_text res))) ->
  backed rs cands ->
  backed rs (amount_step (strip (l_text res)) p score cands mo).
Proof.
  intros I M B. unfold amount_step.
  destruct (split_groups (groups p mo)) as [[[[|c0 s]|] ci]|] eqn:G; try assumption.
  destruct (parse_float _) as [amount|]; [|assumption].
  destruct (passes_filter _ _); [|assumption].
  intros c Ic Hc. apply merge_currency in Ic.
  destruct Ic as [(c1 & I1 & E)|E]; [apply (B c1 I1); congruence|].
  exists res. split; [assumption|].
  apply (resolve_evidence _ ci); [|congruence].
  destruct ci as [g|]; [|exact Logic.I]. clear E Hc.
  apply split_groups_indicator in G. unfold groups in G.
  apply in_map_iff in G. destruct G as (i & G & _).
  exact (finditer_part _ _ _ _ _ _ M G).
Qed.

Lemma fold_left_in {A B} (P : A -> Prop) (f : A -> B -> A) : forall l a,
  (forall a b, In b l -> P a -> P (f a b)) -> P a -> P (fold_left f l a).
Proof.
  induction l as [|x l IH]; intros a H Pa; [assumption|]. simpl.
  apply IH; [intros a' b I; apply H; now right|]. apply H; [now left|assumption].
Qed.

Lemma amount_line_backed rs res cands :
  In res rs -> backed rs cands -> backed rs (amount_line cands res).
Proof.
  intros I. unfold amount_line. revert cands.
  apply (fold_left_inv (backed rs)). intros acc [p s]. cbn [fst snd].
  apply fold_left_in. intros a mo M. now apply amount_step_backed.
Qed.

Lemma confusion_backed rs0 : forall rs cands,
  (forall r, In r rs -> In r rs0) ->
  confusion_candidates rs = Some cands -> backed rs0 cands.
Proof.
  induction rs as [|res rs IH]; intros cands Hs H; simpl in H.
  - injection H as <-. intros c [].
  - destruct (confusion_step res) as [a|] eqn:A; [|discriminate].
    destruct (confusion_candidates rs) as [b|] eqn:Bq; [|discriminate].
    injection H as <-. intros c Ic Hc. apply in_app_or in Ic. destruct Ic as [Ic|Ic].
    + exists res. split; [apply Hs; now left|].
      unfold confusion_step in A. unfold currency_evidence.
      destruct (is_some (search false amount_s_re (lower (strip (l_text res)))));
        [reflexivity|]. injection A as <-. destruct Ic.
    + apply (IH b (fun r Ir => Hs r (or_intror Ir)) eq_refl c Ic Hc).
Qed.

Lemma candidates_backed rs cands :
  amount_candidates rs = Some cands -> backed rs cands.
Proof.
  unfold amount_candidates.
  destruct (confusion_candidates rs) as [c0|] eqn:C; [|discriminate].
  intros H. injection H as <-.
  apply fold_left_in; [|now apply (confusion_backed rs rs)].
  intros a res I. now apply amount_line_backed.
Qed.

Lemma select_in l c : select l = Some c -> In c l.
Proof.
  unfold select.
  destruct (find (labelled (str "total")) l) eqn:F1.
  { intros H. injection H as <-. apply find_some in F1. tauto. }
  destruct (find (labelled (str "amount")) l) eqn:F2.
  { intros H. injection H as <-. apply find_some in F2. tauto. }
  destruct l; [discriminate|]. intros H. injection H as <-. now left.
Qed.

(** X18 ([extract_amount_enhanced], where a currency comes from).  When
    the currency of the result is not UNKNOWN, some ranked line shows a
    currency: in lower case it holds "amount" followed by "s" or begins
    with "s" and digits (the dollar sign read as the letter S), or it holds
    one of the marks $, €, £, ¥, ₹, "rs" and "rupee".  The extractor never
    gives a currency to a receipt whose lines show none. *)
Theorem currency_is_read_from_a_line (rs : list line) (a : float)
  (code : currency) :
  extract_amount_enhanced rs = Some (mkamount a code) ->
  code <> UNKNOWN ->
  exists res, In res rs /\ currency_evidence (strip (l_text res)) = true.
Proof.
  unfold extract_amount_enhanced.
  destruct (amount_candidates rs) as [cands|] eqn:C; [|discriminate].
  destruct (select (sort_desc cand_lt cands)) as [c|] eqn:S.
  - intros H N. injection H as _ <-.
    apply select_in in S. apply (proj1 (sort_in cand_lt c cands)) in S.
    exact (candidates_backed rs cands C c S N).
  - destruct (first_some plain_number rs); intros H N; injection H as _ <-;
      now destruct N.
Qed.

Lemma currency_is_read_from_a_line_witness :
  exists res,
    In res [ mkline (str "COFFEE 12.50") 0.9 (str "binary");
             mkline (str "Total Rs. 450") 0.8 (str "binary") ]
    /\ currency_evidence (strip (l_text res)) = true.
Proof.
  apply (currency_is_read_from_a_line
           [ mkline (str "COFFEE 12.50") 0.9 (str "binary");
             mkline (str "Total Rs. 450") 0.8 (str "binary") ]
           450 INR).
  - vm_compute. reflexivity.
  - discriminate.
Defined.

(* ===================================================================== *)
(** ** Fusing what is already fused *)
(* ===================================================================== *)

Lemma normalize_kept ds : forall l,
  (forall r, In r l -> In r (deduplicated_results ds)) ->
  normalize_results (map as_detection l) = l.
Proof.
  induction l as [|r l IH]; intros H; [reflexivity|]. simpl.
  assert (I : In r (deduplicated_results ds)) by (apply H; now left).
  destruct (kept_line ds r I) as (d & _ & E).
  assert (N : normalize_result (as_detection r) = Some r).
  { apply normalize_result_some. unfold as_detection. simpl.
    rewrite E, strip_idem, <- E. split.
    - apply (line_long ds). now apply dedup_from_input.
    - now destruct r. }
  rewrite N, IH; [reflexivity|]. intros x Ix. apply H. now right.
Qed.

Lemma insert_in_front x l :
  Forall (by_conf x) l -> insert_desc conf_lt x l = x :: l.
Proof.
  destruct l as [|y l]; [reflexivity|]. intros F. simpl.
  inversion F as [|? ? Hy _]; subst.
  destruct (conf_lt x y) eqn:E; [|reflexivity].
  apply conf_lt_spec in E. exfalso. exact (Qlt_not_le _ _ E Hy).
Qed.

Lemma sort_sorted_id : forall l,
  StronglySorted by_conf l -> sort_desc conf_lt l = l.
Proof.
  induction 1 as [|x l S IH F]; [reflexivity|]. simpl.
  rewrite IH. now apply insert_in_front.
Qed.

Lemma dedup_nodup_id : forall l s,
  NoDup (map l_text l) -> (forall r, In r l -> ~ In (l_text r) s) ->
  deduplicate s l = l.
Proof.
  induction l as [|x l IH]; intros s N H; [reflexivity|]. simpl.
  inversion N as [|? ? Nx Nl]; subst.
  assert (E : seen (l_text x) s = false)
    by (apply seen_false; apply H; now left).
  rewrite E. f_equal. apply IH; [assumption|].
  intros r I [Er|Ir].
  - apply Nx. rewrite Er. now apply in_map.
  - apply (H r); [now right|assumption].
Qed.

(** X19 ([extract_receipt_data], fusing twice).  The ranked lines are a
    fixed point of the fusion: read again as detections, they are
    normalized, ranked and freed of duplicates into themselves, in the
    same order. *)
Theorem fusion_is_idempotent (ds : list detection) :
  deduplicated_results (map as_detection (deduplicated_results ds))
  = deduplicated_results ds.
Proof.
  unfold deduplicated_results at 1.
  rewrite (normalize_kept ds) by auto.
  rewrite sort_sorted_id by (apply dedup_sorted, sort_sorted).
  apply dedup_nodup_id; [apply dedup_nodup|]. intros r _ [].
Qed.

(* ===================================================================== *)
(** ** What the filter guarantees of the selected amount *)
(* ===================================================================== *)

Lemma merge_amount : forall cands amount code t confidence c,
  In c (merge cands amount code t confidence) ->
  (exists c0, In c0 cands /\ c_amount c = c_amount c0) \/ c_amount c = amount.
Proof.
  induction cands as [|c0 cands IH]; intros amount code t confidence c I; simpl in I.
  - destruct I as [<-|[]]. now right.
  - destruct (same_amount (c_amount c0) amount).
    + left. destruct I as [<-|I].
      * exists c0. split; [now left|]. now destruct (PrimFloat.ltb _ _).
      * exists c. split; [now right|reflexivity].
    + destruct I as [<-|I]; [left; exists c0; split; [now left|reflexivity]|].
      destruct (IH _ _ _ _ _ I) as [(c1 & I1 & E)|E]; [left|now right].
      exists c1. split; [now right|assumption].
Qed.

Lemma amount_step_filtered rs res p score cands mo :
  In res rs -> filtered rs cands ->
  filtered rs (amount_step (strip (l_text res)) p score cands mo).
Proof.
  intros I B. unfold amount_step.
  destruct (split_groups (groups p mo)) as [[[[|c0 s]|] ci]|]; try assumption.
  destruct (parse_float _) as [amount|]; [|assumption].
  destruct (passes_filter amount (strip (l_text res))) eqn:Fl; [|assumption].
  intros c Ic. apply merge_amount in Ic.
  destruct Ic as [(c1 & I1 & ->)| ->]; [now apply B|].
  unfold passes_filter in Fl. apply andb_true_iff in Fl. destruct Fl as [Fy Fs].
  apply negb_true_iff in Fy, Fs. split.
  - intros Y. congruence.
  - intros L. exists res. split; [assumption|]. right.
    unfold small_value in Fs. rewrite L in Fs. cbn [andb] in Fs.
    apply negb_false_iff in Fs. now rewrite <- small_keyword_search.
Qed.

Lemma amount_line_filtered rs res cands :
  In res rs -> filtered rs cands -> filtered rs (amount_line cands res).
Proof.
  intros I. unfold amount_line. revert cands.
  apply (fold_left_inv (filtered rs)). intros acc [p s]. cbn [fst snd].
  revert acc. apply (fold_left_inv (filtered rs)).
  intros a mo. now apply amount_step_filtered.
Qed.

Lemma confusion_filtered rs0 : forall rs cands,
  (forall r, In r rs -> In r rs0) ->
  confusion_candidates rs = Some cands -> filtered rs0 cands.
Proof.
  induction rs as [|res rs IH]; intros cands Hs H; simpl in H.
  - injection H as <-. intros c [].
  - destruct (confusion_step res) as [a|] eqn:A; [|discriminate].
    destruct (confusion_candidates rs) as [b|] eqn:Bq; [|discriminate].
    injection H as <-. intros c Ic. apply in_app_or in Ic. destruct Ic as [Ic|Ic].
    + assert (D : dollar_read_as_s res = true).
      { unfold confusion_step in A. unfold dollar_read_as_s.
        destruct (is_some (search false amount_s_re (lower (strip (l_text res)))));
          [reflexivity|]. injection A as <-. destruct Ic. }
      split; intros _; exists res; (split; [apply Hs; now left|]); auto.
    + exact (IH b (fun r Ir => Hs r (or_intror Ir)) eq_refl c Ic).
Qed.

Lemma candidates_filtered rs cands :
  amount_candidates rs = Some cands -> filtered rs cands.
Proof.
  unfold amount_candidates.
  destruct (confusion_candidates rs) as [c0|] eqn:C; [|discriminate].
  intros H. injection H as <-.
  apply fold_left_in; [|now apply (confusion_filtered rs rs)].
  intros a res I. now apply amount_line_filtered.
Qed.

(** X20 ([extract_amount_enhanced], what the filter guarantees).  The
    candidate that the selection settles on is the returned amount.  If its
    value reads as a year (a whole number between 1900 and 2100), some line
    reads "amount", "s" and digits: such a value passes only by the first
    loop, which does not filter.  If its value is below 1, some line reads
    so or holds one of the keywords "amount", "total", "sum", "price". *)
Theorem filter_guards_the_selection (rs : list line) (c : candidate) :
  selected_candidate rs = Some c ->
  extract_amount_enhanced rs = Some (mkamount (c_amount c) (c_currency c))
  /\ (likely_year (c_amount c) = true ->
      exists res, In res rs /\ dollar_read_as_s res = true)
  /\ (PrimFloat.ltb (c_amount c) 1 = true ->
      exists res, In res rs
        /\ (dollar_read_as_s res = true
            \/ has_keyword small_keywords (strip (l_text res)) = true)).
Proof.
  unfold selected_candidate, extract_amount_enhanced.
  destruct (amount_candidates rs) as [cands|] eqn:C; [|discriminate].
  intros S. rewrite S. split; [reflexivity|].
  apply select_in in S. apply (proj1 (sort_in cand_lt c cands)) in S.
  exact (candidates_filtered rs cands C c S).
Qed.

Lemma filter_guards_the_selection_witness :
  extract_amount_enhanced [mkline (str "Amount: S2024") 0.9 (str "binary")]
  = Some (mkamount 2024 USD)
  /\ (likely_year 2024 = true ->
      exists res, In res [mkline (str "Amount: S2024") 0.9 (str "binary")]
                  /\ dollar_read_as_s res = true)
  /\ (PrimFloat.ltb 2024 1 = true ->
      exists res, In res [mkline (str "Amount: S2024") 0.9 (str "binary")]
        /\ (dollar_read_as_s res = true
            \/ has_keyword small_keywords (strip (l_text res)) = true)).
Proof.
  apply (filter_guards_the_selection
           [mkline (str "Amount: S2024") 0.9 (str "binary")]
           (mkcand 2024 USD (str "Amount: S2024") 0.95)).
  vm_compute. reflexivity.
Defined.

(* ===================================================================== *)
(** ** The first pass on the line ranked first *)
(* ===================================================================== *)

Lemma generic_line_match t :
  3 <= length t -> length t <= 30 ->
  forallb (fun x => negb (x =? 10)%N) t = true ->
  is_some (rematch true excluded_re t) = false ->
  search true (nth 1 title_patterns RFail) t = Some (mkmatch 0 t [(1, t)]).
Proof.
  intros L3 L30 F X.
  change (nth 1 title_patterns RFail)
    with (RSeq RBol
            (RSeq (RGroup 1 (RSeq (RNegLook excluded_re)
                               (RSeq (RRep 3 (Some 30) RAny) REmpty)))
               (RSeq REol REmpty))).
  assert (E : m (length t) true excluded_re k0 t [] = None).
  { unfold rematch, match_at in X.
    match type of X with
    | is_some (match ?e with _ => _ end) = false =>
        change (e = None); destruct e as [[s' c']|] eqn:E
    end; [simpl in X; discriminate|reflexivity]. }
  rewrite search_anchored. unfold match_at. cbn [m]. rewrite Nat.eqb_refl.
  match goal with
  | |- context [match ?e with Some _ => None | None => _ end] =>
      replace e with (@None (text * caps)) by (symmetry; exact E)
  end.
  rewrite (rep_all (fun x => negb (x =? 10)%N) _
             ([], [(1, firstn (length t - 0) t)])); try assumption; try reflexivity.
  cbn [length]. rewrite !Nat.sub_0_r, !firstn_all. reflexivity.
Qed.

Lemma title_patterns_three :
  title_patterns = [label_re; nth 1 title_patterns RFail; nth 2 title_patterns RFail].
Proof. reflexivity. Qed.

(** X21 ([extract_title_enhanced], the first pass on the first line).  Let
    the line ranked first, trimmed, have 3 to 30 characters and no line
    feed, not begin with "date", "amount", "total", "invoice" or "receipt"
    in any case, and hold no label ("title", "merchant", "store", "vendor",
    "name") followed by a separator and more text.  Then the
    title is that line without a leading "title", "merchant", "store" or
    "name" and the separator after it, unless what is left is one word of
    fewer than four characters: no other line is looked at.  The prefix is
    removed even inside a word, so "Storefront Cafe" gives "front Cafe". *)
Theorem first_line_is_the_title (res : line) (rest : list line) :
  search true label_re (strip (l_text res)) = None ->
  3 <= length (strip (l_text res)) <= 30 ->
  forallb (fun x => negb (x =? 10)%N) (strip (l_text res)) = true ->
  is_some (rematch true excluded_re (strip (l_text res))) = false ->
  leftover_label (sub_empty true title_prefix_re (strip (l_text res))) = false ->
  extract_title_enhanced (res :: rest)
  = Some (sub_empty true title_prefix_re (strip (l_text res))).
Proof.
  intros Hl [L3 L30] F X G.
  unfold extract_title_enhanced, title_first_pass. cbn [first_raising].
  rewrite title_patterns_three. cbn [first_raising].
  unfold title_try at 1. rewrite Hl.
  unfold title_try at 1. rewrite (generic_line_match _ L3 L30 F X).
  cbn [group get m_caps Nat.eqb].
  rewrite strip_idem. unfold leftover_label in G. rewrite G. reflexivity.
Qed.

Lemma first_line_is_the_title_witness :
  extract_title_enhanced
    (mkline (str "Storefront Cafe") 0.9 (str "binary")
       :: [mkline (str "Total: $5.00") 0.8 (str "binary")])
  = Some (str "front Cafe").
Proof.
  apply (first_line_is_the_title
           (mkline (str "Storefront Cafe") 0.9 (str "binary"))
           [mkline (str "Total: $5.00") 0.8 (str "binary")]);
    try (vm_compute; reflexivity).
  vm_compute; lia.
Defined.

(* ===================================================================== *)
(** ** The date rule over every pattern that yields a triple *)
(* ===================================================================== *)

Lemma expand_full_year y : isdecimal y = true -> expand_year y = Some (full_year y).
Proof.
  intros H. unfold expand_year, full_year.
  destruct (Nat.eqb (length y) 2); [|reflexivity].
  now rewrite (int_of_digits _ H).
Qed.

(** On a pattern of the table that has one or three groups, the fourth loop
    applies the guarded rule to the triple, when there is one. *)
Lemma date_by_pattern_rule t p :
  In p date_patterns -> ngroups p <> 2 ->
  date_by_pattern t p
  = option_map (fun abc : text * text * text =>
                  let '(a, b, y) := abc in date_rule false a b y)
      (pattern_triple t p).
Proof.
  intros I N. unfold date_by_pattern, pattern_triple.
  destruct (search true p t) as [mo|] eqn:S; [|reflexivity].
  apply search_sound in S. destruct S as (pre & post & _ & Hs).
  pose proof (groups_length p mo) as L.
  destruct (date_pattern_groups p I) as [D|N1].
  - pose proof (groups_digits true p _ mo D Hs) as G.
    destruct (groups p mo) as [|[g0|] [|[g1|] [|[g2|] [|g3 gs]]]]; try reflexivity.
    + simpl in L. congruence.
    + assert (H0 : isdecimal g0 = true) by (apply G; simpl; auto).
      assert (H1 : isdecimal g1 = true) by (apply G; simpl; auto).
      assert (H2 : isdecimal g2 = true) by (apply G; simpl; auto).
      rewrite (int_of_digits _ H0), (int_of_digits _ H1), (expand_full_year _ H2).
      cbn [option_map]. unfold date_rule, day_first. cbn [orb].
      destruct ((12 <? num g0)%Z && (num g0 <=? 31)%Z); [|reflexivity].
      destruct (num g1 <=? 12)%Z; reflexivity.
  - destruct (groups p mo) as [|[g0|] [|[g1|] [|[g2|] [|g3 gs]]]];
      try reflexivity; simpl in L; lia.
Qed.

Lemma first_some_map {A B C} (f : A -> option B) (g : A -> option C) (h : C -> B) :
  forall l, (forall x, In x l -> f x = option_map h (g x)) ->
            first_some f l = option_map h (first_some g l).
Proof.
  induction l as [|x l IH]; intros H; [reflexivity|]. simpl.
  rewrite (H x (or_introl eq_refl)).
  destruct (g x); [reflexivity|]. apply IH. intros y I. apply H. now right.
Qed.

(** The patterns with two groups, the dates with a month in letters, come
    last in the table, so they are tried only when no pattern yields a
    triple. *)
Lemma triple_patterns_first t abc :
  first_some (pattern_triple t) date_patterns = Some abc ->
  first_some (date_by_pattern t) date_patterns
  = Some (let '(a, b, y) := abc in date_rule false a b y).
Proof.
  assert (E : date_patterns = firstn 7 date_patterns ++ skipn 7 date_patterns)
    by (symmetry; apply firstn_skipn).
  assert (N1 : forall p, In p (firstn 7 date_patterns) ->
                         In p date_patterns /\ ngroups p <> 2).
  { assert (F : forallb (fun p => negb (Nat.eqb (ngroups p) 2))
                        (firstn 7 date_patterns) = true) by (vm_compute; reflexivity).
    rewrite forallb_forall in F. intros p I. split.
    - rewrite E. apply in_or_app. now left.
    - apply F in I. apply negb_true_iff, Nat.eqb_neq in I. exact I. }
  assert (N2 : forall p, In p (skipn 7 date_patterns) -> pattern_triple t p = None).
  { assert (F : forallb (fun p => Nat.eqb (ngroups p) 2)
                        (skipn 7 date_patterns) = true) by (vm_compute; reflexivity).
    rewrite forallb_forall in F. intros p I. apply F, Nat.eqb_eq in I.
    unfold pattern_triple. destruct (search true p t) as [mo|]; [|reflexivity].
    pose proof (groups_length p mo) as L. rewrite I in L.
    destruct (groups p mo) as [|[g0|] [|[g1|] [|[g2|] [|g3 gs]]]];
      try reflexivity; simpl in L; lia. }
  rewrite E at 1 2. rewrite !first_some_app.
  rewrite (first_some_none _ _ N2).
  rewrite (first_some_map (date_by_pattern t) (pattern_triple t)
             (fun abc : text * text * text =>
                let '(a, b, y) := abc in date_rule false a b y)).
  - destruct (first_some (pattern_triple t) (firstn 7 date_patterns)) as [x|];
      [|discriminate].
    intros H. injection H as <-. reflexivity.
  - intros p I. destruct (N1 p I). now apply date_by_pattern_rule.
Qed.

Lemma dateless_elim r :
  dateless r = true ->
  date_labelled r = None /\ date_direct r = None /\ date_patterned r = None.
Proof.
  unfold dateless. intros H. apply andb_true_iff in H. destruct H as [H1 H2].
  destruct (date_triple r) eqn:T; [discriminate|].
  destruct (date_patterned r); [discriminate|].
  repeat split; [now apply date_labelled_none|now apply date_direct_none].
Qed.

(** C2, amended.  Let a line yield the numeric triple (a, b, year), from
    the pattern D/M/20YY or else from the first pattern of the table that
    has three groups, in a list whose other lines yield no date.  If
    12 < a <= 31 and b <= 12, the date has b as month and a as day.  So it
    has when 12 < a <= 31, b > 12 and the line both says "date" and holds
    a date D/M/20YY: the loop over the labelled lines, which tries this one
    pattern only, leaves the test b <= 12 out.  In every other case the
    date has a as month and b as day; a labelled line whose year is not
    20YY is under the same guard as an unlabelled one.  A year of two
    digits is written with its century.  The line "Date: 13/3/2024" alone
    yields "03/13/2024". *)
Theorem date_rule_by_label (pre post : list line) (res : line) (a b y : text) :
  numeric_triple res = Some (a, b, y) ->
  (forall r, In r (pre ++ post) -> dateless r = true) ->
  extract_date_enhanced (pre ++ res :: post)
  = date_rule (has_date_label res && is_some (date_triple res)) a b y
  /\ forall c v,
       extract_date_enhanced (deduplicated_results [mkdet (str "Date: 13/3/2024") c v])
       = str "03/13/2024".
Proof.
  intros H Hn. split; [|intros; vm_compute; reflexivity].
  rewrite date_cascade.
  rewrite (first_some_only date_labelled pre res post)
    by (intros r Hr; apply dateless_elim; auto).
  rewrite (first_some_only date_direct pre res post)
    by (intros r Hr; apply dateless_elim; auto).
  rewrite (first_some_only date_patterned pre res post)
    by (intros r Hr; apply dateless_elim; auto).
  unfold numeric_triple in H.
  destruct (date_triple res) as [[[a' b'] y']|] eqn:T.
  - injection H as -> -> ->.
    rewrite (date_labelled_triple _ _ _ _ T), (date_direct_triple _ _ _ _ T).
    destruct (date_triple_shape _ _ _ _ T) as (_ & _ & _ & _ & _ & Ly).
    unfold date_rule, full_year. rewrite Ly. cbn [Nat.eqb is_some].
    rewrite andb_true_r.
    destruct (has_date_label res), (day_first a); cbn [andb orb]; try reflexivity.
  - rewrite (date_labelled_none _ T), (date_direct_none _ T).
    unfold date_patterned.
    rewrite (triple_patterns_first _ _ H).
    cbn [is_some]. now rewrite andb_false_r.
Qed.

Lemma date_rule_by_label_witness :
  extract_date_enhanced
    ([mkline (str "Thank you") 0.9 (str "otsu")]
       ++ mkline (str "Date: 13/14/1999") 0.8 (str "otsu") :: [])
  = str "13/14/1999".
Proof.
  exact (proj1 (date_rule_by_label [mkline (str "Thank you") 0.9 (str "otsu")] []
                  (mkline (str "Date: 13/14/1999") 0.8 (str "otsu"))
                  (str "13") (str "14") (str "1999") eq_refl
                  ltac:(intros r [<-|[]]; vm_compute; reflexivity))).
Defined.
